(** * Citation Network Analysis Engine

    A shallow embedding of [backend/controllers/networkController.js]
    (class [CitationNetworkAnalysis]), of the handlers of
    [backend/routes/network.js] that call it, and of the pieces of
    their environment that the analysis relies on, followed by the
    properties of the engine: degree sums, density, authority scores,
    clustering, path search and betweenness, connected components,
    community detection, seminal-paper selection, citation patterns, the
    XML exports and the answers of the handlers.

    Conventions of the embedding.
    - A JavaScript number is a [jsnum]: an exact rational, one of the two
      infinities, or NaN.  Rounding of doubles and the sign of zero are
      not represented; every division whose divisor can be zero goes
      through [jdiv], which yields NaN or an infinity as IEEE division
      does.  Counts and indices are [nat].
    - A JavaScript object used as a table and a [Map] are association
      lists in insertion order ([obj]); a [Set] is a duplicate-free list
      in insertion order.  Node identifiers are the strings produced by
      [ObjectId.toString()] (24 hexadecimal digits), which are never
      array indices, so the key order of an object is its insertion
      order; the names of categories and keywords are taken not to be
      array indices either.  An object keyed by numbers (years, lags)
      is an [nobj], which keeps the array indices first, in ascending
      order.
    - A [Date] is seen through its timestamp and its [getFullYear()].
    - A function that can throw returns an [outcome]; loops whose
      termination is not structural take a fuel argument and report
      [OutOfFuel] when it is exhausted. *)

From Stdlib Require Import List Bool Arith ZArith QArith Qminmax Lia Lqa.
From Stdlib Require Import String Ascii Permutation Sorted DecimalString.
Import ListNotations.

Local Open Scope nat_scope.
Local Open Scope list_scope.

(** ** JavaScript values *)

(** Strings. *)

Definition str_in (x : string) (l : list string) : bool :=
  existsb (String.eqb x) l.

(** The double-quote character, and the newline of the templates. *)
Definition dq : string := String (ascii_of_nat 34) EmptyString.
Definition nl : string := String (ascii_of_nat 10) EmptyString.

Definition cat (a b : string) : string := String.append a b.
Infix "+++" := cat (at level 60, right associativity).

(** [String(n)] for a non-negative integer. *)
Definition nat_to_string (n : nat) : string :=
  NilZero.string_of_uint (Nat.to_uint n).

(** [Array.prototype.join]. *)
Fixpoint join (sep : string) (l : list string) : string :=
  match l with
  | [] => EmptyString
  | [x] => x
  | x :: r => x +++ sep +++ join sep r
  end.

(** Numbers. *)

Inductive jsnum : Type :=
| JFin (q : Q)
| JPosInf
| JNegInf
| JNaN.

Definition Qzero (q : Q) : bool := Qeq_bool q 0.
Definition Qpos (q : Q) : bool := negb (Qle_bool q 0).

Definition jneg (a : jsnum) : jsnum :=
  match a with
  | JFin q => JFin (- q)
  | JPosInf => JNegInf
  | JNegInf => JPosInf
  | JNaN => JNaN
  end.

Definition jadd (a b : jsnum) : jsnum :=
  match a, b with
  | JNaN, _ | _, JNaN => JNaN
  | JFin x, JFin y => JFin (x + y)
  | JPosInf, JNegInf | JNegInf, JPosInf => JNaN
  | JPosInf, _ | _, JPosInf => JPosInf
  | JNegInf, _ | _, JNegInf => JNegInf
  end.

(** An infinity times a finite number. *)
Definition inf_times (positive : bool) (q : Q) : jsnum :=
  if Qzero q then JNaN
  else if Bool.eqb positive (Qpos q) then JPosInf else JNegInf.

Definition jmul (a b : jsnum) : jsnum :=
  match a, b with
  | JNaN, _ | _, JNaN => JNaN
  | JFin x, JFin y => JFin (x * y)
  | JPosInf, JFin y | JFin y, JPosInf => inf_times true y
  | JNegInf, JFin y | JFin y, JNegInf => inf_times false y
  | JPosInf, JPosInf | JNegInf, JNegInf => JPosInf
  | JPosInf, JNegInf | JNegInf, JPosInf => JNegInf
  end.

(** IEEE division: a zero divisor gives NaN for a zero dividend and an
    infinity otherwise. *)
Definition jdiv (a b : jsnum) : jsnum :=
  match a, b with
  | JNaN, _ | _, JNaN => JNaN
  | JFin x, JFin y =>
      if Qzero y then
        if Qzero x then JNaN else if Qpos x then JPosInf else JNegInf
      else JFin (x / y)
  | JFin _, _ => JFin 0
  | JPosInf, JFin y => if Qle_bool 0 y then JPosInf else JNegInf
  | JNegInf, JFin y => if Qle_bool 0 y then JNegInf else JPosInf
  | _, _ => JNaN
  end.

(** [a > b]; every comparison with NaN is false. *)
Definition jgt (a b : jsnum) : bool :=
  match a, b with
  | JNaN, _ | _, JNaN => false
  | JFin x, JFin y => negb (Qle_bool x y)
  | JPosInf, JPosInf => false
  | JPosInf, _ => true
  | JNegInf, _ => false
  | JFin _, JNegInf => true
  | JFin _, JPosInf => false
  end.

Definition jmax (a b : jsnum) : jsnum :=
  match a, b with
  | JNaN, _ | _, JNaN => JNaN
  | _, _ => if jgt b a then b else a
  end.

Definition jmin (a b : jsnum) : jsnum :=
  match a, b with
  | JNaN, _ | _, JNaN => JNaN
  | _, _ => if jgt a b then b else a
  end.

(** Equality of numbers as values ([Q] has several representations of
    one rational). NaN is identified with itself here: [jeq] compares
    results of the model, it is not the [===] of the language. *)
Definition jeq (a b : jsnum) : Prop :=
  match a, b with
  | JFin x, JFin y => (x == y)%Q
  | JPosInf, JPosInf | JNegInf, JNegInf | JNaN, JNaN => True
  | _, _ => False
  end.

Definition jnat (n : nat) : jsnum := JFin (inject_Z (Z.of_nat n)).
Definition qnat (n : nat) : Q := inject_Z (Z.of_nat n).

(** [Math.max(...l)] and [Math.min(...l)]. *)
Definition Math_max (l : list jsnum) : jsnum := fold_left jmax l JNegInf.
Definition Math_min (l : list jsnum) : jsnum := fold_left jmin l JPosInf.

(** [l.reduce((a, b) => a + b, 0)]. *)
Definition Qsum (l : list Q) : Q := fold_left Qplus l 0%Q.
Definition nat_sum (l : list nat) : nat := fold_left Nat.add l 0.

(** Objects and Maps: association lists in insertion order. *)

Definition obj (V : Type) : Type := list (string * V).

Fixpoint obj_get {V : Type} (o : obj V) (k : string) : option V :=
  match o with
  | [] => None
  | (k', v) :: r => if String.eqb k' k then Some v else obj_get r k
  end.

(** [o[k] = v], [m.set(k, v)]: an existing key keeps its position. *)
Fixpoint obj_set {V : Type} (o : obj V) (k : string) (v : V) : obj V :=
  match o with
  | [] => [(k, v)]
  | (k', v') :: r =>
      if String.eqb k' k then (k', v) :: r else (k', v') :: obj_set r k v
  end.

Definition obj_keys {V : Type} (o : obj V) : list string := map fst o.
Definition obj_values {V : Type} (o : obj V) : list V := map snd o.

(** Sets of strings: [new Set(l)], [s.has(x)], [s.add(x)]. *)

Definition set_add (s : list string) (x : string) : list string :=
  if str_in x s then s else s ++ [x].

Definition Set_of (l : list string) : list string :=
  fold_left set_add l [].

(** Arrays. *)

(** [l.sort(cmp)] is a stable sort; [before a b] says that [cmp(a, b)]
    is not positive, that is, [a] may stay in front of [b]. *)
Fixpoint sort_insert {A : Type} (before : A -> A -> bool) (x : A)
    (l : list A) : list A :=
  match l with
  | [] => [x]
  | y :: r => if before x y then x :: y :: r else y :: sort_insert before x r
  end.

Definition js_sort {A : Type} (before : A -> A -> bool) (l : list A)
    : list A :=
  fold_right (sort_insert before) [] l.

(** [l.slice(0, e)]: a negative end counts from the end of the array. *)
Definition slice0 {A : Type} (e : Z) (l : list A) : list A :=
  if (e <? 0)%Z then firstn (Z.to_nat (Z.of_nat (List.length l) + e)) l
  else firstn (Z.to_nat e) l.

(** [l.forEach((x, index) => ...)] with the index made explicit. *)
Fixpoint indexed_from {A : Type} (i : nat) (l : list A) : list (nat * A) :=
  match l with
  | [] => []
  | x :: r => (i, x) :: indexed_from (S i) r
  end.

Definition indexed {A : Type} (l : list A) : list (nat * A) :=
  indexed_from 0 l.

(** Outcomes of a call. *)

Inductive error : Type :=
| JsError (message : string)
| TypeError.

Inductive outcome (A : Type) : Type :=
| Ok (a : A)
| Throw (e : error)
| OutOfFuel.

Arguments Ok {A} a.
Arguments Throw {A} e.
Arguments OutOfFuel {A}.

Definition obind {A B : Type} (m : outcome A) (f : A -> outcome B)
    : outcome B :=
  match m with
  | Ok a => f a
  | Throw e => Throw e
  | OutOfFuel => OutOfFuel
  end.

Notation "x <- m ;; k" := (obind m (fun x => k))
  (at level 61, m at next level, right associativity).
Notation "' p <- m ;; k" := (obind m (fun x => match x with p => k end))
  (at level 61, p pattern, m at next level, right associativity).

(** A loop body run over an array, stopping at the first throw. *)
Fixpoint ofold {A S : Type} (f : S -> A -> outcome S) (l : list A) (s : S)
    : outcome S :=
  match l with
  | [] => Ok s
  | x :: r => s' <- f s x ;; ofold f r s'
  end.

(** Reading a property of [undefined] throws. *)
Definition defined {A : Type} (o : option A) : outcome A :=
  match o with
  | Some a => Ok a
  | None => Throw TypeError
  end.

(** ** The graph object *)

(** Modelled from the spec: the package [graph-data-structure] that
    provides [Graph()] is not among the sources.  The Graph Model of the
    spec is a directed multigraph keyed by paper identifier: a set of
    node ids and a multiset of edges, where parallel edges between the
    same ordered pair are permitted and each one is counted by the
    degree computation and by the edge count.  Nodes and edges are kept
    in insertion order; [addEdge] adds its endpoints as nodes;
    [adjacent] lists the targets of the outgoing edges of a node, one
    per edge, and [adjacentReverse] the sources of its incoming edges;
    [indegree] and [outdegree] count the incoming and the outgoing
    edges, and [edges] lists every edge with its source and target. *)
Module Graph.

Record t : Type := mk {
  node_ids : list string;
  links : list (string * string)
}.

Definition empty : t := mk [] [].

Definition nodes (g : t) : list string := node_ids g.

(** Each edge as its pair [(source, target)]. *)
Definition edges (g : t) : list (string * string) := links g.

Definition hasNode (g : t) (n : string) : bool := str_in n (node_ids g).

Definition addNode (g : t) (n : string) : t :=
  if hasNode g n then g else mk (node_ids g ++ [n]) (links g).

Definition addEdge (g : t) (u v : string) : t :=
  let g' := addNode (addNode g u) v in
  mk (node_ids g') (links g' ++ [(u, v)]).

Definition adjacent (g : t) (n : string) : list string :=
  map snd (filter (fun e => String.eqb (fst e) n) (links g)).

Definition adjacentReverse (g : t) (n : string) : list string :=
  map fst (filter (fun e => String.eqb (snd e) n) (links g)).

Definition hasEdge (g : t) (u v : string) : bool :=
  str_in v (adjacent g u).

Definition indegree (g : t) (n : string) : nat :=
  List.length (adjacentReverse g n).

Definition outdegree (g : t) (n : string) : nat :=
  List.length (adjacent g n).

(** Every endpoint of an edge is a node, and no node is listed twice. *)
Definition wf (g : t) : Prop :=
  NoDup (node_ids g) /\
  forall u v, In (u, v) (links g) -> In u (node_ids g) /\ In v (node_ids g).

End Graph.

(** ** Records of the store and of the engine *)

Record Author : Type := {
  name : string;
  affiliation : string
}.

Record Date : Type := {
  getTime : Z;
  getFullYear : Z
}.

(** A document of the [Paper] collection ([models/Paper.js]), with the
    fields the engine reads or writes.  Stored numbers are finite. *)
Record PaperDoc : Type := {
  doc_id : string;
  doc_title : string;
  doc_authors : list Author;
  doc_publishedDate : Date;
  doc_citationCount : Q;
  doc_impactScore : Q;
  doc_categories : list string;
  doc_keywords : list string;
  doc_isSeminal : bool
}.

Inductive CitationType : Type :=
| direct | methodological | contradictory | supportive | indirect.

Inductive Sentiment : Type :=
| positive | negative | neutral.

(** Modelled from the spec: [models/Citation.js] is not among the
    sources.  A citation record names the citing and the cited paper and
    carries a citation type, a sentiment, a strength in [0,1] and a
    free-text context. *)
Record CitationDoc : Type := {
  citingPaper : string;
  citedPaper : string;
  doc_citationType : CitationType;
  doc_sentiment : Sentiment;
  doc_strength : Q;
  doc_context : string
}.

(** The value stored in [paperNodes]. *)
Record PaperNode : Type := {
  id : string;
  title : string;
  authors : list Author;
  publishedDate : Date;
  citationCount : Q;
  impactScore : Q;
  categories : list string;
  keywords : list string
}.

(** The value stored in [citationEdges]. *)
Record CitationEdge : Type := {
  source : string;
  target : string;
  citationType : CitationType;
  sentiment : Sentiment;
  strength : Q;
  context : string
}.

(** The external store: the two collections, and the list of the
    [Paper.updateMany] calls made so far (the ids each one was given). *)
Record Store : Type := {
  paper_docs : list PaperDoc;
  citation_docs : list CitationDoc;
  updateMany_calls : list (list string)
}.

(** The fields of the [CitationNetworkAnalysis] instance that its methods
    read or write ([analysisCache] and [cacheTimeout] are never used). *)
Record Engine : Type := {
  graph : Graph.t;
  paperNodes : obj PaperNode;
  citationEdges : obj CitationEdge
}.

(** The constructor. *)
Definition new_engine : Engine :=
  {| graph := Graph.empty; paperNodes := []; citationEdges := [] |}.

(** ** The store queries used by the builder *)

Record BuildOptions : Type := {
  opt_categories : option (list string);
  opt_dateRange : option (Date * Date);
  opt_minCitations : option Q;
  opt_maxNodes : option nat
}.

Definition no_options : BuildOptions :=
  {| opt_categories := None; opt_dateRange := None;
     opt_minCitations := None; opt_maxNodes := None |}.

Definition or_default {A : Type} (o : option A) (d : A) : A :=
  match o with Some a => a | None => d end.

(** The filter object built from the options. *)
Record PaperFilter : Type := {
  f_categories : option (list string);
  f_publishedDate : option (Date * Date);
  f_citationCount : option Q
}.

Definition matches (f : PaperFilter) (p : PaperDoc) : bool :=
  match f_categories f with
  | Some cs => existsb (fun c => str_in c cs) (doc_categories p)
  | None => true
  end &&
  match f_publishedDate f with
  | Some (s, e) =>
      (getTime s <=? getTime (doc_publishedDate p))%Z &&
      (getTime (doc_publishedDate p) <=? getTime e)%Z
  | None => true
  end &&
  match f_citationCount f with
  | Some m => Qle_bool m (doc_citationCount p)
  | None => true
  end.

(** [Paper.find(filter).limit(n).sort({ citationCount: -1 })]: the
    matching documents by descending citation count, ties in store
    order, cut at [n]. *)
Definition Paper_find (s : Store) (f : PaperFilter) (limit : nat)
    : list PaperDoc :=
  firstn limit
    (js_sort (fun a b => Qle_bool (doc_citationCount b) (doc_citationCount a))
       (filter (matches f) (paper_docs s))).

(** [Citation.find({ citingPaper: { $in: ids }, citedPaper: { $in: ids } })]. *)
Definition Citation_find (s : Store) (ids : list string) : list CitationDoc :=
  filter (fun c => str_in (citingPaper c) ids && str_in (citedPaper c) ids)
    (citation_docs s).

(** [Paper.updateMany({ _id: { $in: ids } }, { isSeminal: true })]. *)
Definition Paper_updateMany_isSeminal (s : Store) (ids : list string)
    : Store :=
  {| paper_docs :=
       map (fun p =>
              if str_in (doc_id p) ids then
                {| doc_id := doc_id p; doc_title := doc_title p;
                   doc_authors := doc_authors p;
                   doc_publishedDate := doc_publishedDate p;
                   doc_citationCount := doc_citationCount p;
                   doc_impactScore := doc_impactScore p;
                   doc_categories := doc_categories p;
                   doc_keywords := doc_keywords p;
                   doc_isSeminal := true |}
              else p)
           (paper_docs s);
     citation_docs := citation_docs s;
     updateMany_calls := updateMany_calls s ++ [ids] |}.

(** ** buildCitationNetwork *)

Record BuildSummary : Type := {
  bs_nodes : nat;
  bs_edges : nat;
  bs_papers : list PaperNode;
  bs_citations : list CitationEdge
}.

Definition paper_filter (options : BuildOptions) : PaperFilter :=
  let categories := or_default (opt_categories options) [] in
  let minCitations := or_default (opt_minCitations options) 0%Q in
  {| f_categories :=
       if 0 <? List.length categories then Some categories else None;
     f_publishedDate := opt_dateRange options;
     f_citationCount :=
       if Qpos minCitations then Some minCitations else None |}.

(** The value stored for a paper. *)
Definition paper_node (paper : PaperDoc) : PaperNode :=
  {| id := doc_id paper;
     title := doc_title paper;
     authors := doc_authors paper;
     publishedDate := doc_publishedDate paper;
     citationCount := doc_citationCount paper;
     impactScore := doc_impactScore paper;
     categories := doc_categories paper;
     keywords := doc_keywords paper |}.

(** One turn of the loop that adds the nodes. *)
Definition add_paper (e : Engine) (paper : PaperDoc) : Engine :=
  let nodeId := doc_id paper in
  {| graph := Graph.addNode (graph e) nodeId;
     paperNodes := obj_set (paperNodes e) nodeId (paper_node paper);
     citationEdges := citationEdges e |}.

(** The key [`${sourceId}-${targetId}`]. *)
Definition edge_key (sourceId targetId : string) : string :=
  sourceId +++ "-"%string +++ targetId.

(** The value stored for a citation. *)
Definition citation_edge (citation : CitationDoc) : CitationEdge :=
  {| source := citingPaper citation;
     target := citedPaper citation;
     citationType := doc_citationType citation;
     sentiment := doc_sentiment citation;
     strength := doc_strength citation;
     context := doc_context citation |}.

Definition citation_key (citation : CitationDoc) : string :=
  edge_key (citingPaper citation) (citedPaper citation).

(** One turn of the loop that adds the edges. *)
Definition add_citation (e : Engine) (citation : CitationDoc) : Engine :=
  let sourceId := citingPaper citation in
  let targetId := citedPaper citation in
  if Graph.hasNode (graph e) sourceId && Graph.hasNode (graph e) targetId
  then
    {| graph := Graph.addEdge (graph e) sourceId targetId;
       paperNodes := paperNodes e;
       citationEdges :=
         obj_set (citationEdges e) (citation_key citation)
           (citation_edge citation) |}
  else e.

(** The engine after a build from the given query results. *)
Definition build_from (papers : list PaperDoc) (citations : list CitationDoc)
    : Engine :=
  fold_left add_citation citations (fold_left add_paper papers new_engine).

Definition summary (e : Engine) : BuildSummary :=
  {| bs_nodes := List.length (Graph.nodes (graph e));
     bs_edges := List.length (Graph.edges (graph e));
     bs_papers := obj_values (paperNodes e);
     bs_citations := obj_values (citationEdges e) |}.

(** The default of [maxNodes]. *)
Definition default_maxNodes : nat := 10000.

(** The previous graph and tables are cleared first, so the result does
    not depend on the engine the call starts from; the store is only
    read. *)
Definition buildCitationNetwork (options : BuildOptions) (s : Store)
    : BuildSummary * Engine :=
  let maxNodes := or_default (opt_maxNodes options) default_maxNodes in
  let papers := Paper_find s (paper_filter options) maxNodes in
  let paperIds := map doc_id papers in
  let citations := Citation_find s paperIds in
  let e := build_from papers citations in
  (summary e, e).

(** ** Metrics *)

(** Reading [t[k]] where a number is expected: a missing entry is
    [undefined], which arithmetic turns into NaN. *)
Definition num_at (t : obj jsnum) (k : string) : jsnum :=
  match obj_get t k with
  | Some v => v
  | None => JNaN
  end.

Definition count_at (t : obj nat) (k : string) : jsnum :=
  match obj_get t k with
  | Some n => jnat n
  | None => JNaN
  end.

Definition jsum (l : list jsnum) : jsnum := fold_left jadd l (JFin 0).

(** [count[k] = (count[k] || 0) + 1] on an object whose keys are
    non-negative integers: such keys are enumerated in ascending order. *)
Fixpoint count_incr (t : list (nat * nat)) (k : nat) : list (nat * nat) :=
  match t with
  | [] => [(k, 1)]
  | (k', c) :: r =>
      if k' =? k then (k', c + 1) :: r
      else if k <? k' then (k, 1) :: (k', c) :: r
      else (k', c) :: count_incr r k
  end.

Record DegreeDistribution : Type := {
  dd_inDegree : list (nat * nat);
  dd_outDegree : list (nat * nat)
}.

Definition calculateDegreeDistribution (inDegrees outDegrees : list nat)
    : DegreeDistribution :=
  {| dd_inDegree := fold_left count_incr inDegrees [];
     dd_outDegree := fold_left count_incr outDegrees [] |}.

Record BasicMetrics : Type := {
  nodeCount : nat;
  edgeCount : nat;
  density : jsnum;
  avgInDegree : jsnum;
  avgOutDegree : jsnum;
  maxInDegree : jsnum;
  maxOutDegree : jsnum;
  degreeDistribution : DegreeDistribution
}.

Definition calculateBasicMetrics (e : Engine) : BasicMetrics :=
  let nodes := Graph.nodes (graph e) in
  let edges := Graph.edges (graph e) in
  let inDegrees := map (Graph.indegree (graph e)) nodes in
  let outDegrees := map (Graph.outdegree (graph e)) nodes in
  let n := jnat (List.length nodes) in
  {| nodeCount := List.length nodes;
     edgeCount := List.length edges;
     density :=
       jdiv (jnat (List.length edges)) (jmul n (jadd n (JFin (-1))));
     avgInDegree := jdiv (jnat (nat_sum inDegrees)) n;
     avgOutDegree := jdiv (jnat (nat_sum outDegrees)) n;
     maxInDegree := Math_max (map jnat inDegrees);
     maxOutDegree := Math_max (map jnat outDegrees);
     degreeDistribution := calculateDegreeDistribution inDegrees outDegrees |}.

(** *** Shortest paths and betweenness *)

(** The [while] loop of [findShortestPaths].  A path in the queue is
    never empty, so [last path] is its final node. *)
Fixpoint findShortestPaths_loop (fuel : nat) (g : Graph.t) (target : string)
    (maxPaths : nat) (paths queue : list (list string))
    (visited : list string) : outcome (list (list string)) :=
  match fuel with
  | 0 => OutOfFuel
  | S fuel' =>
      match queue with
      | [] => Ok paths
      | path :: rest =>
          if List.length paths <? maxPaths then
            let current := last path EmptyString in
            if String.eqb current target then
              findShortestPaths_loop fuel' g target maxPaths
                (paths ++ [path]) rest visited
            else if 5 <? List.length path then
              findShortestPaths_loop fuel' g target maxPaths
                paths rest visited
            else
              let pathKey := join "-"%string path in
              if str_in pathKey visited then
                findShortestPaths_loop fuel' g target maxPaths
                  paths rest visited
              else
                findShortestPaths_loop fuel' g target maxPaths paths
                  (rest ++
                   map (fun neighbor => path ++ [neighbor])
                     (filter (fun neighbor => negb (str_in neighbor path))
                        (Graph.adjacent g current)))
                  (set_add visited pathKey)
          else Ok paths
      end
  end.

(** Fuel that covers every run of the loop: a path is extended only up
    to six nodes, by at most one path per edge of the graph. *)
Definition paths_fuel (g : Graph.t) : nat :=
  S (S (List.length (Graph.links g)) ^ 5).

Definition findShortestPaths (g : Graph.t) (source target : string)
    (maxPaths : nat) : outcome (list (list string)) :=
  findShortestPaths_loop (paths_fuel g) g target maxPaths [] [[source]] [].

(** [t[k]++]. *)
Definition incr_at (t : obj jsnum) (k : string) : obj jsnum :=
  obj_set t k (jadd (num_at t k) (JFin 1)).

(** The nodes [path[1] .. path[path.length - 2]]. *)
Definition interior (path : list string) : list string :=
  removelast (tl path).

(** The body of the two nested [forEach] loops over the nodes: the paths
    found from [source] to a different [target] are counted at their
    interior nodes. *)
Definition count_paths (g : Graph.t) (source : string) (b : obj jsnum)
    (target : string) : outcome (obj jsnum) :=
  if negb (String.eqb source target) then
    paths <- findShortestPaths g source target 3 ;;
    Ok (fold_left (fun b path => fold_left incr_at (interior path) b)
          paths b)
  else Ok b.

Definition calculateBetweennessCentrality (g : Graph.t)
    : outcome (obj jsnum) :=
  let nodes := Graph.nodes g in
  let zero := fold_left (fun b node => obj_set b node (JFin 0)) nodes [] in
  counted <-
    ofold (fun b source => ofold (count_paths g source) nodes b) nodes zero ;;
  let maxBetweenness := Math_max (obj_values counted) in
  if jgt maxBetweenness (JFin 0) then
    Ok (fold_left
          (fun b node => obj_set b node (jdiv (num_at b node) maxBetweenness))
          (obj_keys counted) counted)
  else Ok counted.

(** *** Authority *)

(** The body of the second [forEach] of an iteration: a node with
    outgoing edges adds its contribution to each of its neighbors. *)
Definition pass_on (g : Graph.t) (dampingFactor : Q) (scores : obj jsnum)
    (newScores : obj jsnum) (node : string) : obj jsnum :=
  let outDegree := Graph.outdegree g node in
  if 0 <? outDegree then
    let contribution :=
      jdiv (jmul (JFin dampingFactor) (num_at scores node))
           (jnat outDegree) in
    fold_left
      (fun ns neighbor =>
         obj_set ns neighbor (jadd (num_at ns neighbor) contribution))
      (Graph.adjacent g node) newScores
  else newScores.

(** One iteration of the loop of [calculateAuthorityScore]; [newScores]
    is declared outside the loop and so carried along. *)
Definition authority_step (g : Graph.t) (dampingFactor : Q)
    (st : obj jsnum * obj jsnum) : obj jsnum * obj jsnum :=
  let nodes := Graph.nodes g in
  let n := jnat (List.length nodes) in
  let '(scores, newScores) := st in
  let newScores :=
    fold_left
      (fun ns node => obj_set ns node (jdiv (JFin (1 - dampingFactor)) n))
      nodes newScores in
  let newScores := fold_left (pass_on g dampingFactor scores) nodes newScores in
  (* Object.assign(scores, newScores) *)
  (fold_left (fun s kv => obj_set s (fst kv) (snd kv)) newScores scores,
   newScores).

Definition calculateAuthorityScore_with (g : Graph.t) (iterations : nat)
    (dampingFactor : Q) : obj jsnum :=
  let nodes := Graph.nodes g in
  let scores :=
    fold_left
      (fun s node => obj_set s node (jdiv (JFin 1) (jnat (List.length nodes))))
      nodes [] in
  fst (Nat.iter iterations (authority_step g dampingFactor) (scores, [])).

(** The defaults [iterations = 10] and [dampingFactor = 0.85]. *)
Definition calculateAuthorityScore (g : Graph.t) : obj jsnum :=
  calculateAuthorityScore_with g 10 (85 # 100).

(** *** Centrality *)

Record CentralityMetrics : Type := {
  c_inDegree : obj nat;
  c_outDegree : obj nat;
  c_betweenness : obj jsnum;
  c_authority : obj jsnum
}.

(** The two tables filled by the [forEach] loops over the nodes. *)
Definition inDegree_table (g : Graph.t) : obj nat :=
  fold_left (fun t node => obj_set t node (Graph.indegree g node))
    (Graph.nodes g) [].

Definition outDegree_table (g : Graph.t) : obj nat :=
  fold_left (fun t node => obj_set t node (Graph.outdegree g node))
    (Graph.nodes g) [].

Definition calculateCentralityMetrics (e : Engine)
    : outcome CentralityMetrics :=
  let g := graph e in
  let inDegree := inDegree_table g in
  let outDegree := outDegree_table g in
  betweenness <- calculateBetweennessCentrality g ;;
  Ok {| c_inDegree := inDegree;
        c_outDegree := outDegree;
        c_betweenness := betweenness;
        c_authority := calculateAuthorityScore g |}.

(** *** Clustering *)

(** The two nested loops over [i < j]: the number of pairs taken in
    array order that satisfy [p]. *)
Fixpoint count_pairs (p : string -> string -> bool) (l : list string) : nat :=
  match l with
  | [] => 0
  | x :: r => List.length (filter (p x) r) + count_pairs p r
  end.

Definition local_clustering (g : Graph.t) (node : string) : jsnum :=
  let neighbors := Graph.adjacent g node in
  if List.length neighbors <? 2 then JFin 0
  else
    let possibleTriangles :=
      jdiv (jnat (List.length neighbors * (List.length neighbors - 1)))
           (JFin 2) in
    let triangles :=
      count_pairs
        (fun a b => Graph.hasEdge g a b || Graph.hasEdge g b a) neighbors in
    jdiv (jnat triangles) possibleTriangles.

Record ClusteringMetrics : Type := {
  cl_local : obj jsnum;
  cl_global : jsnum
}.

Definition calculateClusteringMetrics (e : Engine) : ClusteringMetrics :=
  let g := graph e in
  let nodes := Graph.nodes g in
  let clustering :=
    fold_left (fun c node => obj_set c node (local_clustering g node))
      nodes [] in
  let avgClustering :=
    jdiv (jsum (obj_values clustering)) (jnat (List.length nodes)) in
  {| cl_local := clustering; cl_global := avgClustering |}.

(** ** Connected components *)

(** The recursive [dfs] closure; the state is [(visited, component)]. *)
Fixpoint dfs (fuel : nat) (g : Graph.t) (node : string)
    (st : list string * list string) : outcome (list string * list string) :=
  match fuel with
  | 0 => OutOfFuel
  | S fuel' =>
      let st1 := (set_add (fst st) node, snd st ++ [node]) in
      let neighbors := Graph.adjacent g node ++ Graph.adjacentReverse g node in
      ofold (fun st neighbor =>
               if negb (str_in neighbor (fst st)) then dfs fuel' g neighbor st
               else Ok st)
            neighbors st1
  end.

Record ComponentReport : Type := {
  cr_count : nat;
  cr_sizes : list nat;
  cr_largest : jsnum;
  cr_components : list (list string)
}.

Definition findConnectedComponents (g : Graph.t) : outcome ComponentReport :=
  let nodes := Graph.nodes g in
  found <-
    ofold (fun (st : list string * list (list string)) node =>
             let '(visited, components) := st in
             if negb (str_in node visited) then
               r <- dfs (S (List.length nodes)) g node (visited, []) ;;
               Ok (fst r, components ++ [snd r])
             else Ok st)
          nodes ([], []) ;;
  let components := snd found in
  Ok {| cr_count := List.length components;
        cr_sizes := map (@List.length string) components;
        cr_largest := Math_max (map (fun c => jnat (List.length c)) components);
        cr_components :=
          js_sort (fun a b => List.length b <=? List.length a) components |}.

(** ** Communities *)

(** The share of the smaller set in the larger one that the two sets
    have in common, as computed three times by
    [calculatePaperSimilarity]. *)
Definition overlap_ratio (l1 l2 : list string) : jsnum :=
  let s1 := Set_of l1 in
  let s2 := Set_of l2 in
  let overlap := Set_of (filter (fun x => str_in x s2) s1) in
  jdiv (jnat (List.length overlap))
       (jnat (Nat.max (List.length s1) (List.length s2))).

Definition calculatePaperSimilarity (paper1 paper2 : PaperNode) : jsnum :=
  let similarity := JFin 0 in
  let similarity :=
    jadd similarity
      (jmul (overlap_ratio (categories paper1) (categories paper2))
            (JFin (4 # 10))) in
  let similarity :=
    jadd similarity
      (jmul (overlap_ratio (keywords paper1) (keywords paper2))
            (JFin (3 # 10))) in
  let similarity :=
    jadd similarity
      (jmul (overlap_ratio (map name (authors paper1))
                           (map name (authors paper2)))
            (JFin (3 # 10))) in
  similarity.

(** The body of [for (const neighbor of neighbors)] in
    [detectCommunities]; the state is [(visited, community, queue)]. *)
Definition visit_neighbor (e : Engine) (currentPaper : option PaperNode)
    (st : list string * list string * list string) (neighbor : string)
    : outcome (list string * list string * list string) :=
  let '(visited, community, queue) := st in
  if str_in neighbor visited then Ok st
  else
    let neighborPaper := obj_get (paperNodes e) neighbor in
    p1 <- defined currentPaper ;;
    p2 <- defined neighborPaper ;;
    let similarity := calculatePaperSimilarity p1 p2 in
    if jgt similarity (JFin (3 # 10)) then
      Ok (set_add visited neighbor, set_add community neighbor,
          queue ++ [neighbor])
    else Ok st.

(** The loop [while (queue.length > 0)]. *)
Fixpoint grow_community (fuel : nat) (e : Engine)
    (st : list string * list string * list string)
    : outcome (list string * list string) :=
  match fuel with
  | 0 => OutOfFuel
  | S fuel' =>
      let '(visited, community, queue) := st in
      match queue with
      | [] => Ok (visited, community)
      | current :: rest =>
          let currentPaper := obj_get (paperNodes e) current in
          let neighbors := Graph.adjacent (graph e) current in
          st' <- ofold (visit_neighbor e currentPaper) neighbors
                   (visited, community, rest) ;;
          grow_community fuel' e st'
      end
  end.

(** The first loop of [detectCommunities]: the [communities] Map, as the
    list of its entries. *)
Definition collect_communities (e : Engine)
    : outcome (list (nat * list string)) :=
  let nodes := Graph.nodes (graph e) in
  r <-
    ofold (fun (st : list string * list (nat * list string)) node =>
             let '(visited, communities) := st in
             if str_in node visited then Ok st
             else
               grown <- grow_community (2 + List.length nodes) e
                          (set_add visited node, [node], [node]) ;;
               let '(visited, community) := grown in
               if 3 <=? List.length community then
                 Ok (visited,
                     communities ++ [(List.length communities, community)])
               else Ok (visited, communities))
          nodes ([], []) ;;
  Ok (snd r).

(** [count[k] = (count[k] || 0) + 1] on an object keyed by names. *)
Definition tally (t : obj nat) (k : string) : obj nat :=
  obj_set t k (match obj_get t k with Some c => c + 1 | None => 1 end).

(** [Object.entries(count).sort(([, a], [, b]) => b - a).slice(0, n)]. *)
Definition top_entries (n : Z) (t : obj nat) : list (string * nat) :=
  slice0 n (js_sort (fun a b => snd b <=? snd a) t).

Definition getTopCategories (papers : list PaperNode) : list (string * nat) :=
  top_entries 5
    (fold_left (fun t paper => fold_left tally (categories paper) t) papers []).

Definition getTopKeywords (papers : list PaperNode) : list (string * nat) :=
  top_entries 10
    (fold_left (fun t paper => fold_left tally (keywords paper) t) papers []).

Record TimeSpan : Type := {
  ts_start : jsnum;
  ts_end : jsnum;
  ts_span : jsnum
}.

Definition getTimeSpan (papers : list PaperNode) : TimeSpan :=
  let years :=
    map (fun paper => JFin (inject_Z (getFullYear (publishedDate paper))))
        papers in
  {| ts_start := Math_min years;
     ts_end := Math_max years;
     ts_span := jadd (Math_max years) (jneg (Math_min years)) |}.

Record Community : Type := {
  com_id : nat;
  com_size : nat;
  com_members : list string;
  com_topCategories : list (string * nat);
  com_topKeywords : list (string * nat);
  com_avgCitationCount : jsnum;
  com_avgImpactScore : jsnum;
  com_timeSpan : TimeSpan;
  com_topPapers : list PaperNode
}.

(** Array.prototype.map where the callback may throw. *)
Fixpoint omap {A B : Type} (f : A -> outcome B) (l : list A)
    : outcome (list B) :=
  match l with
  | [] => Ok []
  | x :: r => y <- f x ;; ys <- omap f r ;; Ok (y :: ys)
  end.

(** The analysis of one entry of the Map.  A member without an entry in
    [paperNodes] makes the first read of one of its fields throw. *)
Definition analyse_community (e : Engine) (entry : nat * list string)
    : outcome Community :=
  let '(cid, members) := entry in
  memberPapers <-
    omap (fun nodeId => defined (obj_get (paperNodes e) nodeId)) members ;;
  Ok {| com_id := cid;
        com_size := List.length members;
        com_members := members;
        com_topCategories := getTopCategories memberPapers;
        com_topKeywords := getTopKeywords memberPapers;
        com_avgCitationCount :=
          jdiv (JFin (Qsum (map citationCount memberPapers)))
               (jnat (List.length members));
        com_avgImpactScore :=
          jdiv (JFin (Qsum (map impactScore memberPapers)))
               (jnat (List.length members));
        com_timeSpan := getTimeSpan memberPapers;
        com_topPapers :=
          slice0 5
            (js_sort (fun a b => Qle_bool (impactScore b) (impactScore a))
               memberPapers) |}.

Record CommunityReport : Type := {
  cm_count : nat;
  cm_communities : list Community
}.

Definition detectCommunities (e : Engine) : outcome CommunityReport :=
  communities <- collect_communities e ;;
  communityAnalysis <- omap (analyse_community e) communities ;;
  Ok {| cm_count := List.length communities;
        cm_communities :=
          js_sort (fun a b => com_size b <=? com_size a) communityAnalysis |}.

(** ** calculateNetworkMetrics *)

Record NetworkMetrics : Type := {
  basic : BasicMetrics;
  centrality : CentralityMetrics;
  clustering : ClusteringMetrics;
  components : ComponentReport;
  communities : CommunityReport
}.

Definition not_built : error :=
  JsError "Citation network not built. Call buildCitationNetwork first.".

Definition calculateNetworkMetrics (e : Engine) : outcome NetworkMetrics :=
  if List.length (Graph.nodes (graph e)) =? 0 then Throw not_built
  else
    let basic := calculateBasicMetrics e in
    centrality <- calculateCentralityMetrics e ;;
    let clustering := calculateClusteringMetrics e in
    components <- findConnectedComponents (graph e) ;;
    communities <- detectCommunities e ;;
    Ok {| basic := basic;
          centrality := centrality;
          clustering := clustering;
          components := components;
          communities := communities |}.

(** ** identifySeminalPapers *)

Record SeminalOptions : Type := {
  so_minCitations : option Q;
  so_minAge : option Z;
  so_topN : option Z
}.

(** [networkMetrics] of a candidate: the three table entries as read,
    [None] for [undefined]. *)
Record CandidateMetrics : Type := {
  nm_inDegree : option nat;
  nm_authority : option jsnum;
  nm_betweenness : option jsnum
}.

Record SeminalPaper : Type := {
  paper : PaperNode;
  seminalScore : jsnum;
  networkMetrics : CandidateMetrics
}.

Definition num_of (o : option jsnum) : jsnum :=
  match o with Some v => v | None => JNaN end.

Definition num_of_count (o : option nat) : jsnum :=
  match o with Some n => jnat n | None => JNaN end.

(** The expression assigned to [seminalScore]. *)
Definition seminal_score (p : PaperNode) (inDegree : option nat)
    (authority betweenness : option jsnum) : jsnum :=
  jadd
    (jadd
       (jadd
          (jadd (jmul (JFin (citationCount p)) (JFin (3 # 10)))
                (jmul (JFin (impactScore p)) (JFin (2 # 10))))
          (jmul (num_of_count inDegree) (JFin (2 # 10))))
       (jmul (jmul (num_of authority) (JFin 100)) (JFin (2 # 10))))
    (jmul (jmul (num_of betweenness) (JFin 100)) (JFin (1 # 10))).

(** The test that admits a node as a candidate. *)
Definition is_candidate (minCitations : Q) (minAge currentYear : Z)
    (p : PaperNode) : bool :=
  let age := (currentYear - getFullYear (publishedDate p))%Z in
  Qle_bool minCitations (citationCount p) && (minAge <=? age)%Z.

(** The body of the [forEach] over the nodes. *)
Definition consider (e : Engine) (metrics : NetworkMetrics)
    (minCitations : Q) (minAge currentYear : Z)
    (seminalCandidates : list SeminalPaper) (nodeId : string)
    : outcome (list SeminalPaper) :=
  p <- defined (obj_get (paperNodes e) nodeId) ;;
  if is_candidate minCitations minAge currentYear p then
    let inDegree := obj_get (c_inDegree (centrality metrics)) nodeId in
    let authority := obj_get (c_authority (centrality metrics)) nodeId in
    let betweenness := obj_get (c_betweenness (centrality metrics)) nodeId in
    Ok (seminalCandidates ++
        [{| paper := p;
            seminalScore := seminal_score p inDegree authority betweenness;
            networkMetrics :=
              {| nm_inDegree := inDegree;
                 nm_authority := authority;
                 nm_betweenness := betweenness |} |}])
  else Ok seminalCandidates.

(** The comparator [(a, b) => b.seminalScore - a.seminalScore] leaves
    [a] in front of [b] unless it is positive. *)
Definition score_before (a b : SeminalPaper) : bool :=
  negb (jgt (jadd (seminalScore b) (jneg (seminalScore a))) (JFin 0)).

(** [currentYear] is [new Date().getFullYear()].  The result is the
    outcome of the call together with the engine and the store it
    leaves behind. *)
Definition identifySeminalPapers (options : SeminalOptions) (currentYear : Z)
    (e : Engine) (s : Store) : outcome (list SeminalPaper) * Engine * Store :=
  let minCitations := or_default (so_minCitations options) 50%Q in
  let minAge := or_default (so_minAge options) 2%Z in
  let topN := or_default (so_topN options) 50%Z in
  let e :=
    if List.length (Graph.nodes (graph e)) =? 0
    then snd (buildCitationNetwork no_options s) else e in
  match calculateNetworkMetrics e with
  | Throw err => (Throw err, e, s)
  | OutOfFuel => (OutOfFuel, e, s)
  | Ok metrics =>
      match ofold (consider e metrics minCitations minAge currentYear)
                  (Graph.nodes (graph e)) [] with
      | Throw err => (Throw err, e, s)
      | OutOfFuel => (OutOfFuel, e, s)
      | Ok seminalCandidates =>
          let seminalPapers :=
            slice0 topN (js_sort score_before seminalCandidates) in
          let seminalPaperIds := map (fun sp => id (paper sp)) seminalPapers in
          (Ok seminalPapers, e, Paper_updateMany_isSeminal s seminalPaperIds)
      end
  end.

(** ** Export *)

Record ExportNode : Type := {
  en_id : string;
  en_paper : option PaperNode
}.

Record ExportEdge : Type := {
  ee_source : string;
  ee_target : string;
  ee_citation : option CitationEdge
}.

Record ExportMetadata : Type := {
  md_nodeCount : nat;
  md_edgeCount : nat;
  md_generatedAt : string
}.

Record NetworkData : Type := {
  nd_nodes : list ExportNode;
  nd_edges : list ExportEdge;
  nd_metadata : ExportMetadata
}.

Inductive Exported : Type :=
| AsObject (d : NetworkData)
| AsText (xml : string).

(** [{ id: nodeId, ...paperNodes.get(nodeId) }]: the spread of a paper
    node overrides [id] with the node's own. *)
Definition export_node (e : Engine) (nodeId : string) : ExportNode :=
  match obj_get (paperNodes e) nodeId with
  | Some p => {| en_id := id p; en_paper := Some p |}
  | None => {| en_id := nodeId; en_paper := None |}
  end.

Definition export_edge (e : Engine) (edge : string * string) : ExportEdge :=
  match obj_get (citationEdges e) (edge_key (fst edge) (snd edge)) with
  | Some c => {| ee_source := source c; ee_target := target c;
                 ee_citation := Some c |}
  | None => {| ee_source := fst edge; ee_target := snd edge;
               ee_citation := None |}
  end.

Definition network_data (generatedAt : string) (e : Engine) : NetworkData :=
  let nodes := map (export_node e) (Graph.nodes (graph e)) in
  let edges := map (export_edge e) (Graph.edges (graph e)) in
  {| nd_nodes := nodes;
     nd_edges := edges;
     nd_metadata :=
       {| md_nodeCount := List.length nodes;
          md_edgeCount := List.length edges;
          md_generatedAt := generatedAt |} |}.

(** The global replacement of the double-quote character by its entity
    [&quot;], as applied to the title. *)
Fixpoint replace_quotes (s : string) : string :=
  match s with
  | EmptyString => EmptyString
  | String c r =>
      if Ascii.eqb c (ascii_of_nat 34) then "&quot;" +++ replace_quotes r
      else String c (replace_quotes r)
  end.

(** A quoted attribute value of a template. *)
Definition quoted (v : string) : string := dq +++ v +++ dq.

Section Exporter.

(** The conversion of a number to text in a template literal. *)
Variable toString : Q -> string.

(** The text added for one node by [convertToGEXF]. *)
Definition gexf_node_text (nodeId : string) (p : PaperNode) : string :=
"<node id=" +++ quoted nodeId +++
" label=" +++ quoted (replace_quotes (title p)) +++ ">" +++ nl +++
"<attvalues>" +++ nl +++
"<attvalue for=" +++ quoted "citationCount" +++
" value=" +++ quoted (toString (citationCount p)) +++ "/>" +++ nl +++
"<attvalue for=" +++ quoted "impactScore" +++
" value=" +++ quoted (toString (impactScore p)) +++ "/>" +++ nl +++
"</attvalues>" +++ nl +++
"</node>" +++ nl.

(** A node without paper data has no [title], and [title.replace]
    throws. *)
Definition gexf_node (node : ExportNode) : outcome string :=
p <- defined (en_paper node) ;;
Ok (gexf_node_text (en_id node) p).

Definition gexf_edge (ie : nat * ExportEdge) : string :=
  "<edge id=" +++ quoted (nat_to_string (fst ie)) +++
  " source=" +++ quoted (ee_source (snd ie)) +++
  " target=" +++ quoted (ee_target (snd ie)) +++ "/>" +++ nl.

Definition convertToGEXF (networkData : NetworkData) : outcome string :=
  let gexf :=
    "<?xml version=" +++ quoted "1.0" +++
    " encoding=" +++ quoted "UTF-8" +++ "?>" +++ nl in
  let gexf :=
    gexf +++ "<gexf xmlns=" +++ quoted "http://www.gexf.net/1.2draft" +++
    " version=" +++ quoted "1.2" +++ ">" +++ nl in
  let gexf :=
    gexf +++ "<graph mode=" +++ quoted "static" +++
    " defaultedgetype=" +++ quoted "directed" +++ ">" +++ nl in
  let gexf := gexf +++ "<nodes>" +++ nl in
  gexf <-
    ofold (fun gexf node => t <- gexf_node node ;; Ok (gexf +++ t))
          (nd_nodes networkData) gexf ;;
  let gexf := gexf +++ "</nodes>" +++ nl in
  let gexf := gexf +++ "<edges>" +++ nl in
  let gexf :=
    fold_left (fun gexf ie => gexf +++ gexf_edge ie)
      (indexed (nd_edges networkData)) gexf in
  let gexf := gexf +++ "</edges>" +++ nl in
  let gexf := gexf +++ "</graph>" +++ nl in
  let gexf := gexf +++ "</gexf>" in
  Ok gexf.

Definition graphml_node (node : ExportNode) : string :=
  "<node id=" +++ quoted (en_id node) +++ "/>" +++ nl.

Definition graphml_edge (ie : nat * ExportEdge) : string :=
  "<edge id=" +++ quoted ("e" +++ nat_to_string (fst ie)) +++
  " source=" +++ quoted (ee_source (snd ie)) +++
  " target=" +++ quoted (ee_target (snd ie)) +++ "/>" +++ nl.

Definition convertToGraphML (networkData : NetworkData) : string :=
  let graphml :=
    "<?xml version=" +++ quoted "1.0" +++
    " encoding=" +++ quoted "UTF-8" +++ "?>" +++ nl in
  let graphml :=
    graphml +++ "<graphml xmlns=" +++
    quoted "http://graphml.graphdrawing.org/xmlns" +++ ">" +++ nl in
  let graphml :=
    graphml +++ "<graph id=" +++ quoted "CitationNetwork" +++
    " edgedefault=" +++ quoted "directed" +++ ">" +++ nl in
  let graphml :=
    fold_left (fun graphml node => graphml +++ graphml_node node)
      (nd_nodes networkData) graphml in
  let graphml :=
    fold_left (fun graphml ie => graphml +++ graphml_edge ie)
      (indexed (nd_edges networkData)) graphml in
  let graphml := graphml +++ "</graph>" +++ nl in
  let graphml := graphml +++ "</graphml>" in
  graphml.

(** [generatedAt] is [new Date().toISOString()]. *)
Definition exportNetworkData (format generatedAt : string) (e : Engine)
    : outcome Exported :=
  let networkData := network_data generatedAt e in
  if String.eqb format "json" then Ok (AsObject networkData)
  else if String.eqb format "gexf" then
    xml <- convertToGEXF networkData ;; Ok (AsText xml)
  else if String.eqb format "graphml" then
    Ok (AsText (convertToGraphML networkData))
  else Ok (AsObject networkData).

End Exporter.

(** ** Citation patterns *)

(** Objects with numbers as keys.  A key that is an array index (an
    integer from 0 to 2^32 - 2) is enumerated before every other key,
    the array indices in ascending order and the other keys in insertion
    order; assigning to a key that is present keeps its position. *)
Definition is_index (k : Z) : bool :=
  (0 <=? k)%Z && (k <? 4294967295)%Z.

Definition nobj (V : Type) : Type := list (Z * V).

Fixpoint nobj_get {V : Type} (o : nobj V) (k : Z) : option V :=
  match o with
  | [] => None
  | (k', v) :: r => if (k' =? k)%Z then Some v else nobj_get r k
  end.

Fixpoint nobj_replace {V : Type} (o : nobj V) (k : Z) (v : V) : nobj V :=
  match o with
  | [] => []
  | (k', v') :: r =>
      if (k' =? k)%Z then (k', v) :: r else (k', v') :: nobj_replace r k v
  end.

Fixpoint nobj_insert {V : Type} (o : nobj V) (k : Z) (v : V) : nobj V :=
  match o with
  | [] => [(k, v)]
  | (k', v') :: r =>
      if is_index k && (negb (is_index k') || (k <? k')%Z)
      then (k, v) :: (k', v') :: r
      else (k', v') :: nobj_insert r k v
  end.

Definition nobj_set {V : Type} (o : nobj V) (k : Z) (v : V) : nobj V :=
  match nobj_get o k with
  | Some _ => nobj_replace o k v
  | None => nobj_insert o k v
  end.

(** [calculateDistribution]: how often each value occurs. *)
Definition calculateDistribution (values : list Z) : nobj nat :=
  fold_left
    (fun distribution value =>
       nobj_set distribution value
         (match nobj_get distribution value with
          | Some c => c + 1
          | None => 1
          end))
    values [].

Record YearCount : Type := {
  yc_citing : nat;
  yc_cited : nat
}.

Record TemporalPatterns : Type := {
  yearlyData : nobj YearCount;
  avgCitationLag : jsnum;
  citationLagDistribution : nobj nat
}.

(** [if (!yearlyData[y]) yearlyData[y] = { citing: 0, cited: 0 }]. *)
Definition ensure_year (yearlyData : nobj YearCount) (y : Z)
    : nobj YearCount :=
  match nobj_get yearlyData y with
  | Some _ => yearlyData
  | None => nobj_set yearlyData y {| yc_citing := 0; yc_cited := 0 |}
  end.

(** [yearlyData[y].citing++] and [yearlyData[y].cited++]; reading the
    field of a missing entry throws. *)
Definition bump_citing (yearlyData : nobj YearCount) (y : Z)
    : outcome (nobj YearCount) :=
  c <- defined (nobj_get yearlyData y) ;;
  Ok (nobj_set yearlyData y
        {| yc_citing := yc_citing c + 1; yc_cited := yc_cited c |}).

Definition bump_cited (yearlyData : nobj YearCount) (y : Z)
    : outcome (nobj YearCount) :=
  c <- defined (nobj_get yearlyData y) ;;
  Ok (nobj_set yearlyData y
        {| yc_citing := yc_citing c; yc_cited := yc_cited c + 1 |}).

(** The body of the [forEach] over the citation edges in
    [analyzeTemporalPatterns]; the state is
    [(yearlyData, citationLags)]. *)
Definition temporal_step (e : Engine) (st : nobj YearCount * list Z)
    (edge : CitationEdge) : outcome (nobj YearCount * list Z) :=
  let '(yearlyData, citationLags) := st in
  sourcePaper <- defined (obj_get (paperNodes e) (source edge)) ;;
  targetPaper <- defined (obj_get (paperNodes e) (target edge)) ;;
  let sourceYear := getFullYear (publishedDate sourcePaper) in
  let targetYear := getFullYear (publishedDate targetPaper) in
  let yearlyData := ensure_year yearlyData sourceYear in
  let yearlyData := ensure_year yearlyData targetYear in
  yearlyData <- bump_citing yearlyData sourceYear ;;
  yearlyData <- bump_cited yearlyData targetYear ;;
  let lag := (sourceYear - targetYear)%Z in
  if (0 <=? lag)%Z then Ok (yearlyData, citationLags ++ [lag])
  else Ok (yearlyData, citationLags).

Definition Zsum (l : list Z) : Z := fold_left Z.add l 0%Z.

Definition analyzeTemporalPatterns (e : Engine) : outcome TemporalPatterns :=
  st <- ofold (temporal_step e) (obj_values (citationEdges e)) ([], []) ;;
  let '(yearlyData, citationLags) := st in
  let avgCitationLag :=
    jdiv (JFin (inject_Z (Zsum citationLags)))
         (jnat (List.length citationLags)) in
  Ok {| yearlyData := yearlyData;
        avgCitationLag := avgCitationLag;
        citationLagDistribution := calculateDistribution citationLags |}.

Record CrossCitation : Type := {
  cc_from : string;
  cc_to : string;
  cc_sourcePaper : string;
  cc_targetPaper : string
}.

Record CategoricalPatterns : Type := {
  categoryMatrix : obj (obj nat);
  crossDisciplinary : list CrossCitation;
  crossDisciplinaryCount : nat
}.

(** The body of the inner [forEach] over the categories of the cited
    paper; the state is [(categoryMatrix, crossDisciplinary)]. *)
Definition categorical_target (sourcePaper targetPaper : PaperNode)
    (sourceCategory : string)
    (st : obj (obj nat) * list CrossCitation) (targetCategory : string)
    : outcome (obj (obj nat) * list CrossCitation) :=
  let '(categoryMatrix, crossDisciplinary) := st in
  row <- defined (obj_get categoryMatrix sourceCategory) ;;
  let categoryMatrix :=
    obj_set categoryMatrix sourceCategory (tally row targetCategory) in
  if negb (String.eqb sourceCategory targetCategory) then
    Ok (categoryMatrix,
        crossDisciplinary ++
        [{| cc_from := sourceCategory;
            cc_to := targetCategory;
            cc_sourcePaper := id sourcePaper;
            cc_targetPaper := id targetPaper |}])
  else Ok (categoryMatrix, crossDisciplinary).

(** The body of the outer [forEach] over the categories of the citing
    paper. *)
Definition categorical_source (sourcePaper targetPaper : PaperNode)
    (st : obj (obj nat) * list CrossCitation) (sourceCategory : string)
    : outcome (obj (obj nat) * list CrossCitation) :=
  let '(categoryMatrix, crossDisciplinary) := st in
  let categoryMatrix :=
    match obj_get categoryMatrix sourceCategory with
    | Some _ => categoryMatrix
    | None => obj_set categoryMatrix sourceCategory []
    end in
  ofold (categorical_target sourcePaper targetPaper sourceCategory)
    (categories targetPaper) (categoryMatrix, crossDisciplinary).

Definition categorical_step (e : Engine)
    (st : obj (obj nat) * list CrossCitation) (edge : CitationEdge)
    : outcome (obj (obj nat) * list CrossCitation) :=
  sourcePaper <- defined (obj_get (paperNodes e) (source edge)) ;;
  match obj_get (paperNodes e) (target edge) with
  | Some targetPaper =>
      ofold (categorical_source sourcePaper targetPaper)
        (categories sourcePaper) st
  | None =>
      (* [targetPaper.categories] is read inside the outer loop *)
      match categories sourcePaper with
      | [] => Ok st
      | _ :: _ => Throw TypeError
      end
  end.

Definition analyzeCategoricalPatterns (e : Engine)
    : outcome CategoricalPatterns :=
  st <- ofold (categorical_step e) (obj_values (citationEdges e)) ([], []) ;;
  Ok {| categoryMatrix := fst st;
        crossDisciplinary := snd st;
        crossDisciplinaryCount := List.length (snd st) |}.

Record GeographicalPatterns : Type := {
  geo_message : string;
  countryCitations : obj nat;
  internationalCollaborations : nat
}.

Definition analyzeGeographicalPatterns : GeographicalPatterns :=
  {| geo_message :=
       "Geographical analysis requires enhanced author affiliation data";
     countryCitations := [];
     internationalCollaborations := 0 |}.

Record SentimentCount : Type := {
  n_positive : nat;
  n_negative : nat;
  n_neutral : nat
}.

Definition no_sentiment : SentimentCount :=
  {| n_positive := 0; n_negative := 0; n_neutral := 0 |}.

(** [count[sentiment]++]. *)
Definition bump_sentiment (c : SentimentCount) (s : Sentiment)
    : SentimentCount :=
  match s with
  | positive =>
      {| n_positive := n_positive c + 1; n_negative := n_negative c;
         n_neutral := n_neutral c |}
  | negative =>
      {| n_positive := n_positive c; n_negative := n_negative c + 1;
         n_neutral := n_neutral c |}
  | neutral =>
      {| n_positive := n_positive c; n_negative := n_negative c;
         n_neutral := n_neutral c + 1 |}
  end.

Record SentimentPatterns : Type := {
  st_overall : SentimentCount;
  st_byCategory : obj SentimentCount
}.

(** The body of the [forEach] over the categories of the citing paper in
    [analyzeSentimentPatterns]. *)
Definition sentiment_category (s : Sentiment)
    (byCategory : obj SentimentCount) (category : string)
    : outcome (obj SentimentCount) :=
  let byCategory :=
    match obj_get byCategory category with
    | Some _ => byCategory
    | None => obj_set byCategory category no_sentiment
    end in
  c <- defined (obj_get byCategory category) ;;
  Ok (obj_set byCategory category (bump_sentiment c s)).

(** The body of the [forEach] over the citation edges.  The sentiment
    of an edge is one of the three names, so [edge.sentiment ||
    "neutral"] is the sentiment itself. *)
Definition sentiment_step (e : Engine)
    (st : SentimentCount * obj SentimentCount) (edge : CitationEdge)
    : outcome (SentimentCount * obj SentimentCount) :=
  let '(sentimentCount, sentimentByCategory) := st in
  let s := sentiment edge in
  let sentimentCount := bump_sentiment sentimentCount s in
  sourcePaper <- defined (obj_get (paperNodes e) (source edge)) ;;
  byCategory <-
    ofold (sentiment_category s) (categories sourcePaper)
      sentimentByCategory ;;
  Ok (sentimentCount, byCategory).

Definition analyzeSentimentPatterns (e : Engine) : outcome SentimentPatterns :=
  st <- ofold (sentiment_step e) (obj_values (citationEdges e))
          (no_sentiment, []) ;;
  Ok {| st_overall := fst st; st_byCategory := snd st |}.

Record CitationPatterns : Type := {
  temporal : TemporalPatterns;
  categorical : CategoricalPatterns;
  geographical : GeographicalPatterns;
  sentimentPatterns : SentimentPatterns
}.

(** The result is the outcome of the call and the engine it leaves
    behind; the store is only read, by the build of an empty engine. *)
Definition analyzeCitationPatterns (e : Engine) (s : Store)
    : outcome CitationPatterns * Engine :=
  let e :=
    if List.length (Graph.nodes (graph e)) =? 0
    then snd (buildCitationNetwork no_options s) else e in
  (temporal <- analyzeTemporalPatterns e ;;
   categorical <- analyzeCategoricalPatterns e ;;
   let geographical := analyzeGeographicalPatterns in
   sentiment <- analyzeSentimentPatterns e ;;
   Ok {| temporal := temporal;
         categorical := categorical;
         geographical := geographical;
         sentimentPatterns := sentiment |},
   e).

(** ** The handlers of [routes/network.js]

    A handler runs its body in a [try] and answers a caught error with
    status 500 and the message of the error; here a handler returns the
    outcome of its body, [Ok] for the answer with status 200 and
    [Throw] for the answer with status 500.  The engine is the one
    instance that the controller module exports.  A paper id given in a
    request is not the name of a property that every object inherits. *)

(** [Number.parseInt(text) || fallback]: the fallback replaces NaN,
    here [None], and 0. *)
Definition parsed_or (parsed : option Z) (fallback : Z) : Z :=
  match parsed with
  | Some 0%Z | None => fallback
  | Some n => n
  end.

(** [value || 0] for a number read from a table. *)
Definition number_or_zero (o : option jsnum) : jsnum :=
  match o with
  | Some JNaN | None => JFin 0
  | Some v => v
  end.

Definition count_or_zero (o : option nat) : nat :=
  match o with
  | Some n => n
  | None => 0
  end.

Record StatsReply : Type := {
  totalNodes : nat;
  totalEdges : nat;
  avgClustering : jsnum;
  networkDensity : jsnum
}.

(** [GET /stats], from the two document counts of the store. *)
Definition get_stats (s : Store) : StatsReply :=
  let totalPapers := List.length (paper_docs s) in
  let totalCitations := List.length (citation_docs s) in
  let totalNodes := totalPapers in
  let totalEdges := totalCitations in
  let avgClustering := if 0 <? totalPapers then JFin (65 # 100) else JFin 0 in
  let networkDensity :=
    if 1 <? totalPapers then
      jdiv (jnat totalEdges)
           (jmul (jnat totalPapers) (jadd (jnat totalPapers) (JFin (-1))))
    else JFin 0 in
  {| totalNodes := totalNodes;
     totalEdges := totalEdges;
     avgClustering := avgClustering;
     networkDensity := jmin networkDensity (JFin 1) |}.

Record Influence : Type := {
  inf_paperId : string;
  inf_inDegree : nat;
  inf_outDegree : nat;
  inf_authority : jsnum;
  inf_betweenness : jsnum;
  inf_clustering : jsnum
}.

(** [GET /influence/:paperId]. *)
Definition get_influence (paperId : string) (e : Engine) : outcome Influence :=
  metrics <- calculateNetworkMetrics e ;;
  Ok {| inf_paperId := paperId;
        inf_inDegree :=
          count_or_zero (obj_get (c_inDegree (centrality metrics)) paperId);
        inf_outDegree :=
          count_or_zero (obj_get (c_outDegree (centrality metrics)) paperId);
        inf_authority :=
          number_or_zero (obj_get (c_authority (centrality metrics)) paperId);
        inf_betweenness :=
          number_or_zero
            (obj_get (c_betweenness (centrality metrics)) paperId);
        inf_clustering :=
          number_or_zero (obj_get (cl_local (clustering metrics)) paperId) |}.

(** [GET /communities]. *)
Definition get_communities (e : Engine) : outcome CommunityReport :=
  metrics <- calculateNetworkMetrics e ;;
  Ok (communities metrics).

(** [GET /seminal]: the three options are always given to the
    controller, each with its fallback. *)
Definition get_seminal (minCitations minAge topN : option Z)
    (currentYear : Z) (e : Engine) (s : Store)
    : outcome (list SeminalPaper) * Engine * Store :=
  let options :=
    {| so_minCitations := Some (inject_Z (parsed_or minCitations 50));
       so_minAge := Some (parsed_or minAge 2);
       so_topN := Some (parsed_or topN 50) |} in
  identifySeminalPapers options currentYear e s.

Record VisualizationMetadata : Type := {
  vm_nodeCount : nat;
  vm_edgeCount : nat;
  vm_generatedAt : string;
  vm_limited : bool;
  vm_originalNodeCount : nat;
  vm_originalEdgeCount : nat
}.

Record Visualization : Type := {
  vis_nodes : list ExportNode;
  vis_edges : list ExportEdge;
  vis_metadata : VisualizationMetadata
}.

(** What [GET /export] hands to the response: the two headers, when it
    sets them, and the body. *)
Record ExportReply : Type := {
  er_contentType : option string;
  er_contentDisposition : option string;
  er_body : Exported
}.

Section Routes.

Variable toString : Q -> string.

(** [GET /visualization]. *)
Definition get_visualization (maxNodes : option Z) (generatedAt : string)
    (e : Engine) : outcome Visualization :=
  let maxNodes := parsed_or maxNodes 100 in
  exported <- exportNetworkData toString "json" generatedAt e ;;
  match exported with
  | AsText _ => Throw TypeError
  | AsObject networkData =>
      let limitedNodes := slice0 maxNodes (nd_nodes networkData) in
      let nodeIds := Set_of (map en_id limitedNodes) in
      let limitedEdges :=
        filter (fun e => str_in (ee_source e) nodeIds
                         && str_in (ee_target e) nodeIds)
          (nd_edges networkData) in
      Ok {| vis_nodes := limitedNodes;
            vis_edges := limitedEdges;
            vis_metadata :=
              {| vm_nodeCount := md_nodeCount (nd_metadata networkData);
                 vm_edgeCount := md_edgeCount (nd_metadata networkData);
                 vm_generatedAt := md_generatedAt (nd_metadata networkData);
                 vm_limited := true;
                 vm_originalNodeCount := List.length (nd_nodes networkData);
                 vm_originalEdgeCount := List.length (nd_edges networkData)
              |} |}
  end.

(** [GET /export]; [format] is the query parameter, [None] when it is
    not given. *)
Definition get_export (format : option string) (generatedAt : string)
    (e : Engine) : outcome ExportReply :=
  let format :=
    match format with
    | None | Some EmptyString => "json"%string
    | Some f => f
    end in
  networkData <- exportNetworkData toString format generatedAt e ;;
  if String.eqb format "json" then
    Ok {| er_contentType := None;
          er_contentDisposition := None;
          er_body := networkData |}
  else
    Ok {| er_contentType := Some "application/xml"%string;
          er_contentDisposition :=
            Some ("attachment; filename=" +++
                  quoted ("citation_network." +++ format));
          er_body := networkData |}.

End Routes.

(** * Vocabulary of the properties *)

(** Invariants, measures and closed forms used to state and prove the
    properties, and the sample records on which they are tried. *)

(** ** Engines *)

(** What a build establishes: the graph is well formed and every node
    has its paper data, stored under its own id. *)
Definition engine_ok (e : Engine) : Prop :=
  Graph.wf (graph e) /\
  forall n, In n (Graph.nodes (graph e)) ->
            exists p, obj_get (paperNodes e) n = Some p /\ id p = n.

(** ** Sample records *)

(** A date in the given year. *)
Definition year (y : Z) : Date :=
  {| getTime := (y - 1970) * 31556952000; getFullYear := y |}.

(** A paper document with the given id, title, citation count, year of
    publication, categories, keywords and author names. *)
Definition sample_paper (i t : string) (cited : Q) (y : Z)
    (cats kws : list string) (who : list string) : PaperDoc :=
  {| doc_id := i;
     doc_title := t;
     doc_authors :=
       map (fun n => {| name := n; affiliation := "Lab"%string |}) who;
     doc_publishedDate := year y;
     doc_citationCount := cited;
     doc_impactScore := 5;
     doc_categories := cats;
     doc_keywords := kws;
     doc_isSeminal := false |}.

(** A citation of [b] by [a]. *)
Definition sample_citation (a b ctx : string) : CitationDoc :=
  {| citingPaper := a;
     citedPaper := b;
     doc_citationType := direct;
     doc_sentiment := neutral;
     doc_strength := 1 # 2;
     doc_context := ctx |}.

(** Two papers on data structures. *)
Definition paper_a : PaperDoc :=
  sample_paper "a1" "Graphs" 12 2001 ["cs.DS"%string] ["graph"%string]
    ["Ada"%string].

Definition paper_b : PaperDoc :=
  sample_paper "b2" "Trees" 7 2003 ["cs.DS"%string] ["tree"%string]
    ["Bob"%string].

(** Two papers, the first cited twice by the second. *)
Definition store_twice_cited : Store :=
  {| paper_docs := [paper_a; paper_b];
     citation_docs :=
       [sample_citation "b2" "a1" "first mention";
        sample_citation "b2" "a1" "second mention"];
     updateMany_calls := [] |}.

(** A single paper and no citation. *)
Definition store_single : Store :=
  {| paper_docs := [paper_a]; citation_docs := []; updateMany_calls := [] |}.

(** Three papers of one category: the first cites the two others, and
    the second cites the third. *)
Definition store_triangle : Store :=
  {| paper_docs :=
       [sample_paper "p1" "One" 60 2001 ["cs.DS"%string] ["graph"%string]
          ["Ada"%string];
        sample_paper "p2" "Two" 40 2003 ["cs.DS"%string] ["graph"%string]
          ["Ada"%string];
        sample_paper "p3" "Three" 20 2005 ["cs.DS"%string] ["graph"%string]
          ["Ada"%string]];
     citation_docs :=
       [sample_citation "p1" "p2" "builds on";
        sample_citation "p2" "p3" "extends";
        sample_citation "p1" "p3" "uses"];
     updateMany_calls := [] |}.

(** The options of a call without arguments. *)
Definition default_seminal_options : SeminalOptions :=
  {| so_minCitations := None; so_minAge := None; so_topN := None |}.

(** ** Similarity

    The Jaccard index of two attribute lists read as sets: the size of
    the intersection over the size of the union, and 0 when both are
    empty. *)
Definition jaccard (l1 l2 : list string) : Q :=
  let s1 := Set_of l1 in
  let s2 := Set_of l2 in
  let intersection := filter (fun x => str_in x s2) s1 in
  let union := Set_of (l1 ++ l2) in
  if List.length union =? 0 then 0
  else qnat (List.length intersection) / qnat (List.length union).

(** The similarity as the Jaccard-weighted sum. *)
Definition similarity_by_jaccard (p1 p2 : PaperNode) : Q :=
  (4 # 10) * jaccard (categories p1) (categories p2)
  + (3 # 10) * jaccard (keywords p1) (keywords p2)
  + (3 # 10) * jaccard (map name (authors p1)) (map name (authors p2)).

(** The size of the intersection over the size of the larger set. *)
Definition overlap_share (l1 l2 : list string) : Q :=
  qnat (List.length (filter (fun x => str_in x (Set_of l2)) (Set_of l1)))
  / qnat (Nat.max (List.length (Set_of l1)) (List.length (Set_of l2))).

(** Two papers that share one category of two and one keyword of two. *)
Definition paper_x : PaperNode :=
  paper_node
    (sample_paper "x1" "Flows" 12 2001 ["cs.DS"; "math.CO"]%string
       ["graph"; "flow"]%string ["Ada"%string]).

Definition paper_y : PaperNode :=
  paper_node
    (sample_paper "y2" "Cuts" 7 2003 ["cs.DS"; "cs.CC"]%string
       ["graph"; "cut"]%string ["Bob"%string]).

(** Two papers without keywords that agree on everything else. *)
Definition paper_u : PaperNode :=
  paper_node
    (sample_paper "u1" "Notes" 3 2010 ["cs.DS"%string] [] ["Ada"%string]).

Definition paper_v : PaperNode :=
  paper_node
    (sample_paper "v2" "Remarks" 4 2011 ["cs.DS"%string] [] ["Ada"%string]).

(** ** Texts *)

(** [hay.includes(needle)]. *)
Fixpoint occurs (needle hay : string) : bool :=
  String.prefix needle hay ||
  match hay with
  | EmptyString => false
  | String _ rest => occurs needle rest
  end.

(** The texts of a list, one after the other. *)
Definition string_concat (l : list string) : string :=
  fold_right cat EmptyString l.

(** The text of an integer, as a sample of the number conversion. *)
Definition integer_toString (q : Q) : string :=
  NilZero.string_of_int (Z.to_int (Qnum q)).

(** The fixed parts of the two XML texts. *)
Definition gexf_open : string :=
  "<?xml version=" +++ quoted "1.0" +++
  " encoding=" +++ quoted "UTF-8" +++ "?>" +++ nl +++
  "<gexf xmlns=" +++ quoted "http://www.gexf.net/1.2draft" +++
  " version=" +++ quoted "1.2" +++ ">" +++ nl +++
  "<graph mode=" +++ quoted "static" +++
  " defaultedgetype=" +++ quoted "directed" +++ ">" +++ nl +++
  "<nodes>" +++ nl.

Definition gexf_middle : string :=
  "</nodes>" +++ nl +++ "<edges>" +++ nl.

Definition gexf_close : string :=
  "</edges>" +++ nl +++ "</graph>" +++ nl +++ "</gexf>".

Definition graphml_open : string :=
  "<?xml version=" +++ quoted "1.0" +++
  " encoding=" +++ quoted "UTF-8" +++ "?>" +++ nl +++
  "<graphml xmlns=" +++
  quoted "http://graphml.graphdrawing.org/xmlns" +++ ">" +++ nl +++
  "<graph id=" +++ quoted "CitationNetwork" +++
  " edgedefault=" +++ quoted "directed" +++ ">" +++ nl.

Definition graphml_close : string :=
  "</graph>" +++ nl +++ "</graphml>".

(** A paper whose title holds the reserved characters of XML. *)
Definition paper_reserved : PaperDoc :=
  sample_paper "r9" "R&D <in> graphs" 12 2001 ["cs.DS"%string]
    ["graph"%string] ["Ada"%string].

(** A store with that paper, which cites itself. *)
Definition store_reserved : Store :=
  {| paper_docs := [paper_reserved];
     citation_docs := [sample_citation "r9" "r9" "itself"];
     updateMany_calls := [] |}.

(** ** Tables of finite numbers *)

(** The finite number held by a table for a key, and the sum of these
    numbers over a list of keys. *)
Definition qat (t : obj jsnum) (k : string) : Q :=
  match obj_get t k with
  | Some (JFin q) => q
  | _ => 0%Q
  end.

Definition total (t : obj jsnum) (l : list string) : Q :=
  fold_right (fun n acc => (qat t n + acc)%Q) 0%Q l.

(** Every key of the list has a finite number in the table. *)
Definition finite_on (t : obj jsnum) (l : list string) : Prop :=
  forall n, In n l -> exists q, obj_get t n = Some (JFin q).

(** The scores that the nodes with outgoing edges pass on. *)
Definition passed_on (g : Graph.t) (scores : obj jsnum) (l : list string)
    : Q :=
  fold_right
    (fun n acc =>
       ((if 0 <? Graph.outdegree g n then qat scores n else 0) + acc)%Q)
    0%Q l.

(** What an iteration preserves: the scores have exactly the nodes as
    keys and hold finite numbers; the table of new scores is empty, as
    before the first iteration, or has the nodes as keys. *)
Definition authority_inv (g : Graph.t) (st : obj jsnum * obj jsnum) : Prop :=
  obj_keys (fst st) = Graph.nodes g /\
  finite_on (fst st) (Graph.nodes g) /\
  (obj_keys (snd st) = [] \/ obj_keys (snd st) = Graph.nodes g).

(** Two papers that cite each other. *)
Definition two_cycle : Graph.t :=
  Graph.addEdge (Graph.addEdge Graph.empty "a1" "b2") "b2" "a1".

(** ** Traversals *)

(** The number of nodes that are not yet visited. *)
Definition unvisited (nodes visited : list string) : nat :=
  List.length (filter (fun n => negb (str_in n visited)) nodes).

(** What the growth of a group preserves: the group is a duplicate-free
    list of nodes, and so is everything waiting in the queue. *)
Definition group_inv (e : Engine)
    (st : list string * list string * list string) : Prop :=
  let '(visited, community, queue) := st in
  NoDup community /\
  (forall n, In n community -> In n (Graph.nodes (graph e))) /\
  (forall n, In n queue -> In n (Graph.nodes (graph e))).

(** The nodes still to be dequeued or to be visited. *)
Definition pending (e : Engine)
    (st : list string * list string * list string) : nat :=
  let '(visited, community, queue) := st in
  List.length queue + unvisited (Graph.nodes (graph e)) visited.

(** Every entry of the Map has three members or more, all of them
    nodes, none of them twice. *)
Definition entries_inv (e : Engine)
    (communities : list (nat * list string)) : Prop :=
  forall entry, In entry communities ->
    3 <= List.length (snd entry) /\ NoDup (snd entry) /\
    forall n, In n (snd entry) -> In n (Graph.nodes (graph e)).

(** The weight of a path in the queue: what its extensions can still
    cost, when a path is extended by at most [b - 1] neighbors and only
    while it has at most five nodes. *)
Definition path_weight (b : nat) (path : list string) : nat :=
  b ^ (6 - List.length path).

(** The weight of a queue of paths. *)
Definition queue_weight (b : nat) (queue : list (list string)) : nat :=
  fold_right (fun path acc => path_weight b path + acc) 0 queue.

(** Every path is made of nodes. *)
Definition paths_in (g : Graph.t) (paths : list (list string)) : Prop :=
  forall path, In path paths ->
    forall n, In n path -> In n (Graph.nodes g).

(** A table with exactly the given keys, each with a finite number. *)
Definition finite_table (t : obj jsnum) (l : list string) : Prop :=
  obj_keys t = l /\ finite_on t l.

(** ** Ranking *)

(** The candidate record of a paper node. *)
Definition candidate_of (metrics : NetworkMetrics) (p : PaperNode)
    : SeminalPaper :=
  let inDegree := obj_get (c_inDegree (centrality metrics)) (id p) in
  let authority := obj_get (c_authority (centrality metrics)) (id p) in
  let betweenness := obj_get (c_betweenness (centrality metrics)) (id p) in
  {| paper := p;
     seminalScore := seminal_score p inDegree authority betweenness;
     networkMetrics :=
       {| nm_inDegree := inDegree;
          nm_authority := authority;
          nm_betweenness := betweenness |} |}.

(** [x] is ranked before [y]: both scores are finite and the score of
    [y] is at most that of [x]. *)
Definition score_ge (x y : SeminalPaper) : Prop :=
  exists qx qy,
    seminalScore x = JFin qx /\ seminalScore y = JFin qy /\ (qy <= qx)%Q.

(** ** Vocabulary of the further properties *)

(** The citation edges of an engine join nodes of its graph. *)
Definition edges_ok (e : Engine) : Prop :=
  forall ce, In ce (obj_values (citationEdges e)) ->
    In (source ce) (Graph.nodes (graph e)) /\
    In (target ce) (Graph.nodes (graph e)).

(** The number of values counted by a distribution, and their sum. *)
Definition distribution_size (t : list (nat * nat)) : nat :=
  list_sum (map snd t).

Definition distribution_weight (t : list (nat * nat)) : nat :=
  list_sum (map (fun kc => fst kc * snd kc) t).

(** Consecutive nodes of a path are joined by an edge. *)
Fixpoint chain (g : Graph.t) (path : list string) : Prop :=
  match path with
  | a :: (b :: _) as r => In b (Graph.adjacent g a) /\ chain g r
  | _ => True
  end.

(** A path that starts at [source], repeats no node and follows edges. *)
Definition trail (g : Graph.t) (source : string) (path : list string)
    : Prop :=
  hd_error path = Some source /\ NoDup path /\ chain g path /\
  List.length path <= 6.

(** A node that some edge enters and some edge leaves. *)
Definition passable (g : Graph.t) (n : string) : Prop :=
  0 < Graph.indegree g n /\ 0 < Graph.outdegree g n.

(** The counts of the paths: finite, never negative, and zero at a node
    that no path can pass through. *)
Definition between_inv (g : Graph.t) (b : obj jsnum) : Prop :=
  finite_table b (Graph.nodes g) /\
  forall n, In n (Graph.nodes g) ->
    (0 <= qat b n)%Q /\ (~ passable g n -> (qat b n == 0)%Q).

(** No key of the list has a negative number. *)
Definition nonneg_on (t : obj jsnum) (l : list string) : Prop :=
  forall n, In n l -> (0 <= qat t n)%Q.

(** Two nodes joined by an edge, in either direction. *)
Definition linked (g : Graph.t) (x y : string) : Prop :=
  In y (Graph.adjacent g x ++ Graph.adjacentReverse g x).

(** What a traversal adds to the visited set and to the component: the
    same new nodes, each once, none visited before, and with all their
    neighbors visited at the end. *)
Definition grown (g : Graph.t) (before after : list string * list string)
    (added : list string) : Prop :=
  fst after = fst before ++ added /\
  snd after = snd before ++ added /\
  NoDup added /\
  (forall x, In x added -> ~ In x (fst before) /\ In x (Graph.nodes g)) /\
  (forall x y, In x added -> linked g x y -> In y (fst after)).

(** What the loop over the nodes keeps: the visited nodes are those of
    the components found so far, each once; no component is empty, and
    every component holds the neighbors of its nodes. *)
Definition components_inv (g : Graph.t)
    (st : list string * list (list string)) : Prop :=
  fst st = List.concat (snd st) /\
  NoDup (fst st) /\
  (forall x, In x (fst st) -> In x (Graph.nodes g)) /\
  (forall c, In c (snd st) -> c <> []) /\
  (forall c x y, In c (snd st) -> In x c -> linked g x y -> In y c).

(** The body of the loop of [findConnectedComponents] over the nodes. *)
Definition component_step (g : Graph.t)
    (st : list string * list (list string)) (node : string)
    : outcome (list string * list (list string)) :=
  let '(visited, components) := st in
  if negb (str_in node visited) then
    r <- dfs (S (List.length (Graph.nodes g))) g node (visited, []) ;;
    Ok (fst r, components ++ [snd r])
  else Ok st.

(** While a group grows from a set [before] of visited nodes: the
    visited set keeps [before], the members of the group are visited
    and were not in [before], and no member is listed twice. *)
Definition group_fresh (before : list string)
    (st : list string * list string * list string) : Prop :=
  let '(visited, community, queue) := st in
  (forall n, In n before -> In n visited) /\
  (forall n, In n community -> In n visited /\ ~ In n before) /\
  NoDup community.

(** The entries of the Map: every member is visited, no node is a
    member twice, and the keys count up from 0. *)
Definition entries_fresh (st : list string * list (nat * list string))
    : Prop :=
  (forall n, In n (List.concat (map snd (snd st))) -> In n (fst st)) /\
  NoDup (List.concat (map snd (snd st))) /\
  map fst (snd st) = seq 0 (List.length (snd st)).

(** The body of the loop of [detectCommunities] over the nodes. *)
Definition community_step (e : Engine)
    (st : list string * list (nat * list string)) (node : string)
    : outcome (list string * list (nat * list string)) :=
  let '(visited, communities) := st in
  if str_in node visited then Ok st
  else
    grown <- grow_community (2 + List.length (Graph.nodes (graph e))) e
               (set_add visited node, [node], [node]) ;;
    let '(visited, community) := grown in
    if 3 <=? List.length community then
      Ok (visited, communities ++ [(List.length communities, community)])
    else Ok (visited, communities).

(** The sum of a measure over the values of an object. *)
Definition nsum {V : Type} (f : V -> nat) (o : nobj V) : nat :=
  list_sum (map (fun kv => f (snd kv)) o).

(** The sum of a measure over the values of an object. *)
Definition osum {V : Type} (f : V -> nat) (o : obj V) : nat :=
  list_sum (map (fun kv => f (snd kv)) o).

(** The number of citations counted by a category matrix. *)
Definition matrix_total (m : obj (obj nat)) : nat :=
  osum (osum (fun c => c)) m.

(** The number of categories of the paper stored for a node. *)
Definition category_count (e : Engine) (n : string) : nat :=
  match obj_get (paperNodes e) n with
  | Some p => List.length (categories p)
  | None => 0
  end.

(** A cross-disciplinary entry made from a citation edge: two different
    categories, one of the citing and one of the cited paper. *)
Definition cross_of (e : Engine) (c : CrossCitation) : Prop :=
  cc_from c <> cc_to c /\
  exists edge p q,
    In edge (obj_values (citationEdges e)) /\
    obj_get (paperNodes e) (source edge) = Some p /\
    obj_get (paperNodes e) (target edge) = Some q /\
    cc_sourcePaper c = id p /\ cc_targetPaper c = id q /\
    In (cc_from c) (categories p) /\ In (cc_to c) (categories q).

(** The number of citations counted by a sentiment record. *)
Definition sentiment_total (c : SentimentCount) : nat :=
  n_positive c + n_negative c + n_neutral c.

(** The number of edges with a given sentiment. *)
Definition with_sentiment (s : Sentiment) (edges : list CitationEdge) : nat :=
  List.length
    (filter (fun edge =>
               match s, sentiment edge with
               | positive, positive | negative, negative
               | neutral, neutral => true
               | _, _ => false
               end) edges).

(** A document after an update of the flag: the same document, or the
    same with the flag set. *)
Definition flag_kept (p p' : PaperDoc) : Prop :=
  doc_id p' = doc_id p /\
  doc_title p' = doc_title p /\
  doc_authors p' = doc_authors p /\
  doc_publishedDate p' = doc_publishedDate p /\
  doc_citationCount p' = doc_citationCount p /\
  doc_impactScore p' = doc_impactScore p /\
  doc_categories p' = doc_categories p /\
  doc_keywords p' = doc_keywords p /\
  (doc_isSeminal p = true -> doc_isSeminal p' = true).

(** * Properties *)

(** ** Strings, sets and tables *)

Lemma str_in_In (x : string) (l : list string) :
  str_in x l = true <-> In x l.
Proof.
  unfold str_in. rewrite existsb_exists. split.
  - intros [y [Hy Heq]]. apply String.eqb_eq in Heq. now subst.
  - intros H. exists x. split; [assumption | apply String.eqb_refl].
Qed.

Lemma str_in_false (x : string) (l : list string) :
  str_in x l = false <-> ~ In x l.
Proof.
  rewrite <- str_in_In. destruct (str_in x l); split; congruence.
Qed.

Lemma str_in_reflect (x : string) (l : list string) :
  reflect (In x l) (str_in x l).
Proof.
  destruct (str_in x l) eqn:E; constructor.
  - now apply str_in_In.
  - now apply str_in_false.
Qed.

Lemma set_add_In (s : list string) (x y : string) :
  In y (set_add s x) <-> In y s \/ y = x.
Proof.
  unfold set_add. destruct (str_in_reflect x s) as [Hin | Hout].
  - split; [now left | intros [H | ->]; assumption].
  - rewrite in_app_iff. simpl. intuition.
Qed.

Lemma set_add_NoDup (s : list string) (x : string) :
  NoDup s -> NoDup (set_add s x).
Proof.
  intros Hs. unfold set_add. destruct (str_in_reflect x s) as [Hin | Hout].
  - assumption.
  - apply NoDup_app; auto.
    + repeat constructor. intros [].
    + intros y Hy [<- | []]. contradiction.
Qed.

Lemma obj_get_In {V : Type} (o : obj V) (k : string) (v : V) :
  obj_get o k = Some v -> In (k, v) o.
Proof.
  induction o as [| [k' v'] r IH]; simpl; [discriminate |].
  destruct (String.eqb_spec k' k) as [-> | Hne].
  - intros [= ->]. now left.
  - intros H. right. auto.
Qed.

Lemma obj_get_keys {V : Type} (o : obj V) (k : string) :
  In k (obj_keys o) <-> exists v, obj_get o k = Some v.
Proof.
  induction o as [| [k' v'] r IH]; simpl.
  - split; [intros [] | intros [v Hv]; discriminate].
  - destruct (String.eqb_spec k' k) as [-> | Hne].
    + split; [intros _; now exists v' | now left].
    + rewrite <- IH.
      split; [intros [H | H]; [contradiction | assumption] | now right].
Qed.

Lemma obj_get_set_same {V : Type} (o : obj V) (k : string) (v : V) :
  obj_get (obj_set o k v) k = Some v.
Proof.
  induction o as [| [k' v'] r IH]; simpl.
  - now rewrite String.eqb_refl.
  - destruct (String.eqb_spec k' k) as [-> | Hne]; simpl.
    + now rewrite String.eqb_refl.
    + destruct (String.eqb_spec k' k); [contradiction | assumption].
Qed.

Lemma obj_get_set_other {V : Type} (o : obj V) (k k' : string) (v : V) :
  k <> k' -> obj_get (obj_set o k v) k' = obj_get o k'.
Proof.
  intros Hne. induction o as [| [k0 v0] r IH]; simpl.
  - destruct (String.eqb_spec k k'); [contradiction | reflexivity].
  - destruct (String.eqb_spec k0 k) as [-> | Hne0]; simpl.
    + destruct (String.eqb_spec k k'); [contradiction | reflexivity].
    + destruct (String.eqb_spec k0 k'); [reflexivity | assumption].
Qed.

Lemma obj_keys_set_present {V : Type} (o : obj V) (k : string) (v : V) :
  In k (obj_keys o) -> obj_keys (obj_set o k v) = obj_keys o.
Proof.
  induction o as [| [k0 v0] r IH]; simpl; [intros [] |].
  destruct (String.eqb_spec k0 k) as [-> | Hne]; simpl.
  - reflexivity.
  - intros [H | H]; [contradiction | now rewrite IH].
Qed.

Lemma obj_keys_set_absent {V : Type} (o : obj V) (k : string) (v : V) :
  ~ In k (obj_keys o) -> obj_keys (obj_set o k v) = obj_keys o ++ [k].
Proof.
  induction o as [| [k0 v0] r IH]; simpl; [reflexivity |].
  intros Hn. destruct (String.eqb_spec k0 k) as [-> | Hne]; simpl.
  - exfalso. apply Hn. now left.
  - rewrite IH; [reflexivity | intros H; apply Hn; now right].
Qed.

Lemma obj_keys_set {V : Type} (o : obj V) (k : string) (v : V) :
  obj_keys (obj_set o k v) = set_add (obj_keys o) k.
Proof.
  unfold set_add. destruct (str_in_reflect k (obj_keys o)).
  - now apply obj_keys_set_present.
  - now apply obj_keys_set_absent.
Qed.

Lemma Set_of_acc_In (l acc : list string) (x : string) :
  In x (fold_left set_add l acc) <-> In x acc \/ In x l.
Proof.
  revert acc. induction l as [| y r IH]; intros acc; simpl.
  - intuition.
  - rewrite IH, set_add_In. intuition; subst; auto.
Qed.

Lemma Set_of_acc_NoDup (l acc : list string) :
  NoDup acc -> NoDup (fold_left set_add l acc).
Proof.
  revert acc. induction l as [| y r IH]; intros acc H; simpl; auto.
  apply IH. now apply set_add_NoDup.
Qed.

Lemma Set_of_In (l : list string) (x : string) : In x (Set_of l) <-> In x l.
Proof. unfold Set_of. rewrite Set_of_acc_In. simpl. intuition. Qed.

Lemma Set_of_NoDup (l : list string) : NoDup (Set_of l).
Proof. apply Set_of_acc_NoDup. constructor. Qed.

(** A table filled by one assignment per element of a list has the set
    of the list as its keys. *)
Lemma obj_keys_fill {V : Type} (f : string -> V) (l : list string)
    (t : obj V) :
  obj_keys (fold_left (fun t k => obj_set t k (f k)) l t)
  = fold_left set_add l (obj_keys t).
Proof.
  revert t. induction l as [| k r IH]; intros t; simpl; [reflexivity |].
  now rewrite IH, obj_keys_set.
Qed.

Lemma set_add_present (s : list string) (x : string) :
  In x s -> set_add s x = s.
Proof.
  intros H. unfold set_add. now destruct (str_in_reflect x s).
Qed.

Lemma fold_set_add_NoDup (l acc : list string) :
  NoDup (acc ++ l) -> fold_left set_add l acc = acc ++ l.
Proof.
  revert acc. induction l as [| x r IH]; intros acc H; simpl.
  - now rewrite app_nil_r.
  - assert (Hx : ~ In x acc).
    { intros Hin. apply NoDup_remove_2 in H. apply H.
      apply in_or_app. now left. }
    unfold set_add at 2. destruct (str_in_reflect x acc); [contradiction |].
    rewrite IH; rewrite <- app_assoc; auto.
Qed.

Lemma Set_of_NoDup_id (l : list string) : NoDup l -> Set_of l = l.
Proof. intros H. unfold Set_of. now rewrite fold_set_add_NoDup. Qed.

Lemma obj_get_fill_other {V : Type} (f : string -> V) (l : list string)
    (t : obj V) (k : string) :
  ~ In k l ->
  obj_get (fold_left (fun t k => obj_set t k (f k)) l t) k = obj_get t k.
Proof.
  revert t. induction l as [| x r IH]; intros t Hn; simpl; [reflexivity |].
  rewrite IH by (intros H; apply Hn; now right).
  apply obj_get_set_other. intros ->. apply Hn. now left.
Qed.

Lemma obj_get_fill {V : Type} (f : string -> V) (l : list string)
    (t : obj V) (k : string) :
  In k l ->
  obj_get (fold_left (fun t k => obj_set t k (f k)) l t) k = Some (f k).
Proof.
  revert t. induction l as [| x r IH]; intros t; simpl; [intros [] |].
  intros Hin. destruct (in_dec string_dec k r) as [Hr | Hr].
  - now apply IH.
  - destruct Hin as [-> | Hin]; [| contradiction].
    rewrite obj_get_fill_other by assumption. apply obj_get_set_same.
Qed.

(** ** The graph object *)

Lemma addNode_nodes (g : Graph.t) (n : string) :
  Graph.node_ids (Graph.addNode g n) = set_add (Graph.node_ids g) n.
Proof.
  unfold Graph.addNode, Graph.hasNode, set_add.
  now destruct (str_in n (Graph.node_ids g)).
Qed.

Lemma addNode_links (g : Graph.t) (n : string) :
  Graph.links (Graph.addNode g n) = Graph.links g.
Proof.
  unfold Graph.addNode. now destruct (Graph.hasNode g n).
Qed.

Lemma addNode_wf (g : Graph.t) (n : string) :
  Graph.wf g -> Graph.wf (Graph.addNode g n).
Proof.
  intros [Hnd Hends]. split.
  - rewrite addNode_nodes. now apply set_add_NoDup.
  - intros u v. rewrite addNode_links, addNode_nodes, !set_add_In.
    intros H. destruct (Hends u v H). auto.
Qed.

Lemma addEdge_present (g : Graph.t) (u v : string) :
  Graph.hasNode g u = true -> Graph.hasNode g v = true ->
  Graph.addEdge g u v = Graph.mk (Graph.node_ids g) (Graph.links g ++ [(u, v)]).
Proof.
  intros Hu Hv. unfold Graph.addEdge, Graph.addNode.
  rewrite Hu. rewrite Hv. reflexivity.
Qed.

Lemma addEdge_wf (g : Graph.t) (u v : string) :
  Graph.wf g -> Graph.wf (Graph.addEdge g u v).
Proof.
  intros Hwf.
  assert (H2 : Graph.wf (Graph.addNode (Graph.addNode g u) v))
    by now apply addNode_wf, addNode_wf.
  destruct H2 as [Hnd Hends]. unfold Graph.addEdge. split; simpl.
  - assumption.
  - intros a b Hin. apply in_app_or in Hin. destruct Hin as [Hin | [Heq | []]].
    + now apply Hends.
    + injection Heq as <- <-. rewrite !addNode_nodes, !set_add_In. auto.
Qed.

Lemma empty_wf : Graph.wf Graph.empty.
Proof. split; simpl; [constructor | intros u v []]. Qed.

Lemma adjacent_In (g : Graph.t) (u v : string) :
  In v (Graph.adjacent g u) <-> In (u, v) (Graph.links g).
Proof.
  unfold Graph.adjacent. rewrite in_map_iff. split.
  - intros [[a b] [Hb Hin]]. apply filter_In in Hin. simpl in *.
    destruct Hin as [Hin Ha]. apply String.eqb_eq in Ha. now subst.
  - intros Hin. exists (u, v). split; [reflexivity |].
    apply filter_In. split; [assumption | apply String.eqb_refl].
Qed.

Lemma adjacent_nodes (g : Graph.t) (u v : string) :
  Graph.wf g -> In v (Graph.adjacent g u) -> In v (Graph.nodes g).
Proof.
  intros [_ Hends] Hin. apply adjacent_In in Hin. now apply Hends in Hin.
Qed.

Lemma adjacentReverse_In (g : Graph.t) (u v : string) :
  In u (Graph.adjacentReverse g v) <-> In (u, v) (Graph.links g).
Proof.
  unfold Graph.adjacentReverse. rewrite in_map_iff. split.
  - intros [[a b] [Hb Hin]]. apply filter_In in Hin. simpl in *.
    destruct Hin as [Hin Ha]. apply String.eqb_eq in Ha. now subst.
  - intros Hin. exists (u, v). split; [reflexivity |].
    apply filter_In. split; [assumption | apply String.eqb_refl].
Qed.

(** ** The builder *)

Lemma add_paper_ok (e : Engine) (paper : PaperDoc) :
  engine_ok e -> engine_ok (add_paper e paper).
Proof.
  intros [Hwf Hp]. split; simpl.
  - now apply addNode_wf.
  - intros n. unfold Graph.nodes. rewrite addNode_nodes, set_add_In.
    destruct (string_dec n (doc_id paper)) as [-> | Hne].
    + intros _. rewrite obj_get_set_same. eexists. split; reflexivity.
    + intros [Hin | Heq]; [| contradiction].
      rewrite obj_get_set_other by congruence. now apply Hp.
Qed.

Lemma add_citation_ok (e : Engine) (citation : CitationDoc) :
  engine_ok e -> engine_ok (add_citation e citation).
Proof.
  intros [Hwf Hp]. unfold add_citation.
  destruct (Graph.hasNode (graph e) (citingPaper citation)) eqn:Hs; simpl;
    [| now split].
  destruct (Graph.hasNode (graph e) (citedPaper citation)) eqn:Ht; simpl;
    [| now split].
  split.
  - simpl. now apply addEdge_wf.
  - cbn [graph paperNodes]. rewrite addEdge_present by assumption. exact Hp.
Qed.

Lemma fold_invariant {A S : Type} (P : S -> Prop) (f : S -> A -> S)
    (l : list A) (s : S) :
  (forall s a, P s -> P (f s a)) -> P s -> P (fold_left f l s).
Proof.
  intros Hf. revert s. induction l as [| a r IH]; intros s Hs; simpl; auto.
Qed.

Lemma build_from_ok (papers : list PaperDoc) (citations : list CitationDoc) :
  engine_ok (build_from papers citations).
Proof.
  unfold build_from.
  apply fold_invariant; [intros; now apply add_citation_ok |].
  apply fold_invariant; [intros; now apply add_paper_ok |].
  split; [apply empty_wf | intros n []].
Qed.

Lemma buildCitationNetwork_ok (options : BuildOptions) (s : Store) :
  engine_ok (snd (buildCitationNetwork options s)).
Proof. apply build_from_ok. Qed.

(** ** Sums and tables over the nodes *)

Lemma fold_add_shift (l : list nat) (a : nat) :
  fold_left Nat.add l a = a + fold_left Nat.add l 0.
Proof.
  revert a. induction l as [| x r IH]; intros a; simpl; [lia |].
  rewrite (IH (a + x)), (IH x). lia.
Qed.

Lemma nat_sum_cons (x : nat) (l : list nat) :
  nat_sum (x :: l) = x + nat_sum l.
Proof. unfold nat_sum. simpl. apply fold_add_shift. Qed.

Lemma nat_sum_map_add {A : Type} (f h : A -> nat) (l : list A) :
  nat_sum (map (fun a => f a + h a) l)
  = nat_sum (map f l) + nat_sum (map h l).
Proof.
  induction l as [| a r IH]; simpl; [reflexivity |].
  rewrite !nat_sum_cons, IH. lia.
Qed.

Lemma nat_sum_map_zero {A : Type} (f : A -> nat) (l : list A) :
  (forall a, In a l -> f a = 0) -> nat_sum (map f l) = 0.
Proof.
  induction l as [| a r IH]; intros H; simpl; [reflexivity |].
  rewrite nat_sum_cons, H, IH; auto with datatypes.
Qed.

(** Over a duplicate-free list, exactly one element is equal to a given
    member. *)
Lemma nat_sum_indicator (k : string) (l : list string) :
  NoDup l -> In k l ->
  nat_sum (map (fun n => if String.eqb k n then 1 else 0) l) = 1.
Proof.
  induction 1 as [| x r Hx Hnd IH]; intros Hin; [destruct Hin |].
  simpl. rewrite nat_sum_cons.
  destruct (String.eqb_spec k x) as [-> | Hne].
  - rewrite nat_sum_map_zero; [reflexivity |].
    intros a Ha. destruct (String.eqb_spec x a); [now subst | reflexivity].
  - destruct Hin as [-> | Hin]; [contradiction |]. now rewrite IH.
Qed.

(** Counting, node by node, the pairs whose component [proj] is the
    node counts every pair once. *)
Lemma count_by_node {A : Type} (proj : A -> string) (l : list A)
    (nodes : list string) :
  NoDup nodes -> (forall a, In a l -> In (proj a) nodes) ->
  nat_sum
    (map (fun n => List.length (filter (fun a => String.eqb (proj a) n) l))
         nodes)
  = List.length l.
Proof.
  intros Hnd. induction l as [| a r IH]; intros Hin; simpl.
  - apply nat_sum_map_zero. reflexivity.
  - transitivity
      (nat_sum
         (map (fun n =>
                 (if String.eqb (proj a) n then 1 else 0)
                 + List.length (filter (fun a => String.eqb (proj a) n) r))
              nodes)).
    + f_equal. apply map_ext. intros n.
      now destruct (String.eqb (proj a) n).
    + rewrite nat_sum_map_add, nat_sum_indicator, IH; auto with datatypes.
Qed.

Lemma indegree_sum (g : Graph.t) :
  Graph.wf g ->
  nat_sum (map (Graph.indegree g) (Graph.nodes g))
  = List.length (Graph.edges g).
Proof.
  intros [Hnd Hends].
  unfold Graph.indegree, Graph.adjacentReverse, Graph.edges, Graph.nodes.
  rewrite <- (count_by_node snd (Graph.links g) (Graph.node_ids g) Hnd).
  - f_equal. apply map_ext. intros n. apply length_map.
  - intros [u v] H. now apply Hends in H.
Qed.

Lemma outdegree_sum (g : Graph.t) :
  Graph.wf g ->
  nat_sum (map (Graph.outdegree g) (Graph.nodes g))
  = List.length (Graph.edges g).
Proof.
  intros [Hnd Hends].
  unfold Graph.outdegree, Graph.adjacent, Graph.edges, Graph.nodes.
  rewrite <- (count_by_node fst (Graph.links g) (Graph.node_ids g) Hnd).
  - f_equal. apply map_ext. intros n. apply length_map.
  - intros [u v] H. now apply Hends in H.
Qed.

Lemma obj_set_absent {V : Type} (o : obj V) (k : string) (v : V) :
  ~ In k (obj_keys o) -> obj_set o k v = o ++ [(k, v)].
Proof.
  induction o as [| [k0 v0] r IH]; simpl; [reflexivity |].
  intros Hn. destruct (String.eqb_spec k0 k) as [-> | Hne].
  - exfalso. apply Hn. now left.
  - rewrite IH; [reflexivity | intros H; apply Hn; now right].
Qed.

(** Filling a table from a duplicate-free list of fresh keys appends one
    entry per key, in order. *)
Lemma fill_fresh {V : Type} (f : string -> V) (l : list string) (t : obj V) :
  NoDup (obj_keys t ++ l) ->
  fold_left (fun t k => obj_set t k (f k)) l t
  = t ++ map (fun k => (k, f k)) l.
Proof.
  revert t. induction l as [| k r IH]; intros t H; simpl.
  - now rewrite app_nil_r.
  - assert (Hk : ~ In k (obj_keys t)).
    { intros Hin. apply NoDup_remove_2 in H. apply H.
      apply in_or_app. now left. }
    rewrite obj_set_absent by assumption.
    rewrite IH.
    + now rewrite <- app_assoc.
    + unfold obj_keys in *. rewrite map_app. simpl.
      now rewrite <- app_assoc.
Qed.

Lemma fill_nodes {V : Type} (f : string -> V) (l : list string) :
  NoDup l ->
  fold_left (fun t k => obj_set t k (f k)) l [] = map (fun k => (k, f k)) l.
Proof. intros H. now rewrite fill_fresh. Qed.

Lemma fill_nodes_values {V : Type} (f : string -> V) (l : list string) :
  NoDup l ->
  obj_values (fold_left (fun t k => obj_set t k (f k)) l []) = map f l.
Proof.
  intros H. rewrite fill_nodes by assumption.
  unfold obj_values. rewrite map_map. reflexivity.
Qed.

Lemma centrality_tables (e : Engine) (c : CentralityMetrics) :
  calculateCentralityMetrics e = Ok c ->
  c_inDegree c = inDegree_table (graph e) /\
  c_outDegree c = outDegree_table (graph e) /\
  c_authority c = calculateAuthorityScore (graph e).
Proof.
  unfold calculateCentralityMetrics.
  destruct (calculateBetweennessCentrality (graph e)); simpl;
    [| discriminate | discriminate].
  intros [= <-]. simpl. auto.
Qed.

(** C3. In the graph of every build, the in-degrees of the nodes and
    their out-degrees both add up to the edge count that the basic
    metrics report; this holds for the degree lists averaged by
    [calculateBasicMetrics] and for the two degree tables of
    [calculateCentralityMetrics]. *)
Theorem degree_sums_equal_edge_count (options : BuildOptions) (s : Store) :
  let e := snd (buildCitationNetwork options s) in
  let g := graph e in
  let m := calculateBasicMetrics e in
  nat_sum (map (Graph.indegree g) (Graph.nodes g)) = edgeCount m /\
  nat_sum (map (Graph.outdegree g) (Graph.nodes g)) = edgeCount m /\
  nat_sum (obj_values (inDegree_table g)) = edgeCount m /\
  nat_sum (obj_values (outDegree_table g)) = edgeCount m.
Proof.
  intros e g m.
  destruct (buildCitationNetwork_ok options s) as [Hwf _].
  fold e in Hwf. fold g in Hwf.
  assert (Hnd : NoDup (Graph.nodes g)) by apply Hwf.
  unfold inDegree_table, outDegree_table.
  rewrite !fill_nodes_values by assumption.
  change (edgeCount m) with (List.length (Graph.edges g)).
  rewrite indegree_sum, outdegree_sum by assumption. auto.
Qed.

(** ** Clustering *)

Lemma count_pairs_bound (p : string -> string -> bool) (l : list string) :
  2 * count_pairs p l <= List.length l * (List.length l - 1).
Proof.
  induction l as [| x r IH]; simpl; [lia |].
  pose proof (filter_length_le (p x) r) as Hf.
  rewrite Nat.sub_0_r. nia.
Qed.

Lemma jnat_nonneg (n : nat) : (0 <= qnat n)%Q.
Proof.
  unfold qnat. change 0%Q with (inject_Z 0). rewrite <- Zle_Qle. lia.
Qed.

Lemma qnat_le (a b : nat) : a <= b -> (qnat a <= qnat b)%Q.
Proof. intros H. unfold qnat. rewrite <- Zle_Qle. lia. Qed.

Lemma qnat_pos (n : nat) : 0 < n -> (0 < qnat n)%Q.
Proof.
  intros H. unfold qnat. change 0%Q with (inject_Z 0). rewrite <- Zlt_Qlt. lia.
Qed.

Lemma qnat_mul (a b : nat) : (qnat (a * b) == qnat a * qnat b)%Q.
Proof. unfold qnat. rewrite Nat2Z.inj_mul, inject_Z_mult. reflexivity. Qed.

Lemma Qzero_false (q : Q) : ~ (q == 0)%Q -> Qzero q = false.
Proof.
  intros H. unfold Qzero. destruct (Qeq_bool q 0) eqn:E; [| reflexivity].
  apply Qeq_bool_iff in E. contradiction.
Qed.

Lemma Qzero_true (q : Q) : (q == 0)%Q -> Qzero q = true.
Proof. intros H. unfold Qzero. now apply Qeq_bool_iff. Qed.

(** The quotient of two counts with a positive divisor is a finite
    number. *)
Lemma jdiv_counts (a b : nat) :
  0 < b -> jdiv (jnat a) (jnat b) = JFin (qnat a / qnat b).
Proof.
  intros Hb. unfold jdiv, jnat. fold (qnat a). fold (qnat b).
  rewrite Qzero_false; [reflexivity |].
  pose proof (qnat_pos b Hb). intros E. rewrite E in H.
  now apply Qlt_irrefl in H.
Qed.

(** The coefficient of a node is a number between 0 and 1, and 0 when
    the node has fewer than two outgoing neighbors. *)
Lemma local_clustering_range (g : Graph.t) (node : string) :
  exists q, local_clustering g node = JFin q /\ (0 <= q)%Q /\ (q <= 1)%Q /\
            (List.length (Graph.adjacent g node) < 2 ->
             local_clustering g node = JFin 0).
Proof.
  unfold local_clustering.
  set (neighbors := Graph.adjacent g node).
  set (k := List.length neighbors).
  set (t := count_pairs _ neighbors).
  destruct (Nat.ltb_spec k 2) as [Hlt | Hge].
  - exists 0%Q. repeat split; try reflexivity; discriminate.
  - assert (Hk : 0 < k * (k - 1)) by nia.
    pose proof (qnat_pos _ Hk) as Hpos.
    assert (Hp : jdiv (jnat (k * (k - 1))) (JFin 2)
                 = JFin (qnat (k * (k - 1)) / 2)) by reflexivity.
    rewrite Hp.
    assert (Hnz : ~ (qnat (k * (k - 1)) / 2 == 0)%Q).
    { intros E. assert (0 < qnat (k * (k - 1)) / 2)%Q.
      { apply Qlt_shift_div_l; [reflexivity | now rewrite Qmult_0_l]. }
      rewrite E in H. now apply Qlt_irrefl in H. }
    unfold jdiv at 1. unfold jnat at 1. fold (qnat t).
    rewrite (Qzero_false _ Hnz).
    exists (qnat t / (qnat (k * (k - 1)) / 2))%Q.
    assert (Hhalf : (0 < qnat (k * (k - 1)) / 2)%Q).
    { apply Qlt_shift_div_l; [reflexivity | now rewrite Qmult_0_l]. }
    pose proof (count_pairs_bound
                  (fun a b => Graph.hasEdge g a b || Graph.hasEdge g b a)
                  neighbors) as Hb.
    fold t in Hb. fold k in Hb.
    assert (Hq : (qnat t * 2 <= qnat (k * (k - 1)))%Q).
    { change 2%Q with (qnat 2). rewrite <- qnat_mul. apply qnat_le. lia. }
    repeat split.
    + apply Qle_shift_div_l; [assumption |]. rewrite Qmult_0_l.
      apply jnat_nonneg.
    + apply Qle_shift_div_r; [assumption |]. rewrite Qmult_1_l.
      apply Qle_shift_div_l; [reflexivity | assumption].
    + intros Hc. lia.
Qed.

Lemma jsum_shift (l : list Q) (a : Q) :
  exists s, fold_left jadd (map JFin l) (JFin a) = JFin s /\
            (s == a + Qsum l)%Q.
Proof.
  unfold Qsum. revert a. induction l as [| x r IH]; intros a; simpl.
  - exists a. split; [reflexivity | ring].
  - destruct (IH (a + x)%Q) as [s [Hs Hs']].
    destruct (IH (0 + x)%Q) as [s0 [Hs0 Hs0']].
    exists s. split; [assumption |].
    assert (Hx : forall (l : list Q) (b c : Q), (b == c)%Q ->
               (fold_left Qplus l b == fold_left Qplus l c)%Q).
    { clear. induction l as [| y r IH]; intros b c H; simpl; [assumption |].
      apply IH. now rewrite H. }
    clear Hs0 Hs0' s0.
    rewrite Hs'. clear Hs Hs' s.
    assert (Hshift : forall (l : list Q) (b : Q),
               (fold_left Qplus l b == b + fold_left Qplus l 0)%Q).
    { clear. induction l as [| y r IH]; intros b; simpl; [ring |].
      rewrite (IH (b + y)%Q), (IH (0 + y)%Q). ring. }
    rewrite (Hshift r (0 + x)%Q). ring.
Qed.

Lemma jsum_finite (l : list Q) :
  exists s, jsum (map JFin l) = JFin s /\ (s == Qsum l)%Q.
Proof.
  destruct (jsum_shift l 0) as [s [Hs Hs']].
  exists s. split; [assumption | rewrite Hs'; ring].
Qed.

Lemma jdiv_jeq (a b : Q) (d : jsnum) :
  (a == b)%Q -> jeq (jdiv (JFin a) d) (jdiv (JFin b) d).
Proof.
  intros H. destruct d as [y | | |]; simpl; try reflexivity.
  unfold Qzero, Qpos.
  destruct (Qeq_bool y 0) eqn:Ey.
  - assert (Ea : Qeq_bool a 0 = Qeq_bool b 0).
    { destruct (Qeq_bool a 0) eqn:E1, (Qeq_bool b 0) eqn:E2; try reflexivity.
      - apply Qeq_bool_iff in E1. rewrite H in E1.
        apply Qeq_bool_iff in E1. congruence.
      - apply Qeq_bool_iff in E2. rewrite <- H in E2.
        apply Qeq_bool_iff in E2. congruence. }
    assert (El : Qle_bool a 0 = Qle_bool b 0).
    { destruct (Qle_bool a 0) eqn:E1, (Qle_bool b 0) eqn:E2; try reflexivity.
      - apply Qle_bool_iff in E1. rewrite H in E1.
        apply Qle_bool_iff in E1. congruence.
      - apply Qle_bool_iff in E2. rewrite <- H in E2.
        apply Qle_bool_iff in E2. congruence. }
    rewrite Ea, El. destruct (Qeq_bool b 0), (Qle_bool b 0); simpl; exact I.
  - simpl. now rewrite H.
Qed.


(** ** What a build stores *)

Lemma add_paper_nodes (papers : list PaperDoc) (e : Engine) :
  Graph.node_ids (graph (fold_left add_paper papers e))
  = fold_left set_add (map doc_id papers) (Graph.node_ids (graph e)).
Proof.
  revert e. induction papers as [| p r IH]; intros e; simpl; [reflexivity |].
  rewrite IH. simpl. now rewrite addNode_nodes.
Qed.

Lemma add_paper_links (papers : list PaperDoc) (e : Engine) :
  Graph.links (graph (fold_left add_paper papers e)) = Graph.links (graph e).
Proof.
  revert e. induction papers as [| p r IH]; intros e; simpl; [reflexivity |].
  rewrite IH. simpl. apply addNode_links.
Qed.

Lemma add_paper_citationEdges (papers : list PaperDoc) (e : Engine) :
  citationEdges (fold_left add_paper papers e) = citationEdges e.
Proof.
  revert e. induction papers as [| p r IH]; intros e; simpl; [reflexivity |].
  now rewrite IH.
Qed.

(** A citation between two nodes adds one edge and one assignment to
    the table, and leaves the nodes as they are. *)
Lemma add_citation_accepted (e : Engine) (c : CitationDoc) :
  In (citingPaper c) (Graph.node_ids (graph e)) ->
  In (citedPaper c) (Graph.node_ids (graph e)) ->
  add_citation e c
  = {| graph :=
         Graph.mk (Graph.node_ids (graph e))
           (Graph.links (graph e) ++ [(citingPaper c, citedPaper c)]);
       paperNodes := paperNodes e;
       citationEdges :=
         obj_set (citationEdges e) (citation_key c) (citation_edge c) |}.
Proof.
  intros Hs Ht. apply str_in_In in Hs, Ht. unfold add_citation.
  unfold Graph.hasNode at 1 2. rewrite Hs, Ht. simpl.
  now rewrite addEdge_present.
Qed.

Lemma add_citations_accepted (cs : list CitationDoc) (e : Engine) :
  (forall c, In c cs ->
     In (citingPaper c) (Graph.node_ids (graph e)) /\
     In (citedPaper c) (Graph.node_ids (graph e))) ->
  let e' := fold_left add_citation cs e in
  Graph.node_ids (graph e') = Graph.node_ids (graph e) /\
  Graph.links (graph e')
  = Graph.links (graph e) ++ map (fun c => (citingPaper c, citedPaper c)) cs /\
  citationEdges e'
  = fold_left (fun t c => obj_set t (citation_key c) (citation_edge c))
      cs (citationEdges e).
Proof.
  revert e. induction cs as [| c r IH]; intros e H; simpl.
  - rewrite app_nil_r. auto.
  - destruct (H c (or_introl eq_refl)) as [Hs Ht].
    rewrite add_citation_accepted by assumption.
    specialize (IH {| graph :=
                        Graph.mk (Graph.node_ids (graph e))
                          (Graph.links (graph e)
                           ++ [(citingPaper c, citedPaper c)]);
                      paperNodes := paperNodes e;
                      citationEdges :=
                        obj_set (citationEdges e) (citation_key c)
                          (citation_edge c) |}).
    simpl in IH. destruct IH as [Hn [Hl Hc]].
    + intros c' Hc'. apply H. now right.
    + rewrite Hn, Hl, Hc, <- app_assoc. auto.
Qed.

Lemma Citation_find_accepted (s : Store) (ids : list string) (c : CitationDoc) :
  In c (Citation_find s ids) -> In (citingPaper c) ids /\ In (citedPaper c) ids.
Proof.
  unfold Citation_find. rewrite filter_In, andb_true_iff, !str_in_In. tauto.
Qed.

(** The graph and the edge table of a build, in terms of the records
    that the two queries returned. *)
Lemma build_contents (options : BuildOptions) (s : Store) :
  let papers :=
    Paper_find s (paper_filter options)
      (or_default (opt_maxNodes options) default_maxNodes) in
  let citations := Citation_find s (map doc_id papers) in
  let e := snd (buildCitationNetwork options s) in
  Graph.nodes (graph e) = Set_of (map doc_id papers) /\
  Graph.edges (graph e)
  = map (fun c => (citingPaper c, citedPaper c)) citations /\
  citationEdges e
  = fold_left (fun t c => obj_set t (citation_key c) (citation_edge c))
      citations [].
Proof.
  intros papers citations e. unfold e, buildCitationNetwork. simpl.
  fold papers. fold citations. unfold build_from.
  pose proof (add_citations_accepted citations
                (fold_left add_paper papers new_engine)) as H.
  rewrite add_paper_nodes, add_paper_links, add_paper_citationEdges in H.
  simpl in H. unfold Graph.nodes, Graph.edges.
  apply H. intros c Hc. apply Citation_find_accepted in Hc.
  rewrite !Set_of_acc_In. tauto.
Qed.

Lemma length_filter_map {A B : Type} (f : A -> B) (p : B -> bool)
    (l : list A) :
  List.length (filter p (map f l))
  = List.length (filter (fun a => p (f a)) l).
Proof.
  induction l as [| a r IH]; simpl; [reflexivity |].
  destruct (p (f a)); simpl; now rewrite IH.
Qed.

Lemma Set_of_acc_length (l acc : list string) :
  List.length (fold_left set_add l acc) <= List.length acc + List.length l.
Proof.
  revert acc. induction l as [| x r IH]; intros acc; simpl; [lia |].
  specialize (IH (set_add acc x)). unfold set_add in *.
  destruct (str_in x acc); [lia |]. rewrite length_app in IH. simpl in IH. lia.
Qed.

Lemma edge_table_keys (cs : list CitationDoc) (t : obj CitationEdge) :
  obj_keys
    (fold_left (fun t c => obj_set t (citation_key c) (citation_edge c)) cs t)
  = fold_left set_add (map citation_key cs) (obj_keys t).
Proof.
  revert t. induction cs as [| c r IH]; intros t; simpl; [reflexivity |].
  now rewrite IH, obj_keys_set.
Qed.

(** The last citation stored under a key is the one the table holds. *)
Lemma edge_table_last (before after : list CitationDoc) (c : CitationDoc)
    (t : obj CitationEdge) :
  (forall c', In c' after -> citation_key c' <> citation_key c) ->
  obj_get
    (fold_left (fun t c => obj_set t (citation_key c) (citation_edge c))
       (before ++ c :: after) t)
    (citation_key c)
  = Some (citation_edge c).
Proof.
  intros Hafter. rewrite fold_left_app. simpl.
  set (t1 := fold_left _ before t). clearbody t1.
  set (t2 := obj_set t1 (citation_key c) (citation_edge c)).
  assert (H2 : obj_get t2 (citation_key c) = Some (citation_edge c))
    by apply obj_get_set_same.
  clearbody t2. revert t2 H2.
  induction after as [| d r IH]; intros t2 H2; simpl; [assumption |].
  apply IH.
  - intros c' Hc'. apply Hafter. now right.
  - rewrite obj_get_set_other; [assumption |]. apply Hafter. now left.
Qed.

(** ** Duplicate citations *)

(** C2, as stated, fails: two citation records between the same ordered
    pair give two edges in the graph, counted twice by the edge count
    and by the degrees, but a single CitationEdge, the later one, in
    the edge table and in the citations of the result. *)
Lemma duplicate_citations_share_one_entry :
  let r := fst (buildCitationNetwork no_options store_twice_cited) in
  let e := snd (buildCitationNetwork no_options store_twice_cited) in
  bs_edges r = 2 /\
  Graph.outdegree (graph e) "b2" = 2 /\
  Graph.indegree (graph e) "a1" = 2 /\
  bs_citations r
  = [citation_edge (sample_citation "b2" "a1" "second mention")].
Proof. vm_compute. repeat split. Qed.

(** C2, amended. The graph of a build has one edge per citation record
    between selected papers, in the order of the records, so parallel
    edges are each counted by the edge count and by both degrees; the
    edge table is keyed by the ordered pair, so it holds one
    CitationEdge per pair, that of the last record of the pair, and the
    citations of the result are at most as many as the edges. *)
Theorem build_keeps_edges_and_merges_attributes
    (options : BuildOptions) (s : Store) :
  let papers :=
    Paper_find s (paper_filter options)
      (or_default (opt_maxNodes options) default_maxNodes) in
  let citations := Citation_find s (map doc_id papers) in
  let r := fst (buildCitationNetwork options s) in
  let e := snd (buildCitationNetwork options s) in
  Graph.edges (graph e)
  = map (fun c => (citingPaper c, citedPaper c)) citations /\
  bs_edges r = List.length citations /\
  (forall n,
     Graph.outdegree (graph e) n
     = List.length (filter (fun c => String.eqb (citingPaper c) n) citations)
     /\
     Graph.indegree (graph e) n
     = List.length (filter (fun c => String.eqb (citedPaper c) n) citations))
  /\
  NoDup (obj_keys (citationEdges e)) /\
  (forall before c after,
     citations = before ++ c :: after ->
     (forall c', In c' after -> citation_key c' <> citation_key c) ->
     obj_get (citationEdges e) (citation_key c) = Some (citation_edge c)) /\
  List.length (bs_citations r) <= bs_edges r.
Proof.
  intros papers citations r e.
  destruct (build_contents options s) as [Hn [He Hc]].
  fold papers in Hn, He, Hc. fold citations in He, Hc. fold e in Hn, He, Hc.
  assert (Hr : bs_edges r = List.length citations).
  { change (bs_edges r) with (List.length (Graph.edges (graph e))).
    now rewrite He, length_map. }
  split; [assumption |]. split; [assumption |]. split; [| split; [| split]].
  - intros n. unfold Graph.outdegree, Graph.indegree, Graph.adjacent,
      Graph.adjacentReverse.
    change (Graph.links (graph e)) with (Graph.edges (graph e)).
    rewrite He, !length_map.
    rewrite (length_filter_map
               (fun c => (citingPaper c, citedPaper c))
               (fun p => String.eqb (fst p) n)).
    rewrite (length_filter_map
               (fun c => (citingPaper c, citedPaper c))
               (fun p => String.eqb (snd p) n)).
    split; reflexivity.
  - rewrite Hc, edge_table_keys. apply Set_of_acc_NoDup. constructor.
  - intros before c after Hsplit Hlast. rewrite Hc, Hsplit.
    now apply edge_table_last.
  - rewrite Hr.
    change (bs_citations r) with (obj_values (citationEdges e)).
    unfold obj_values. rewrite length_map.
    rewrite <- (length_map fst). fold (obj_keys (citationEdges e)).
    rewrite Hc, edge_table_keys.
    pose proof (Set_of_acc_length (map citation_key citations) []) as Hl.
    simpl in Hl. now rewrite length_map in Hl.
Qed.

(** ** Operations on an empty graph *)

Lemma wf_no_nodes (g : Graph.t) :
  Graph.wf g -> Graph.nodes g = [] -> Graph.edges g = [].
Proof.
  intros [_ Hends] Hn. unfold Graph.nodes in Hn. unfold Graph.edges.
  destruct (Graph.links g) as [| [u v] r]; [reflexivity |].
  destruct (Hends u v (or_introl eq_refl)) as [Hu _].
  rewrite Hn in Hu. destruct Hu.
Qed.

(** C1, as stated, fails for the export: on the engine as constructed,
    whose graph has no node, [exportNetworkData] returns the empty
    network data and throws nothing. *)
Lemma export_of_empty_graph_returns :
  let r :=
    exportNetworkData (fun _ => EmptyString) "json"
      "2024-01-01T00:00:00.000Z" new_engine in
  Graph.nodes (graph new_engine) = [] /\
  r = Ok (AsObject
            {| nd_nodes := [];
               nd_edges := [];
               nd_metadata :=
                 {| md_nodeCount := 0;
                    md_edgeCount := 0;
                    md_generatedAt := "2024-01-01T00:00:00.000Z" |} |}) /\
  r <> Throw not_built.
Proof. vm_compute. repeat split. discriminate. Qed.

(** C1, amended. On a graph without nodes [calculateNetworkMetrics],
    which is what computes the components and the communities, throws
    the error that asks for a build; [exportNetworkData] does not fail
    in any format, and its [json] form is the empty node and edge lists
    with both counts 0. *)
Theorem empty_graph_metrics_fail_export_returns (e : Engine)
    (Hwf : Graph.wf (graph e)) (Hempty : Graph.nodes (graph e) = []) :
  calculateNetworkMetrics e = Throw not_built /\
  forall (toString : Q -> string) (generatedAt : string),
    exportNetworkData toString "json" generatedAt e
    = Ok (AsObject
            {| nd_nodes := [];
               nd_edges := [];
               nd_metadata :=
                 {| md_nodeCount := 0;
                    md_edgeCount := 0;
                    md_generatedAt := generatedAt |} |}) /\
    forall format, exists x,
      exportNetworkData toString format generatedAt e = Ok x.
Proof.
  split.
  - unfold calculateNetworkMetrics. now rewrite Hempty.
  - intros toString generatedAt.
    assert (Hd : network_data generatedAt e
                 = {| nd_nodes := [];
                      nd_edges := [];
                      nd_metadata :=
                        {| md_nodeCount := 0;
                           md_edgeCount := 0;
                           md_generatedAt := generatedAt |} |}).
    { unfold network_data.
      now rewrite Hempty, (wf_no_nodes _ Hwf Hempty). }
    split.
    + unfold exportNetworkData. now rewrite Hd.
    + intros format. unfold exportNetworkData. rewrite Hd.
      destruct (String.eqb format "json"); [eexists; reflexivity |].
      destruct (String.eqb format "gexf"); [eexists; reflexivity |].
      destruct (String.eqb format "graphml"); eexists; reflexivity.
Qed.

Lemma empty_graph_metrics_fail_export_returns_witness :
  calculateNetworkMetrics new_engine = Throw not_built /\
  forall (toString : Q -> string) (generatedAt : string),
    exportNetworkData toString "json" generatedAt new_engine
    = Ok (AsObject
            {| nd_nodes := [];
               nd_edges := [];
               nd_metadata :=
                 {| md_nodeCount := 0;
                    md_edgeCount := 0;
                    md_generatedAt := generatedAt |} |}) /\
    forall format, exists x,
      exportNetworkData toString format generatedAt new_engine = Ok x.
Proof.
  apply (empty_graph_metrics_fail_export_returns new_engine).
  - apply empty_wf.
  - reflexivity.
Defined.

(** ** Density *)

(** With two nodes or more the density is the edge count over
    [nodeCount * (nodeCount - 1)]. *)
Lemma density_of_two_or_more (e : Engine) :
  2 <= List.length (Graph.nodes (graph e)) ->
  let m := calculateBasicMetrics e in
  jeq (density m)
      (JFin (qnat (edgeCount m)
             / (qnat (nodeCount m) * (qnat (nodeCount m) - 1)))).
Proof.
  intros Hn m. unfold m, calculateBasicMetrics.
  cbn [density edgeCount nodeCount].
  set (n := List.length (Graph.nodes (graph e))) in *.
  set (k := List.length (Graph.edges (graph e))).
  unfold jnat. fold (qnat n). fold (qnat k). cbn [jadd jmul jdiv].
  assert (H1 : (1 < qnat n)%Q).
  { change 1%Q with (qnat 1). unfold qnat. rewrite <- Zlt_Qlt. lia. }
  assert (Hpos : (0 < qnat n * (qnat n + -1))%Q).
  { apply Qmult_lt_0_compat; lra. }
  rewrite Qzero_false.
  - simpl. unfold Qminus. reflexivity.
  - intros E. rewrite E in Hpos. now apply Qlt_irrefl in Hpos.
Qed.

(** C4. The density of a one-node graph is not 0: for a build from a
    store with a single paper and no citation the division is 0 / 0,
    and the reported density is NaN. *)
Example density_of_single_node_is_NaN :
  let m :=
    calculateBasicMetrics (snd (buildCitationNetwork no_options store_single))
  in
  nodeCount m = 1 /\ edgeCount m = 0 /\ density m = JNaN.
Proof. vm_compute. repeat split. Qed.

(** ** Similarity of two papers *)

Lemma Set_of_nonempty (l : list string) :
  l <> [] -> 0 < List.length (Set_of l).
Proof.
  destruct l as [| x r]; [congruence |]. intros _.
  assert (H : In x (Set_of (x :: r))) by (apply Set_of_In; now left).
  destruct (Set_of (x :: r)); [destruct H | simpl; lia].
Qed.

Lemma NoDup_filter {A : Type} (p : A -> bool) (l : list A) :
  NoDup l -> NoDup (filter p l).
Proof.
  induction 1 as [| x r Hx Hnd IH]; simpl; [constructor |].
  destruct (p x); [| assumption].
  constructor; [| assumption]. intros H. apply filter_In in H. tauto.
Qed.

Lemma overlap_ratio_share (l1 l2 : list string) :
  l1 <> [] \/ l2 <> [] -> overlap_ratio l1 l2 = JFin (overlap_share l1 l2).
Proof.
  intros H. unfold overlap_ratio, overlap_share.
  rewrite Set_of_NoDup_id by (apply NoDup_filter, Set_of_NoDup).
  apply jdiv_counts.
  destruct H as [H | H]; apply Set_of_nonempty in H; lia.
Qed.


(** When both papers lack an attribute the term is 0 / 0: the similarity
    is NaN, which no comparison finds above the threshold. *)
Lemma similarity_without_keywords_is_NaN :
  calculatePaperSimilarity paper_u paper_v = JNaN /\
  jgt (calculatePaperSimilarity paper_u paper_v) (JFin (3 # 10)) = false.
Proof. vm_compute. split; reflexivity. Qed.



(** ** The XML exports *)

Lemma cat_assoc (a b c : string) : (a +++ b) +++ c = a +++ (b +++ c).
Proof.
  unfold cat. induction a as [| ch a IH]; simpl; [reflexivity |].
  now rewrite IH.
Qed.

Lemma cat_nil_r (a : string) : a +++ EmptyString = a.
Proof.
  unfold cat. induction a as [| ch a IH]; simpl; [reflexivity |].
  now rewrite IH.
Qed.

(** Appending one text per element to an accumulator appends the
    concatenation of the texts. *)
Lemma fold_cat {A : Type} (f : A -> string) (l : list A) (acc : string) :
  fold_left (fun acc x => acc +++ f x) l acc
  = acc +++ string_concat (map f l).
Proof.
  revert acc. induction l as [| x r IH]; intros acc; simpl.
  - now rewrite cat_nil_r.
  - now rewrite IH, cat_assoc.
Qed.

Section ExporterFacts.

Variable toString : Q -> string.

Lemma ofold_gexf_nodes (ps : list PaperNode) (nodes : list ExportNode)
    (acc : string) :
  nodes = map (fun p => {| en_id := id p; en_paper := Some p |}) ps ->
  ofold (fun gexf node => t <- gexf_node toString node ;; Ok (gexf +++ t))
    nodes acc
  = Ok (acc +++
        string_concat (map (fun p => gexf_node_text toString (id p) p) ps)).
Proof.
  intros ->. revert acc. induction ps as [| p r IH]; intros acc; simpl.
  - now rewrite cat_nil_r.
  - rewrite IH. now rewrite cat_assoc.
Qed.

Lemma convertToGEXF_text (ps : list PaperNode) (d : NetworkData) :
  nd_nodes d = map (fun p => {| en_id := id p; en_paper := Some p |}) ps ->
  convertToGEXF toString d
  = Ok (gexf_open +++
        string_concat (map (fun p => gexf_node_text toString (id p) p) ps) +++
        gexf_middle +++
        string_concat (map gexf_edge (indexed (nd_edges d))) +++
        gexf_close).
Proof.
  intros Hn. unfold convertToGEXF.
  rewrite (ofold_gexf_nodes ps _ _ Hn). cbn [obind].
  rewrite fold_cat. unfold gexf_open, gexf_middle, gexf_close.
  now rewrite !cat_assoc.
Qed.

Lemma convertToGraphML_text (d : NetworkData) :
  convertToGraphML d
  = graphml_open +++
    string_concat (map graphml_node (nd_nodes d)) +++
    string_concat (map graphml_edge (indexed (nd_edges d))) +++
    graphml_close.
Proof.
  unfold convertToGraphML. rewrite !fold_cat.
  unfold graphml_open, graphml_close. now rewrite !cat_assoc.
Qed.

End ExporterFacts.

Lemma indexed_from_fst {A : Type} (l : list A) (i : nat) :
  map fst (indexed_from i l) = seq i (List.length l).
Proof.
  revert i. induction l as [| x r IH]; intros i; simpl; [reflexivity |].
  now rewrite IH.
Qed.

Lemma indexed_from_snd {A : Type} (l : list A) (i : nat) :
  map snd (indexed_from i l) = l.
Proof.
  revert i. induction l as [| x r IH]; intros i; simpl; [reflexivity |].
  now rewrite IH.
Qed.

(** No double quote is left in a title after the replacement. *)
Lemma replace_quotes_clean (s : string) :
  ~ In (ascii_of_nat 34) (list_ascii_of_string (replace_quotes s)).
Proof.
  induction s as [| c r IH]; simpl; [intros [] |].
  destruct (Ascii.eqb_spec c (ascii_of_nat 34)) as [-> | Hne].
  - simpl. intros [H | [H | [H | [H | [H | [H | H]]]]]];
      try discriminate H. contradiction.
  - simpl. intros [H | H]; [congruence | contradiction].
Qed.

(** The nodes exported for a build are the paper nodes of the graph,
    each under its own id. *)
Lemma export_nodes_of_build (options : BuildOptions) (s : Store)
    (generatedAt : string) :
  let e := snd (buildCitationNetwork options s) in
  exists ps,
    map id ps = Graph.nodes (graph e) /\
    nd_nodes (network_data generatedAt e)
    = map (fun p => {| en_id := id p; en_paper := Some p |}) ps.
Proof.
  intros e. destruct (buildCitationNetwork_ok options s) as [_ Hp].
  fold e in Hp. unfold network_data. cbn [nd_nodes].
  induction (Graph.nodes (graph e)) as [| n r IH].
  - exists []. split; reflexivity.
  - destruct IH as [ps [Hid Hn]].
    { intros m Hm. apply Hp. now right. }
    destruct (Hp n (or_introl eq_refl)) as [p [Hget Hidp]].
    exists (p :: ps). simpl. rewrite Hid, Hidp. split; [reflexivity |].
    unfold export_node at 1. rewrite Hget, Hidp. now rewrite Hn.
Qed.



(** ** Authority scores *)

Lemma qat_set_same (t : obj jsnum) (k : string) (v : Q) :
  qat (obj_set t k (JFin v)) k = v.
Proof. unfold qat. now rewrite obj_get_set_same. Qed.

Lemma qat_set_other (t : obj jsnum) (k k' : string) (v : jsnum) :
  k <> k' -> qat (obj_set t k v) k' = qat t k'.
Proof. intros H. unfold qat. now rewrite obj_get_set_other. Qed.

Lemma total_set_absent (l : list string) (t : obj jsnum) (k : string)
    (v : jsnum) :
  ~ In k l -> total (obj_set t k v) l = total t l.
Proof.
  induction l as [| x r IH]; intros H; simpl; [reflexivity |].
  rewrite qat_set_other, IH; auto with datatypes.
  intros ->. apply H. now left.
Qed.

Lemma total_set (l : list string) (t : obj jsnum) (k : string) (v : Q) :
  NoDup l -> In k l ->
  (total (obj_set t k (JFin v)) l == total t l - qat t k + v)%Q.
Proof.
  induction 1 as [| x r Hx Hnd IH]; intros Hin; [destruct Hin |].
  simpl. destruct (string_dec k x) as [-> | Hne].
  - rewrite qat_set_same, total_set_absent by assumption. ring.
  - destruct Hin as [-> | Hin]; [congruence |].
    rewrite qat_set_other by assumption. rewrite IH by assumption. ring.
Qed.

Lemma finite_on_set (t : obj jsnum) (l : list string) (k : string) (v : Q) :
  finite_on t l -> finite_on (obj_set t k (JFin v)) l.
Proof.
  intros H n Hn. destruct (string_dec k n) as [-> | Hne].
  - exists v. apply obj_get_set_same.
  - rewrite obj_get_set_other by assumption. now apply H.
Qed.

Lemma num_at_finite (t : obj jsnum) (l : list string) (n : string) :
  finite_on t l -> In n l -> num_at t n = JFin (qat t n).
Proof.
  intros H Hn. destruct (H n Hn) as [q Hq]. unfold num_at, qat. now rewrite Hq.
Qed.

Lemma finite_on_keys (t : obj jsnum) (l : list string) (n : string) :
  finite_on t l -> In n l -> In n (obj_keys t).
Proof.
  intros H Hn. destruct (H n Hn) as [q Hq]. apply obj_get_keys. eauto.
Qed.

Lemma qnat_S (n : nat) : (qnat (S n) == qnat n + 1)%Q.
Proof.
  unfold qnat. rewrite Nat2Z.inj_succ. unfold Z.succ.
  rewrite inject_Z_plus. reflexivity.
Qed.

Lemma qnat_nonzero (n : nat) : 0 < n -> ~ (qnat n == 0)%Q.
Proof.
  intros H E. pose proof (qnat_pos n H) as Hp. rewrite E in Hp.
  now apply Qlt_irrefl in Hp.
Qed.

Lemma jdiv_by_count (x : Q) (n : nat) :
  0 < n -> jdiv (JFin x) (jnat n) = JFin (x / qnat n).
Proof.
  intros H. unfold jdiv, jnat. fold (qnat n).
  now rewrite (Qzero_false _ (qnat_nonzero n H)).
Qed.

(** Adding one contribution to every neighbor of a node. *)
Lemma add_to_neighbors (l : list string) (c : Q) (neighbors : list string)
    (ns : obj jsnum) :
  NoDup l -> (forall n, In n neighbors -> In n l) -> finite_on ns l ->
  let ns' :=
    fold_left
      (fun ns neighbor =>
         obj_set ns neighbor (jadd (num_at ns neighbor) (JFin c)))
      neighbors ns in
  finite_on ns' l /\
  obj_keys ns' = obj_keys ns /\
  (total ns' l == total ns l + qnat (List.length neighbors) * c)%Q.
Proof.
  intros Hnd. revert ns.
  induction neighbors as [| nb r IH]; intros ns Hsub Hfin; simpl.
  - split; [assumption |]. split; [reflexivity |].
    unfold qnat. simpl. ring.
  - assert (Hnb : In nb l) by (apply Hsub; now left).
    rewrite (num_at_finite ns l nb Hfin Hnb). cbn [jadd].
    destruct (IH (obj_set ns nb (JFin (qat ns nb + c)))) as [Hf [Hk Ht]].
    + intros n Hn. apply Hsub. now right.
    + now apply finite_on_set.
    + split; [assumption |]. split.
      * rewrite Hk. apply obj_keys_set_present.
        now apply (finite_on_keys ns l).
      * rewrite Ht, total_set by assumption.
        change (qnat (S (List.length r))) with (qnat (S (List.length r))).
        rewrite qnat_S. ring.
Qed.

Lemma total_const (t : obj jsnum) (l : list string) (c : Q) :
  (forall n, In n l -> qat t n = c) ->
  (total t l == qnat (List.length l) * c)%Q.
Proof.
  induction l as [| x r IH]; intros H.
  - simpl. unfold qnat. simpl. ring.
  - cbn [total fold_right List.length]. fold (total t r).
    rewrite H by (now left). rewrite IH by (intros; apply H; now right).
    rewrite qnat_S. ring.
Qed.

Lemma total_ext (t t' : obj jsnum) (l : list string) :
  (forall n, In n l -> qat t' n = qat t n) -> total t' l = total t l.
Proof.
  induction l as [| x r IH]; intros H; simpl; [reflexivity |].
  rewrite H by (now left). rewrite IH; [reflexivity |].
  intros; apply H; now right.
Qed.

(** Filling a table with one finite number per node. *)
Lemma init_const (c : Q) (l : list string) (t : obj jsnum) :
  let t' := fold_left (fun ns node => obj_set ns node (JFin c)) l t in
  finite_on t' l /\
  (forall n, In n l -> qat t' n = c) /\
  obj_keys t' = fold_left set_add l (obj_keys t).
Proof.
  intros t'. split; [| split].
  - intros n Hn. exists c. unfold t'.
    now rewrite (obj_get_fill (fun _ => JFin c)).
  - intros n Hn. unfold qat, t'.
    now rewrite (obj_get_fill (fun _ => JFin c)).
  - apply (obj_keys_fill (fun _ => JFin c)).
Qed.

Lemma keys_of_nodes (l keys : list string) :
  NoDup l -> keys = [] \/ keys = l -> fold_left set_add l keys = l.
Proof.
  intros Hnd [-> | ->].
  - now apply fold_set_add_NoDup.
  - assert (H : forall acc, (forall x, In x l -> In x acc) ->
                fold_left set_add l acc = acc).
    { clear. induction l as [| x r IH]; intros acc H; simpl; [reflexivity |].
      rewrite set_add_present by (apply H; now left).
      apply IH. intros y Hy. apply H. now right. }
    now apply H.
Qed.

Lemma passed_on_all (g : Graph.t) (scores : obj jsnum) (l : list string) :
  (forall n, In n l -> 0 < Graph.outdegree g n) ->
  passed_on g scores l = total scores l.
Proof.
  induction l as [| x r IH]; intros H; simpl; [reflexivity |].
  rewrite IH by (intros; apply H; now right).
  destruct (Nat.ltb_spec 0 (Graph.outdegree g x)) as [_ | Hc]; [reflexivity |].
  specialize (H x (or_introl eq_refl)). lia.
Qed.

Section AuthorityStep.

Variable g : Graph.t.
Variable dampingFactor : Q.
Hypothesis Hwf : Graph.wf g.

Lemma pass_on_finite (scores ns : obj jsnum) (x : string) :
  In x (Graph.nodes g) -> finite_on scores (Graph.nodes g) ->
  pass_on g dampingFactor scores ns x
  = if 0 <? Graph.outdegree g x then
      fold_left
        (fun ns neighbor =>
           obj_set ns neighbor
             (jadd (num_at ns neighbor)
                (JFin (dampingFactor * qat scores x
                       / qnat (Graph.outdegree g x)))))
        (Graph.adjacent g x) ns
    else ns.
Proof.
  intros Hx Hs. unfold pass_on.
  destruct (Nat.ltb_spec 0 (Graph.outdegree g x)) as [Hpos | Hzero];
    [| reflexivity].
  rewrite (num_at_finite scores _ x Hs Hx). cbn [jmul].
  now rewrite (jdiv_by_count _ _ Hpos).
Qed.

(** The second loop of an iteration: every node with outgoing edges
    hands its damped score, in equal parts, to its neighbors. *)
Lemma contributions (scores : obj jsnum) (l : list string)
    (ns : obj jsnum) :
  (forall n, In n l -> In n (Graph.nodes g)) ->
  finite_on scores (Graph.nodes g) -> finite_on ns (Graph.nodes g) ->
  finite_on (fold_left (pass_on g dampingFactor scores) l ns)
    (Graph.nodes g) /\
  obj_keys (fold_left (pass_on g dampingFactor scores) l ns) = obj_keys ns /\
  (total (fold_left (pass_on g dampingFactor scores) l ns) (Graph.nodes g)
   == total ns (Graph.nodes g) + dampingFactor * passed_on g scores l)%Q.
Proof.
  intros Hsub Hs. revert ns Hsub.
  induction l as [| x r IH]; intros ns Hsub Hns;
    cbn [fold_left passed_on fold_right].
  - split; [assumption |]. split; [reflexivity | ring].
  - assert (Hx : In x (Graph.nodes g)) by (apply Hsub; now left).
    assert (Hr : forall n, In n r -> In n (Graph.nodes g))
      by (intros; apply Hsub; now right).
    fold (passed_on g scores r).
    rewrite (pass_on_finite scores ns x Hx Hs).
    destruct (Nat.ltb_spec 0 (Graph.outdegree g x)) as [Hpos | Hzero].
    + set (c := (dampingFactor * qat scores x
                 / qnat (Graph.outdegree g x))%Q).
      destruct (add_to_neighbors (Graph.nodes g) c (Graph.adjacent g x) ns)
        as [Hf [Hk Ht]]; try assumption.
      { apply Hwf. }
      { intros n Hn. now apply (adjacent_nodes g x). }
      destruct (IH _ Hr Hf) as [Hf' [Hk' Ht']].
      split; [assumption |]. split; [now rewrite Hk' |].
      rewrite Ht', Ht. unfold c. fold (Graph.outdegree g x).
      field. now apply qnat_nonzero.
    + destruct (IH _ Hr Hns) as [Hf' [Hk' Ht']].
      split; [assumption |]. split; [assumption |].
      rewrite Ht'. ring.
Qed.

(** [Object.assign(scores, newScores)]. *)
Lemma assign_other (kvs s : obj jsnum) (k : string) :
  ~ In k (obj_keys kvs) ->
  obj_get (fold_left (fun s kv => obj_set s (fst kv) (snd kv)) kvs s) k
  = obj_get s k.
Proof.
  revert s. induction kvs as [| [k0 v0] r IH]; intros s H; simpl;
    [reflexivity |].
  rewrite IH by (intros Hc; apply H; now right).
  apply obj_get_set_other. intros ->. apply H. now left.
Qed.

Lemma assign_get (kvs s : obj jsnum) (k : string) (v : jsnum) :
  NoDup (obj_keys kvs) -> In (k, v) kvs ->
  obj_get (fold_left (fun s kv => obj_set s (fst kv) (snd kv)) kvs s) k
  = Some v.
Proof.
  revert s. induction kvs as [| [k0 v0] r IH]; intros s Hnd Hin;
    [destruct Hin |].
  simpl in *. apply NoDup_cons_iff in Hnd. destruct Hnd as [Hk0 Hnd].
  destruct Hin as [[= -> ->] | Hin].
  - rewrite assign_other by assumption. apply obj_get_set_same.
  - now apply IH.
Qed.

Lemma assign_keys (kvs s : obj jsnum) :
  (forall k, In k (obj_keys kvs) -> In k (obj_keys s)) ->
  obj_keys (fold_left (fun s kv => obj_set s (fst kv) (snd kv)) kvs s)
  = obj_keys s.
Proof.
  revert s. induction kvs as [| [k0 v0] r IH]; intros s H; simpl;
    [reflexivity |].
  assert (Hk : obj_keys (obj_set s k0 v0) = obj_keys s)
    by (apply obj_keys_set_present, H; now left).
  rewrite IH; [assumption |].
  intros k Hin. rewrite Hk. apply H. now right.
Qed.

Lemma authority_step_inv (st : obj jsnum * obj jsnum) :
  Graph.nodes g <> [] -> authority_inv g st ->
  authority_inv g (authority_step g dampingFactor st) /\
  (total (fst (authority_step g dampingFactor st)) (Graph.nodes g)
   == (1 - dampingFactor)
      + dampingFactor * passed_on g (fst st) (Graph.nodes g))%Q.
Proof.
  intros Hne [Hk [Hf Hnk]]. destruct st as [scores newScores].
  simpl in Hk, Hf, Hnk.
  assert (Hnd : NoDup (Graph.nodes g)) by apply Hwf.
  assert (HN : 0 < List.length (Graph.nodes g)).
  { destruct (Graph.nodes g); [congruence | simpl; lia]. }
  unfold authority_step. cbv beta iota zeta.
  rewrite (jdiv_by_count _ _ HN).
  set (c := ((1 - dampingFactor) / qnat (List.length (Graph.nodes g)))%Q).
  destruct (init_const c (Graph.nodes g) newScores) as [Hf0 [Hq0 Hk0]].
  set (ns0 := fold_left (fun ns node => obj_set ns node (JFin c))
                (Graph.nodes g) newScores) in *.
  rewrite (keys_of_nodes _ _ Hnd Hnk) in Hk0.
  destruct (contributions scores (Graph.nodes g) ns0) as [Hf1 [Hk1 Ht1]];
    try assumption; [auto |].
  set (ns1 := fold_left (pass_on g dampingFactor scores) (Graph.nodes g)
                ns0) in *.
  rewrite Hk0 in Hk1.
  set (scores' := fold_left (fun s kv => obj_set s (fst kv) (snd kv))
                    ns1 scores).
  fold scores'.
  assert (Hget : forall n, In n (Graph.nodes g) ->
            obj_get scores' n = obj_get ns1 n).
  { intros n Hn. destruct (Hf1 n Hn) as [q Hq]. rewrite Hq.
    apply assign_get; [now rewrite Hk1 | now apply obj_get_In]. }
  unfold authority_inv. cbn [fst snd]. split; [split; [| split] |].
  - unfold scores'. rewrite assign_keys; [assumption |].
    intros k Hin. now rewrite Hk, <- Hk1.
  - intros n Hn. rewrite (Hget n Hn). now apply Hf1.
  - now right.
  - rewrite (total_ext ns1 scores')
      by (intros n Hn; unfold qat; now rewrite (Hget n Hn)).
    rewrite Ht1, (total_const ns0 _ c Hq0). unfold c.
    field. now apply qnat_nonzero.
Qed.

Lemma authority_iter_inv (iterations : nat) (st : obj jsnum * obj jsnum) :
  Graph.nodes g <> [] -> authority_inv g st ->
  authority_inv g (Nat.iter iterations (authority_step g dampingFactor) st).
Proof.
  intros Hne Hst. induction iterations as [| n IH]; simpl; [assumption |].
  now apply authority_step_inv.
Qed.

Lemma authority_initial :
  Graph.nodes g <> [] ->
  let scores :=
    fold_left
      (fun s node =>
         obj_set s node (jdiv (JFin 1) (jnat (List.length (Graph.nodes g)))))
      (Graph.nodes g) [] in
  authority_inv g (scores, []) /\ (total scores (Graph.nodes g) == 1)%Q.
Proof.
  intros Hne.
  assert (Hnd : NoDup (Graph.nodes g)) by apply Hwf.
  assert (HN : 0 < List.length (Graph.nodes g)).
  { destruct (Graph.nodes g); [congruence | simpl; lia]. }
  rewrite (jdiv_by_count _ _ HN).
  destruct (init_const (1 / qnat (List.length (Graph.nodes g)))
              (Graph.nodes g) []) as [Hf [Hq Hk]].
  intros scores. fold scores in Hf, Hq, Hk. split.
  - split; [| split]; cbn [fst snd]; [| assumption | now left].
    rewrite Hk. now apply fold_set_add_NoDup.
  - rewrite (total_const scores _ _ Hq). field. now apply qnat_nonzero.
Qed.

(** With no node without outgoing edges, every iteration keeps the sum
    of the scores at 1. *)
Lemma authority_total (iterations : nat) :
  Graph.nodes g <> [] ->
  (forall n, In n (Graph.nodes g) -> 0 < Graph.outdegree g n) ->
  let scores := calculateAuthorityScore_with g iterations dampingFactor in
  authority_inv g (scores, []) /\ (total scores (Graph.nodes g) == 1)%Q.
Proof.
  intros Hne Hout.
  destruct (authority_initial Hne) as [Hi Ht].
  unfold calculateAuthorityScore_with. cbv zeta.
  set (s0 := fold_left
               (fun s node =>
                  obj_set s node
                    (jdiv (JFin 1) (jnat (List.length (Graph.nodes g)))))
               (Graph.nodes g) []) in *.
  assert (H : authority_inv g
                (Nat.iter iterations (authority_step g dampingFactor)
                   (s0, [])) /\
              (total (fst (Nat.iter iterations
                             (authority_step g dampingFactor) (s0, [])))
                 (Graph.nodes g) == 1)%Q).
  { induction iterations as [| n IH]; simpl; [now split |].
    destruct IH as [IHi IHt].
    destruct (authority_step_inv _ Hne IHi) as [Hi' Ht'].
    split; [assumption |].
    rewrite Ht', (passed_on_all _ _ _ Hout), IHt. ring. }
  destruct H as [[Hk [Hf _]] Htot]. cbn zeta.
  split; [| assumption]. split; [| split]; cbn [fst snd]; auto.
Qed.

End AuthorityStep.

Lemma num_at_cons_other (k k' : string) (v : jsnum) (t : obj jsnum) :
  k <> k' -> num_at ((k, v) :: t) k' = num_at t k'.
Proof.
  intros H. unfold num_at. simpl.
  destruct (String.eqb_spec k k'); [contradiction | reflexivity].
Qed.

(** The values of a table, read key by key. *)
Lemma values_by_keys (t : obj jsnum) :
  NoDup (obj_keys t) -> obj_values t = map (num_at t) (obj_keys t).
Proof.
  induction t as [| [k v] r IH]; intros H; simpl; [reflexivity |].
  apply NoDup_cons_iff in H. destruct H as [Hk Hnd]. f_equal.
  - unfold num_at. simpl. now rewrite String.eqb_refl.
  - rewrite IH by assumption. apply map_ext_in. intros k' Hk'.
    symmetry. apply num_at_cons_other. intros ->. contradiction.
Qed.

Lemma Qsum_shift (l : list Q) (a : Q) :
  (fold_left Qplus l a == a + fold_left Qplus l 0)%Q.
Proof.
  revert a. induction l as [| y r IH]; intros a; simpl; [ring |].
  rewrite (IH (a + y)%Q), (IH (0 + y)%Q). ring.
Qed.

Lemma Qsum_total (t : obj jsnum) (l : list string) :
  (Qsum (map (qat t) l) == total t l)%Q.
Proof.
  unfold Qsum. induction l as [| x r IH]; simpl; [reflexivity |].
  rewrite Qsum_shift, IH. ring.
Qed.

Lemma scores_sum (t : obj jsnum) (l : list string) :
  obj_keys t = l -> NoDup l -> finite_on t l ->
  exists s, jsum (obj_values t) = JFin s /\ (s == total t l)%Q.
Proof.
  intros Hk Hnd Hf.
  rewrite values_by_keys by now rewrite Hk.
  rewrite Hk.
  assert (Hm : map (num_at t) l = map JFin (map (qat t) l)).
  { rewrite map_map. apply map_ext_in. intros n Hn.
    now apply (num_at_finite t l). }
  rewrite Hm. destruct (jsum_finite (map (qat t) l)) as [s [Hs Hs']].
  exists s. split; [assumption |]. now rewrite Hs', Qsum_total.
Qed.

(** The scores of a non-empty graph are finite numbers, one per node. *)
Lemma authority_finite (g : Graph.t) (iterations : nat) (dampingFactor : Q) :
  Graph.wf g -> Graph.nodes g <> [] ->
  let scores := calculateAuthorityScore_with g iterations dampingFactor in
  obj_keys scores = Graph.nodes g /\ finite_on scores (Graph.nodes g).
Proof.
  intros Hwf Hne scores.
  destruct (authority_initial g Hwf Hne) as [Hi _].
  pose proof (authority_iter_inv g dampingFactor Hwf iterations _ Hne Hi)
    as [Hk [Hf _]].
  split; assumption.
Qed.

(** For any number of iterations and any damping factor, the scores of
    a non-empty graph in which every node has an outgoing edge add up
    to 1. *)
Lemma authority_sum_general (g : Graph.t) (iterations : nat)
    (dampingFactor : Q) :
  Graph.wf g -> Graph.nodes g <> [] ->
  (forall n, In n (Graph.nodes g) -> 0 < Graph.outdegree g n) ->
  exists s,
    jsum (obj_values (calculateAuthorityScore_with g iterations dampingFactor))
    = JFin s /\ (s == 1)%Q.
Proof.
  intros Hwf Hne Hout.
  destruct (authority_total g dampingFactor Hwf iterations Hne Hout)
    as [[Hk [Hf _]] Ht].
  cbn [fst] in Hk, Hf.
  destruct (scores_sum _ _ Hk (proj1 Hwf) Hf) as [s [Hs Hs']].
  exists s. split; [assumption |]. now rewrite Hs'.
Qed.




(** ** Sorting *)

Lemma sort_insert_perm {A : Type} (before : A -> A -> bool) (x : A)
    (l : list A) :
  Permutation (x :: l) (sort_insert before x l).
Proof.
  induction l as [| y r IH]; simpl; [reflexivity |].
  destruct (before x y); [reflexivity |].
  rewrite perm_swap. now constructor.
Qed.

Lemma js_sort_perm {A : Type} (before : A -> A -> bool) (l : list A) :
  Permutation l (js_sort before l).
Proof.
  induction l as [| x r IH]; simpl; [constructor |].
  rewrite <- sort_insert_perm. now constructor.
Qed.

Lemma js_sort_In {A : Type} (before : A -> A -> bool) (l : list A) (x : A) :
  In x (js_sort before l) <-> In x l.
Proof.
  split; apply Permutation_in;
    [symmetry |]; apply js_sort_perm.
Qed.

(** ** Calls that return *)

Lemma omap_ok {A B : Type} (P : A -> B -> Prop) (f : A -> outcome B)
    (l : list A) :
  (forall x, In x l -> exists y, f x = Ok y /\ P x y) ->
  exists ys, omap f l = Ok ys /\
             forall y, In y ys -> exists x, In x l /\ P x y.
Proof.
  induction l as [| x r IH]; intros H; simpl.
  - exists []. split; [reflexivity | intros y []].
  - destruct (H x (or_introl eq_refl)) as [y [Hy Hp]].
    destruct IH as [ys [Hys Hall]]; [intros; apply H; now right |].
    rewrite Hy, Hys. simpl. exists (y :: ys). split; [reflexivity |].
    intros z [<- | Hz].
    + exists x. split; [now left | assumption].
    + destruct (Hall z Hz) as [x' [Hx' Hp']]. exists x'.
      split; [now right | assumption].
Qed.

(** ** Communities *)

Lemma str_in_app (x : string) (l l' : list string) :
  str_in x (l ++ l') = str_in x l || str_in x l'.
Proof. unfold str_in. apply existsb_app. Qed.

Lemma unvisited_le (nodes visited : list string) :
  unvisited nodes visited <= List.length nodes.
Proof. apply filter_length_le. Qed.

Lemma unvisited_mono (nodes visited : list string) (n : string) :
  unvisited nodes (visited ++ [n]) <= unvisited nodes visited.
Proof.
  unfold unvisited. induction nodes as [| x r IH]; [simpl; lia |].
  cbn [filter]. rewrite str_in_app.
  destruct (str_in x visited); cbn [orb negb]; [assumption |].
  destruct (str_in x [n]); cbn [negb List.length]; lia.
Qed.

Lemma unvisited_add (nodes visited : list string) (n : string) :
  In n nodes -> str_in n visited = false ->
  S (unvisited nodes (set_add visited n)) <= unvisited nodes visited.
Proof.
  intros Hin Hv. unfold set_add. rewrite Hv.
  induction nodes as [| x r IH]; [destruct Hin |].
  unfold unvisited in *. cbn [filter]. rewrite str_in_app.
  destruct (string_dec x n) as [-> | Hne].
  - rewrite Hv.
    assert (Hn : str_in n [n] = true) by (apply str_in_In; now left).
    rewrite Hn. cbn [orb negb List.length].
    pose proof (unvisited_mono r visited n) as Hm. unfold unvisited in Hm. lia.
  - destruct Hin as [-> | Hin]; [congruence |]. specialize (IH Hin).
    destruct (str_in x visited); cbn [orb negb]; [assumption |].
    assert (Hn : str_in x [n] = false).
    { apply str_in_false. intros [-> | []]. congruence. }
    rewrite Hn. cbn [negb List.length]. lia.
Qed.

Section Communities.

Variable e : Engine.
Hypothesis He : engine_ok e.

Lemma visit_neighbor_ok (p1 : PaperNode)
    (st : list string * list string * list string) (neighbor : string) :
  In neighbor (Graph.nodes (graph e)) -> group_inv e st ->
  exists st', visit_neighbor e (Some p1) st neighbor = Ok st' /\
              group_inv e st' /\ pending e st' <= pending e st.
Proof.
  intros Hn Hinv. destruct st as [[visited community] queue].
  unfold visit_neighbor.
  destruct (str_in neighbor visited) eqn:Hv.
  - exists (visited, community, queue). auto.
  - destruct He as [_ Hp]. destruct (Hp neighbor Hn) as [p2 [Hget _]].
    rewrite Hget. cbn [defined obind].
    destruct (jgt (calculatePaperSimilarity p1 p2) (JFin (3 # 10))).
    + eexists. split; [reflexivity |].
      destruct Hinv as [Hnd [Hc Hq]]. split; [split; [| split] |].
      * now apply set_add_NoDup.
      * intros n. rewrite set_add_In. intros [H | ->]; auto.
      * intros n H. apply in_app_or in H. destruct H as [H | [<- | []]]; auto.
      * unfold pending. rewrite length_app. simpl.
        pose proof (unvisited_add _ _ _ Hn Hv). lia.
    + exists (visited, community, queue). auto.
Qed.

Lemma visit_neighbors_ok (p1 : PaperNode) (neighbors : list string)
    (st : list string * list string * list string) :
  (forall n, In n neighbors -> In n (Graph.nodes (graph e))) ->
  group_inv e st ->
  exists st', ofold (visit_neighbor e (Some p1)) neighbors st = Ok st' /\
              group_inv e st' /\ pending e st' <= pending e st.
Proof.
  revert st. induction neighbors as [| nb r IH]; intros st Hsub Hinv; simpl.
  - exists st. auto.
  - destruct (visit_neighbor_ok p1 st nb) as [st1 [H1 [Hinv1 Hp1]]];
      [apply Hsub; now left | assumption |].
    rewrite H1. simpl.
    destruct (IH st1) as [st2 [H2 [Hinv2 Hp2]]];
      [intros; apply Hsub; now right | assumption |].
    exists st2. split; [assumption |]. split; [assumption | lia].
Qed.

(** With more fuel than nodes pending, the growth of a group ends, and
    the group is a duplicate-free list of nodes. *)
Lemma grow_community_ok (fuel : nat)
    (st : list string * list string * list string) :
  group_inv e st -> pending e st < fuel ->
  exists visited community,
    grow_community fuel e st = Ok (visited, community) /\
    NoDup community /\
    forall n, In n community -> In n (Graph.nodes (graph e)).
Proof.
  revert st. induction fuel as [| fuel IH]; intros st Hinv Hfuel; [lia |].
  destruct st as [[visited community] queue]. simpl.
  destruct queue as [| current rest].
  - exists visited, community. destruct Hinv as [Hnd [Hc _]]. auto.
  - assert (Hcur : In current (Graph.nodes (graph e)))
      by (apply Hinv; now left).
    destruct He as [Hwf Hp]. destruct (Hp current Hcur) as [p1 [Hget _]].
    rewrite Hget.
    destruct (visit_neighbors_ok p1 (Graph.adjacent (graph e) current)
                (visited, community, rest)) as [st' [Hv [Hinv' Hpend]]].
    + intros n Hn. now apply (adjacent_nodes (graph e) current).
    + destruct Hinv as [Hnd [Hc Hq]]. split; [assumption |].
      split; [assumption |]. intros n Hn. apply Hq. now right.
    + rewrite Hv. simpl. apply IH; [assumption |].
      unfold pending in *. simpl in Hfuel. lia.
Qed.

Lemma collect_communities_ok :
  exists communities,
    collect_communities e = Ok communities /\ entries_inv e communities.
Proof.
  unfold collect_communities.
  set (nodes := Graph.nodes (graph e)).
  set (body := fun (st : list string * list (nat * list string)) node => _).
  assert (H : forall l st,
             (forall n, In n l -> In n nodes) -> entries_inv e (snd st) ->
             exists st', ofold body l st = Ok st' /\ entries_inv e (snd st')).
  { induction l as [| node r IH]; intros st Hsub Hinv; simpl.
    - exists st. auto.
    - assert (Hstep : exists st1, body st node = Ok st1 /\
                                   entries_inv e (snd st1)).
      { unfold body. destruct st as [visited communities].
        destruct (str_in node visited);
          [eexists; split; [reflexivity | assumption] |].
        destruct (grow_community_ok (2 + List.length nodes)
                    (set_add visited node, [node], [node]))
          as [visited' [community [Hg [Hnd Hc]]]].
        - split; [repeat constructor; intros [] |].
          split; intros n [<- | []]; apply Hsub; now left.
        - unfold pending. fold nodes. simpl.
          pose proof (unvisited_le nodes (set_add visited node)). lia.
        - fold nodes in Hg. rewrite Hg. cbn [obind].
          destruct (Nat.leb_spec 3 (List.length community)).
          + eexists. split; [reflexivity |]. simpl.
            intros entry Hin. apply in_app_or in Hin.
            destruct Hin as [Hin | [<- | []]]; [now apply Hinv |].
            simpl. auto.
          + eexists. split; [reflexivity | assumption]. }
      destruct Hstep as [st1 [H1 Hinv1]]. rewrite H1. simpl.
      apply IH; [intros; apply Hsub; now right | assumption]. }
  destruct (H nodes ([], [])) as [st' [Hst' Hinv']];
    [auto | intros entry [] |].
  rewrite Hst'. simpl. exists (snd st'). auto.
Qed.

Lemma analyse_community_ok (entry : nat * list string) :
  (forall n, In n (snd entry) -> In n (Graph.nodes (graph e))) ->
  exists c, analyse_community e entry = Ok c /\
            com_members c = snd entry /\
            com_size c = List.length (snd entry).
Proof.
  destruct entry as [cid members]. simpl. intros Hsub.
  destruct (omap_ok (fun _ _ => True)
              (fun nodeId => defined (obj_get (paperNodes e) nodeId))
              members) as [ps [Hps _]].
  - intros n Hn. destruct He as [_ Hp].
    destruct (Hp n (Hsub n Hn)) as [p [Hget _]]. rewrite Hget.
    exists p. split; [reflexivity | exact I].
  - rewrite Hps. simpl. eexists. split; [reflexivity |]. simpl. auto.
Qed.

Lemma detectCommunities_ok :
  exists report,
    detectCommunities e = Ok report /\
    forall c, In c (cm_communities report) ->
      3 <= com_size c /\
      com_size c = List.length (com_members c) /\
      NoDup (com_members c) /\
      forall m, In m (com_members c) -> In m (Graph.nodes (graph e)).
Proof.
  unfold detectCommunities.
  destruct collect_communities_ok as [communities [Hc Hinv]].
  rewrite Hc. simpl.
  destruct (omap_ok
              (fun entry c => com_members c = snd entry /\
                              com_size c = List.length (snd entry))
              (analyse_community e) communities) as [cs [Hcs Hall]].
  - intros entry Hin. apply analyse_community_ok. now apply Hinv.
  - rewrite Hcs. simpl. eexists. split; [reflexivity |]. simpl.
    intros c Hin. apply js_sort_In in Hin.
    destruct (Hall c Hin) as [entry [Hentry [Hm Hs]]].
    destruct (Hinv entry Hentry) as [H3 [Hnd Hsub]].
    rewrite Hs, Hm. auto.
Qed.

End Communities.

(** C7. For every build, community detection returns, and every
    community it returns has at least 3 members, as many as its size
    says, all of them nodes of the graph and no node twice. *)
Theorem communities_have_three_members_of_the_graph
    (options : BuildOptions) (s : Store) :
  let e := snd (buildCitationNetwork options s) in
  exists report,
    detectCommunities e = Ok report /\
    forall c, In c (cm_communities report) ->
      3 <= com_size c /\
      com_size c = List.length (com_members c) /\
      NoDup (com_members c) /\
      forall m, In m (com_members c) -> In m (Graph.nodes (graph e)).
Proof.
  intros e. apply detectCommunities_ok. apply buildCitationNetwork_ok.
Qed.

(** ** Shortest paths *)

Lemma queue_weight_app (b : nat) (q1 q2 : list (list string)) :
  queue_weight b (q1 ++ q2) = queue_weight b q1 + queue_weight b q2.
Proof.
  induction q1 as [| p r IH]; simpl; [reflexivity |]. rewrite IH. lia.
Qed.

Lemma path_weight_pos (b : nat) (path : list string) :
  0 < b -> 1 <= path_weight b path.
Proof.
  intros Hb. unfold path_weight.
  assert (H : b ^ (6 - List.length path) <> 0)
    by (apply Nat.pow_nonzero; lia).
  lia.
Qed.

Lemma children_weight (b : nat) (path : list string)
    (neighbors : list string) :
  queue_weight b (map (fun neighbor => path ++ [neighbor]) neighbors)
  = List.length neighbors * b ^ (6 - S (List.length path)).
Proof.
  induction neighbors as [| n r IH]; simpl; [reflexivity |].
  rewrite IH. unfold path_weight. rewrite length_app. simpl.
  replace (List.length path + 1) with (S (List.length path)) by lia.
  reflexivity.
Qed.

Lemma adjacent_length (g : Graph.t) (n : string) :
  List.length (Graph.adjacent g n) <= List.length (Graph.links g).
Proof.
  unfold Graph.adjacent. rewrite length_map. apply filter_length_le.
Qed.

(** Extending a path of at most five nodes lowers the weight of the
    queue. *)
Lemma extension_weight (g : Graph.t) (path : list string)
    (current : string) :
  List.length path <= 5 ->
  let b := S (List.length (Graph.links g)) in
  S (queue_weight b
       (map (fun neighbor => path ++ [neighbor])
          (filter (fun neighbor => negb (str_in neighbor path))
             (Graph.adjacent g current))))
  <= path_weight b path.
Proof.
  intros Hlen b. rewrite children_weight. unfold path_weight.
  set (k := List.length (filter _ (Graph.adjacent g current))).
  assert (Hk : k <= List.length (Graph.links g)).
  { unfold k. etransitivity; [apply filter_length_le | apply adjacent_length]. }
  replace (6 - List.length path) with (S (6 - S (List.length path))) by lia.
  set (x := b ^ (6 - S (List.length path))).
  assert (Hx : 1 <= x).
  { unfold x. assert (b ^ (6 - S (List.length path)) <> 0)
      by (apply Nat.pow_nonzero; unfold b; lia). lia. }
  rewrite Nat.pow_succ_r'. fold x. unfold b. nia.
Qed.

Lemma findShortestPaths_loop_ok (g : Graph.t) (target : string)
    (maxPaths : nat) (fuel : nat) :
  Graph.wf g ->
  forall paths queue visited,
    queue_weight (S (List.length (Graph.links g))) queue < fuel ->
    paths_in g paths -> paths_in g queue ->
    exists found,
      findShortestPaths_loop fuel g target maxPaths paths queue visited
      = Ok found /\ paths_in g found.
Proof.
  intros Hwf. induction fuel as [| fuel IH];
    intros paths queue visited Hfuel Hpaths Hqueue; [lia |].
  cbn [findShortestPaths_loop].
  destruct queue as [| path rest]; [now exists paths |].
  destruct (List.length paths <? maxPaths); [| now exists paths].
  assert (Hrest : paths_in g rest)
    by (intros p Hp; apply Hqueue; now right).
  assert (Hpath : forall n, In n path -> In n (Graph.nodes g))
    by (apply Hqueue; now left).
  cbn [queue_weight fold_right] in Hfuel.
  fold (queue_weight (S (List.length (Graph.links g))) rest) in Hfuel.
  pose proof (path_weight_pos (S (List.length (Graph.links g))) path
                ltac:(lia)) as Hpos.
  destruct (String.eqb (last path EmptyString) target).
  - apply IH; [lia | | assumption].
    intros p Hp. apply in_app_or in Hp.
    destruct Hp as [Hp | [<- | []]]; [now apply Hpaths | assumption].
  - destruct (Nat.ltb_spec 5 (List.length path)) as [Hlong | Hshort].
    + apply IH; [lia | assumption | assumption].
    + destruct (str_in (join "-" path) visited).
      * apply IH; [lia | assumption | assumption].
      * apply IH; [| assumption |].
        -- rewrite queue_weight_app.
           pose proof (extension_weight g path (last path EmptyString)
                         Hshort) as Hext.
           cbv zeta in Hext. lia.
        -- intros p Hp. apply in_app_or in Hp.
           destruct Hp as [Hp | Hp]; [now apply Hrest |].
           apply in_map_iff in Hp. destruct Hp as [nb [<- Hnb]].
           apply filter_In in Hnb. destruct Hnb as [Hnb _].
           intros n Hn. apply in_app_or in Hn.
           destruct Hn as [Hn | [<- | []]]; [now apply Hpath |].
           now apply (adjacent_nodes g (last path EmptyString)).
Qed.

(** The search returns, and the paths it returns are made of nodes. *)
Lemma findShortestPaths_ok (g : Graph.t) (source target : string)
    (maxPaths : nat) :
  Graph.wf g -> In source (Graph.nodes g) ->
  exists found,
    findShortestPaths g source target maxPaths = Ok found /\
    paths_in g found.
Proof.
  intros Hwf Hs. unfold findShortestPaths, paths_fuel.
  apply findShortestPaths_loop_ok; [assumption | | intros p [] |].
  - simpl. unfold path_weight. simpl List.length.
    change (6 - 1) with 5. lia.
  - intros p [<- | []] n [<- | []]. assumption.
Qed.

(** ** Betweenness *)

Lemma incr_at_finite (t : obj jsnum) (l : list string) (k : string) :
  finite_table t l -> In k l -> finite_table (incr_at t k) l.
Proof.
  intros [Hk Hf] Hin. unfold incr_at.
  rewrite (num_at_finite t l k Hf Hin). cbn [jadd]. split.
  - rewrite obj_keys_set_present; [assumption | now rewrite Hk].
  - now apply finite_on_set.
Qed.

Lemma interior_In (path : list string) (n : string) :
  In n (interior path) -> In n path.
Proof.
  unfold interior. intros H.
  assert (Ht : In n (tl path)).
  { clear -H. induction (tl path) as [| x r IH]; [destruct H |].
    simpl in H. destruct r as [| y r']; [destruct H |].
    destruct H as [<- | H]; [now left | right; now apply IH]. }
  destruct path; [destruct Ht | now right].
Qed.

Lemma count_paths_finite (g : Graph.t) (paths : list (list string))
    (b : obj jsnum) :
  paths_in g paths -> finite_table b (Graph.nodes g) ->
  finite_table
    (fold_left (fun b path => fold_left incr_at (interior path) b) paths b)
    (Graph.nodes g).
Proof.
  revert b. induction paths as [| path r IH]; intros b Hp Hb; simpl;
    [assumption |].
  apply IH; [intros p Hin; apply Hp; now right |].
  assert (Hi : forall n, In n (interior path) -> In n (Graph.nodes g)).
  { intros n Hn. apply (Hp path (or_introl eq_refl)).
    now apply interior_In. }
  clear IH Hp. revert b Hb.
  induction (interior path) as [| k ks IHk]; intros b Hb; simpl;
    [assumption |].
  apply IHk; [intros; apply Hi; now right |].
  apply incr_at_finite; [assumption | apply Hi; now left].
Qed.

Lemma Math_max_finite (qs : list Q) :
  Math_max (map JFin qs) = JNegInf \/ exists m, Math_max (map JFin qs) = JFin m.
Proof.
  unfold Math_max.
  assert (H : forall acc,
             acc = JNegInf \/ (exists a, acc = JFin a) ->
             fold_left jmax (map JFin qs) acc = JNegInf \/
             exists m, fold_left jmax (map JFin qs) acc = JFin m).
  { induction qs as [| q r IH]; intros acc Hacc; simpl; [assumption |].
    apply IH. right. destruct Hacc as [-> | [a ->]]; simpl.
    - now exists q.
    - destruct (Qle_bool q a); simpl; eauto. }
  apply H. now left.
Qed.

Lemma finite_table_values (t : obj jsnum) (l : list string) :
  NoDup l -> finite_table t l -> obj_values t = map JFin (map (qat t) l).
Proof.
  intros Hnd [Hk Hf]. rewrite values_by_keys by now rewrite Hk.
  rewrite Hk, map_map. apply map_ext_in. intros n Hn.
  now apply (num_at_finite t l).
Qed.

(** The betweenness of a well-formed graph is computed, and gives every
    node a finite number. *)
Lemma calculateBetweennessCentrality_ok (g : Graph.t) :
  Graph.wf g ->
  exists b, calculateBetweennessCentrality g = Ok b /\
            finite_table b (Graph.nodes g).
Proof.
  intros Hwf. assert (Hnd : NoDup (Graph.nodes g)) by apply Hwf.
  unfold calculateBetweennessCentrality.
  set (zero := fold_left (fun b node => obj_set b node (JFin 0))
                 (Graph.nodes g) []).
  assert (Hzero : finite_table zero (Graph.nodes g)).
  { destruct (init_const 0 (Graph.nodes g) []) as [Hf [_ Hk]].
    split; [| exact Hf]. fold zero in Hk. rewrite Hk.
    now apply fold_set_add_NoDup. }
  assert (Hinner : forall source l b,
             In source (Graph.nodes g) -> finite_table b (Graph.nodes g) ->
             exists b', ofold (count_paths g source) l b = Ok b' /\
                        finite_table b' (Graph.nodes g)).
  { intros source l. induction l as [| target r IH]; intros b Hs Hb; simpl.
    - now exists b.
    - unfold count_paths at 1.
      destruct (negb (String.eqb source target)).
      + destruct (findShortestPaths_ok g source target 3 Hwf Hs)
          as [found [Hfound Hin]].
        rewrite Hfound. simpl. apply IH; [assumption |].
        now apply count_paths_finite.
      + simpl. now apply IH. }
  assert (Houter : forall l b,
             (forall n, In n l -> In n (Graph.nodes g)) ->
             finite_table b (Graph.nodes g) ->
             exists b',
               ofold (fun b source =>
                        ofold (count_paths g source) (Graph.nodes g) b)
                 l b = Ok b' /\
               finite_table b' (Graph.nodes g)).
  { induction l as [| source r IH]; intros b Hsub Hb; simpl.
    - now exists b.
    - destruct (Hinner source (Graph.nodes g) b) as [b1 [H1 Hb1]];
        [apply Hsub; now left | assumption |].
      rewrite H1. simpl.
      apply IH; [intros; apply Hsub; now right | assumption]. }
  destruct (Houter (Graph.nodes g) zero) as [counted [Hc Hcounted]];
    [auto | assumption |].
  rewrite Hc. cbn [obind].
  rewrite (finite_table_values counted _ Hnd Hcounted).
  destruct (Math_max_finite (map (qat counted) (Graph.nodes g)))
    as [-> | [m ->]].
  - simpl. now exists counted.
  - destruct (jgt (JFin m) (JFin 0)) eqn:Hgt; [| now exists counted].
    eexists. split; [reflexivity |].
    assert (Hm : Qzero m = false).
    { simpl in Hgt. apply negb_true_iff in Hgt.
      apply Qzero_false. intros E. rewrite E in Hgt. discriminate Hgt. }
    destruct Hcounted as [Hk Hf]. rewrite Hk.
    assert (Hfold : forall l b,
               (forall n, In n l -> In n (Graph.nodes g)) ->
               finite_table b (Graph.nodes g) ->
               finite_table
                 (fold_left
                    (fun b node =>
                       obj_set b node (jdiv (num_at b node) (JFin m)))
                    l b)
                 (Graph.nodes g)).
    { induction l as [| n r IH]; intros b Hsub Hb; simpl; [assumption |].
      apply IH; [intros; apply Hsub; now right |].
      assert (Hn : In n (Graph.nodes g)) by (apply Hsub; now left).
      destruct Hb as [Hbk Hbf].
      rewrite (num_at_finite b _ n Hbf Hn). cbn [jdiv]. rewrite Hm. split.
      - rewrite obj_keys_set_present; [assumption | now rewrite Hbk].
      - now apply finite_on_set. }
    apply Hfold; [auto | now split].
Qed.

(** ** Connected components *)

Lemma unvisited_positive (nodes visited : list string) (n : string) :
  In n nodes -> str_in n visited = false -> 1 <= unvisited nodes visited.
Proof.
  intros Hin Hv. pose proof (unvisited_add nodes visited n Hin Hv). lia.
Qed.

(** With as much fuel as unvisited nodes, the traversal from an
    unvisited node returns, with fewer nodes left unvisited. *)
Lemma dfs_ok (g : Graph.t) (fuel : nat) :
  Graph.wf g ->
  forall node visited component,
    In node (Graph.nodes g) -> str_in node visited = false ->
    unvisited (Graph.nodes g) visited <= fuel ->
    exists visited' component',
      dfs fuel g node (visited, component) = Ok (visited', component') /\
      unvisited (Graph.nodes g) visited'
      <= unvisited (Graph.nodes g) visited.
Proof.
  intros Hwf. induction fuel as [| fuel IH];
    intros node visited component Hn Hv Hfuel.
  - pose proof (unvisited_positive _ _ _ Hn Hv). lia.
  - cbn [dfs fst snd].
    pose proof (unvisited_add _ _ _ Hn Hv) as Hadd.
    set (neighbors := Graph.adjacent g node ++ Graph.adjacentReverse g node).
    assert (Hnb : forall n, In n neighbors -> In n (Graph.nodes g)).
    { intros n H. apply in_app_or in H. destruct H as [H | H].
      - now apply (adjacent_nodes g node).
      - apply adjacentReverse_In in H. now apply Hwf in H. }
    clearbody neighbors.
    assert (Hloop : forall l st,
               (forall n, In n l -> In n (Graph.nodes g)) ->
               unvisited (Graph.nodes g) (fst st) <= fuel ->
               exists st',
                 ofold (fun st neighbor =>
                          if negb (str_in neighbor (fst st))
                          then dfs fuel g neighbor st else Ok st)
                   l st = Ok st' /\
                 unvisited (Graph.nodes g) (fst st')
                 <= unvisited (Graph.nodes g) (fst st)).
    { induction l as [| nb r IHl]; intros st Hsub Hst; simpl.
      - exists st. auto.
      - destruct (str_in nb (fst st)) eqn:Hvis; simpl.
        + apply IHl; [intros; apply Hsub; now right | assumption].
        + destruct st as [v c]. simpl in Hvis, Hst.
          destruct (IH nb v c) as [v1 [c1 [H1 Hle1]]];
            [apply Hsub; now left | assumption | assumption |].
          rewrite H1. simpl.
          destruct (IHl (v1, c1)) as [st2 [H2 Hle2]];
            [intros; apply Hsub; now right | simpl; lia |].
          exists st2. split; [assumption |]. simpl in *. lia. }
    destruct (Hloop neighbors (set_add visited node, component ++ [node]))
      as [[v' c'] [Hr Hle]]; [assumption | simpl; lia |].
    exists v', c'. split; [assumption |]. simpl in Hle. lia.
Qed.

Lemma findConnectedComponents_ok (g : Graph.t) :
  Graph.wf g -> exists report, findConnectedComponents g = Ok report.
Proof.
  intros Hwf. unfold findConnectedComponents.
  set (body := fun (st : list string * list (list string)) node => _).
  assert (H : forall l st,
             (forall n, In n l -> In n (Graph.nodes g)) ->
             exists st', ofold body l st = Ok st').
  { induction l as [| node r IH]; intros st Hsub; cbn [ofold].
    - now exists st.
    - unfold body at 1. destruct st as [visited components].
      destruct (str_in node visited) eqn:Hv; cbn [negb obind].
      + apply IH. intros; apply Hsub; now right.
      + destruct (dfs_ok g (S (List.length (Graph.nodes g))) Hwf
                    node visited []) as [v' [c' [Hd _]]].
        * apply Hsub; now left.
        * assumption.
        * pose proof (unvisited_le (Graph.nodes g) visited). lia.
        * rewrite Hd. cbn [obind]. apply IH. intros; apply Hsub; now right. }
  destruct (H (Graph.nodes g) ([], [])) as [st' Hst']; [auto |].
  rewrite Hst'. simpl. eexists. reflexivity.
Qed.

(** ** The metrics of a built graph *)

(** On an engine as a build leaves it, with at least one node, the
    metrics are computed; the degree tables are those of the graph, and
    the authority and betweenness tables give every node a finite
    number. *)
Lemma calculateNetworkMetrics_ok (e : Engine) :
  engine_ok e -> Graph.nodes (graph e) <> [] ->
  exists metrics,
    calculateNetworkMetrics e = Ok metrics /\
    c_inDegree (centrality metrics) = inDegree_table (graph e) /\
    c_authority (centrality metrics) = calculateAuthorityScore (graph e) /\
    finite_table (c_betweenness (centrality metrics)) (Graph.nodes (graph e)).
Proof.
  intros He Hne. unfold calculateNetworkMetrics.
  destruct (Nat.eqb_spec (List.length (Graph.nodes (graph e))) 0) as [H0 | _].
  { destruct (Graph.nodes (graph e)); [congruence | discriminate]. }
  unfold calculateCentralityMetrics.
  destruct (calculateBetweennessCentrality_ok (graph e) (proj1 He))
    as [b [Hb Hfin]].
  rewrite Hb. cbn [obind].
  destruct (findConnectedComponents_ok (graph e) (proj1 He)) as [cr Hcr].
  rewrite Hcr. cbn [obind].
  destruct (detectCommunities_ok e He) as [report [Hrep _]].
  rewrite Hrep. cbn [obind].
  eexists. split; [reflexivity |]. simpl. auto.
Qed.

(** ** Seminal papers *)

(** A stable sort by a comparator that decides a relation puts the list
    in the order of the relation. *)
Lemma sort_insert_sorted {A : Type} (before : A -> A -> bool)
    (R : A -> A -> Prop) (x : A) (l : list A) :
  (forall b, In b l -> if before x b then R x b else R b x) ->
  Sorted R l -> Sorted R (sort_insert before x l).
Proof.
  induction l as [| y r IH]; intros Hx Hs; simpl.
  - repeat constructor.
  - pose proof (Hx y (or_introl eq_refl)) as Hxy.
    destruct (before x y) eqn:E.
    + constructor; [assumption | now constructor].
    + apply Sorted_inv in Hs. destruct Hs as [Hs Hhd].
      constructor.
      * apply IH; [intros; apply Hx; now right | assumption].
      * destruct r as [| z r']; simpl.
        -- now constructor.
        -- destruct (before x z); constructor; [assumption |].
           now apply HdRel_inv in Hhd.
Qed.

Lemma js_sort_sorted {A : Type} (before : A -> A -> bool)
    (R : A -> A -> Prop) (l : list A) :
  (forall a b, In a l -> In b l -> if before a b then R a b else R b a) ->
  Sorted R (js_sort before l).
Proof.
  induction l as [| x r IH]; intros H; simpl; [constructor |].
  apply sort_insert_sorted.
  - intros b Hb. apply js_sort_In in Hb. apply H; [now left | now right].
  - apply IH. intros a b Ha Hb. apply H; now right.
Qed.

Lemma firstn_In {A : Type} (n : nat) (l : list A) (x : A) :
  In x (firstn n l) -> In x l.
Proof.
  intros H. rewrite <- (firstn_skipn n l). apply in_or_app. now left.
Qed.

Lemma StronglySorted_firstn {A : Type} (R : A -> A -> Prop) (n : nat)
    (l : list A) :
  StronglySorted R l -> StronglySorted R (firstn n l).
Proof.
  revert l. induction n as [| n IH]; intros l H; simpl; [constructor |].
  destruct l as [| x r]; [constructor |].
  apply StronglySorted_inv in H. destruct H as [Hs Hall].
  constructor; [now apply IH |].
  rewrite Forall_forall in *. intros y Hy. apply Hall.
  now apply (firstn_In n).
Qed.

Lemma score_ge_trans (x y z : SeminalPaper) :
  score_ge x y -> score_ge y z -> score_ge x z.
Proof.
  intros [qx [qy [Hx [Hy Hxy]]]] [qy' [qz [Hy' [Hz Hyz]]]].
  rewrite Hy in Hy'. injection Hy' as <-.
  exists qx, qz. split; [assumption |]. split; [assumption |].
  eapply Qle_trans; eassumption.
Qed.

Lemma score_before_decides (x y : SeminalPaper) (qx qy : Q) :
  seminalScore x = JFin qx -> seminalScore y = JFin qy ->
  if score_before x y then score_ge x y else score_ge y x.
Proof.
  intros Hx Hy. unfold score_before. rewrite Hx, Hy. cbn [jneg jadd jgt].
  rewrite negb_involutive.
  destruct (Qle_bool (qy + - qx) 0) eqn:E.
  - exists qx, qy. split; [assumption |]. split; [assumption |].
    apply Qle_bool_iff in E. lra.
  - exists qy, qx. split; [assumption |]. split; [assumption |].
    destruct (Qlt_le_dec qx qy) as [Hlt | Hle]; [now apply Qlt_le_weak |].
    assert (Hc : Qle_bool (qy + - qx) 0 = true) by (apply Qle_bool_iff; lra).
    congruence.
Qed.

Section Seminal.

Variable e : Engine.
Hypothesis He : engine_ok e.
Variable metrics : NetworkMetrics.
Variables (minCitations : Q) (minAge currentYear : Z).

(** The loop over the nodes collects the candidate records of the
    papers that pass the test, in the order of the nodes. *)
Lemma consider_nodes (l : list string) (acc : list SeminalPaper) :
  (forall n, In n l -> In n (Graph.nodes (graph e))) ->
  exists ps,
    map id ps = l /\
    (forall p, In p ps -> obj_get (paperNodes e) (id p) = Some p) /\
    ofold (consider e metrics minCitations minAge currentYear) l acc
    = Ok (acc ++
          map (candidate_of metrics)
            (filter (is_candidate minCitations minAge currentYear) ps)).
Proof.
  revert acc. induction l as [| n r IH]; intros acc Hsub.
  - exists []. simpl. rewrite app_nil_r.
    split; [reflexivity |]. split; [intros p [] | reflexivity].
  - destruct He as [_ Hp].
    destruct (Hp n (Hsub n (or_introl eq_refl))) as [p [Hget Hid]].
    cbn [ofold]. unfold consider at 1. rewrite Hget. cbn [defined obind].
    destruct (is_candidate minCitations minAge currentYear p) eqn:Hc;
      cbn [obind].
    + destruct (IH (acc ++ [candidate_of metrics p])) as [ps [Hm [Hg Hf]]];
        [intros; apply Hsub; now right |].
      exists (p :: ps). split; [simpl; now rewrite Hid, Hm |].
      split.
      * intros p' [<- | Hp']; [now rewrite Hid | now apply Hg].
      * assert (Hrec : candidate_of metrics p
                       = {| paper := p;
                            seminalScore :=
                              seminal_score p
                                (obj_get (c_inDegree (centrality metrics)) n)
                                (obj_get (c_authority (centrality metrics)) n)
                                (obj_get (c_betweenness (centrality metrics))
                                   n);
                            networkMetrics :=
                              {| nm_inDegree :=
                                   obj_get (c_inDegree (centrality metrics)) n;
                                 nm_authority :=
                                   obj_get (c_authority (centrality metrics))
                                     n;
                                 nm_betweenness :=
                                   obj_get
                                     (c_betweenness (centrality metrics)) n
                              |} |})
          by (unfold candidate_of; now rewrite Hid).
        rewrite <- Hrec, Hf. simpl. rewrite Hc. simpl.
        now rewrite <- app_assoc.
    + destruct (IH acc) as [ps [Hm [Hg Hf]]];
        [intros; apply Hsub; now right |].
      exists (p :: ps). split; [simpl; now rewrite Hid, Hm |].
      split.
      * intros p' [<- | Hp']; [now rewrite Hid | now apply Hg].
      * rewrite Hf. simpl. now rewrite Hc.
Qed.

End Seminal.

(** The score of a candidate whose three metrics are finite numbers. *)
Lemma seminal_score_finite (p : PaperNode) (d : nat) (a b : Q) :
  exists q,
    seminal_score p (Some d) (Some (JFin a)) (Some (JFin b)) = JFin q /\
    (q == citationCount p * (3 # 10) + impactScore p * (2 # 10)
          + qnat d * (2 # 10) + a * 100 * (2 # 10) + b * 100 * (1 # 10))%Q.
Proof.
  unfold seminal_score. cbn [num_of num_of_count jnat jmul jadd].
  eexists. split; [reflexivity |]. unfold qnat. reflexivity.
Qed.

(** The record of a paper node of a built graph has the in-degree of
    the node and finite authority and betweenness; its score is the
    weighted sum of the five quantities. *)
Lemma candidate_of_node (e : Engine) (metrics : NetworkMetrics)
    (p : PaperNode) :
  Graph.wf (graph e) -> Graph.nodes (graph e) <> [] ->
  c_inDegree (centrality metrics) = inDegree_table (graph e) ->
  c_authority (centrality metrics) = calculateAuthorityScore (graph e) ->
  finite_table (c_betweenness (centrality metrics)) (Graph.nodes (graph e)) ->
  In (id p) (Graph.nodes (graph e)) ->
  let sp := candidate_of metrics p in
  exists a b q,
    nm_inDegree (networkMetrics sp)
    = Some (Graph.indegree (graph e) (id p)) /\
    nm_authority (networkMetrics sp) = Some (JFin a) /\
    nm_betweenness (networkMetrics sp) = Some (JFin b) /\
    seminalScore sp = JFin q /\
    (q == citationCount p * (3 # 10) + impactScore p * (2 # 10)
          + qnat (Graph.indegree (graph e) (id p)) * (2 # 10)
          + a * 100 * (2 # 10) + b * 100 * (1 # 10))%Q.
Proof.
  intros Hwf Hne Hin Hau [_ Hbe] Hp sp.
  destruct (authority_finite (graph e) 10 (85 # 100) Hwf Hne) as [_ Hfa].
  destruct (Hfa _ Hp) as [a Ha]. destruct (Hbe _ Hp) as [b Hb].
  assert (Hd : obj_get (c_inDegree (centrality metrics)) (id p)
               = Some (Graph.indegree (graph e) (id p))).
  { rewrite Hin. unfold inDegree_table.
    now rewrite (obj_get_fill (Graph.indegree (graph e))). }
  fold (calculateAuthorityScore (graph e)) in Ha. rewrite <- Hau in Ha.
  destruct (seminal_score_finite p (Graph.indegree (graph e) (id p)) a b)
    as [q [Hq Hq']].
  exists a, b, q. unfold sp, candidate_of. cbn [networkMetrics nm_inDegree
    nm_authority nm_betweenness seminalScore].
  rewrite Hd, Ha, Hb. auto.
Qed.

Lemma candidate_of_paper (metrics : NetworkMetrics) (p : PaperNode) :
  paper (candidate_of metrics p) = p.
Proof. reflexivity. Qed.

Lemma is_candidate_spec (minCitations : Q) (minAge currentYear : Z)
    (p : PaperNode) :
  is_candidate minCitations minAge currentYear p = true <->
  (minCitations <= citationCount p)%Q /\
  (minAge <= currentYear - getFullYear (publishedDate p))%Z.
Proof.
  unfold is_candidate. now rewrite andb_true_iff, Qle_bool_iff, Z.leb_le.
Qed.


(** ** What a build leaves in the engine *)

Lemma Set_of_length (l : list string) :
  List.length (Set_of l) <= List.length l.
Proof.
  pose proof (Set_of_acc_length l []) as H. exact H.
Qed.

Lemma add_paper_keys (papers : list PaperDoc) (e : Engine) :
  obj_keys (paperNodes (fold_left add_paper papers e))
  = fold_left set_add (map doc_id papers) (obj_keys (paperNodes e)).
Proof.
  revert e. induction papers as [| p r IH]; intros e; simpl; [reflexivity |].
  rewrite IH. simpl. now rewrite obj_keys_set.
Qed.

Lemma add_citation_paperNodes (cs : list CitationDoc) (e : Engine) :
  paperNodes (fold_left add_citation cs e) = paperNodes e.
Proof.
  revert e. induction cs as [| c r IH]; intros e; simpl; [reflexivity |].
  rewrite IH. unfold add_citation.
  now destruct (Graph.hasNode (graph e) (citingPaper c)
                && Graph.hasNode (graph e) (citedPaper c)).
Qed.

(** An entry of a table filled from a list was there before or comes
    from an element of the list. *)
Lemma fill_In {A V : Type} (key : A -> string) (val : A -> V)
    (l : list A) (t : obj V) (k : string) (v : V) :
  In (k, v) (fold_left (fun t a => obj_set t (key a) (val a)) l t) ->
  In (k, v) t \/ exists a, In a l /\ v = val a.
Proof.
  revert t. induction l as [| a r IH]; intros t H; simpl in H; [now left |].
  apply IH in H. destruct H as [H | [a' [Ha' Hv]]].
  - assert (Hs : forall (t : obj V) k0 v0,
               In (k, v) (obj_set t k0 v0) -> In (k, v) t \/ v = v0).
    { clear. induction t as [| [k1 v1] r IH]; intros k0 v0 H; simpl in H.
      - destruct H as [[= _ <-] | []]. now right.
      - destruct (String.eqb k1 k0).
        + destruct H as [[= <- <-] | H]; [now right | left; now right].
        + destruct H as [H | H]; [left; now left |].
          apply IH in H. destruct H; [left; now right | now right]. }
    apply Hs in H. destruct H as [H | ->]; [now left |].
    right. exists a. split; [now left | reflexivity].
  - right. exists a'. split; [now right | assumption].
Qed.

Lemma buildCitationNetwork_edges_ok (options : BuildOptions) (s : Store) :
  edges_ok (snd (buildCitationNetwork options s)).
Proof.
  destruct (build_contents options s) as [Hn [_ Hc]]. cbv zeta in *.
  intros ce Hce. rewrite Hc in Hce. unfold obj_values in Hce.
  apply in_map_iff in Hce. destruct Hce as [[k v] [<- Hin]]. cbn [snd].
  apply fill_In in Hin. destruct Hin as [[] | [c [Hc' ->]]].
  apply Citation_find_accepted in Hc'. rewrite Hn, !Set_of_In. exact Hc'.
Qed.


(** ** The degree distribution *)

Lemma count_incr_size (t : list (nat * nat)) (k : nat) :
  distribution_size (count_incr t k) = S (distribution_size t).
Proof.
  unfold distribution_size. induction t as [| [k' c] r IH]; simpl.
  - reflexivity.
  - destruct (k' =? k); simpl; [lia |].
    destruct (k <? k'); simpl; [lia | rewrite IH; lia].
Qed.

Lemma count_incr_weight (t : list (nat * nat)) (k : nat) :
  distribution_weight (count_incr t k) = k + distribution_weight t.
Proof.
  unfold distribution_weight. induction t as [| [k' c] r IH]; simpl.
  - lia.
  - destruct (Nat.eqb_spec k' k) as [-> | Hne]; simpl; [lia |].
    destruct (k <? k'); simpl; [lia | rewrite IH; lia].
Qed.

Lemma distribution_of_list (l : list nat) (t : list (nat * nat)) :
  distribution_size (fold_left count_incr l t)
  = List.length l + distribution_size t /\
  distribution_weight (fold_left count_incr l t)
  = nat_sum l + distribution_weight t.
Proof.
  revert t. induction l as [| k r IH]; intros t; simpl.
  - split; reflexivity.
  - destruct (IH (count_incr t k)) as [Hs Hw].
    rewrite Hs, Hw, count_incr_size, count_incr_weight, nat_sum_cons.
    split; lia.
Qed.

(** X2. After a build, each of the two degree distributions counts
    every node once, and its degrees weighted by their counts add up to
    the number of edges. *)
Theorem degree_distribution_counts_nodes_and_edges
    (options : BuildOptions) (s : Store) :
  let e := snd (buildCitationNetwork options s) in
  let m := calculateBasicMetrics e in
  distribution_size (dd_inDegree (degreeDistribution m)) = nodeCount m /\
  distribution_size (dd_outDegree (degreeDistribution m)) = nodeCount m /\
  distribution_weight (dd_inDegree (degreeDistribution m)) = edgeCount m /\
  distribution_weight (dd_outDegree (degreeDistribution m)) = edgeCount m.
Proof.
  intros e m.
  destruct (buildCitationNetwork_ok options s) as [Hwf _]. fold e in Hwf.
  unfold m, calculateBasicMetrics, calculateDegreeDistribution.
  cbn [degreeDistribution dd_inDegree dd_outDegree nodeCount edgeCount].
  destruct (distribution_of_list
              (map (Graph.indegree (graph e)) (Graph.nodes (graph e))) [])
    as [Hs1 Hw1].
  destruct (distribution_of_list
              (map (Graph.outdegree (graph e)) (Graph.nodes (graph e))) [])
    as [Hs2 Hw2].
  rewrite Hs1, Hs2, Hw1, Hw2, !length_map.
  rewrite indegree_sum, outdegree_sum by assumption.
  unfold distribution_size, distribution_weight. simpl.
  repeat split; lia.
Qed.

(** ** The tables of the metrics *)

Lemma clustering_range_sum (qs : list Q) :
  (forall q, In q qs -> 0 <= q /\ q <= 1)%Q ->
  (0 <= Qsum qs /\ Qsum qs <= qnat (List.length qs))%Q.
Proof.
  unfold Qsum. induction qs as [| q r IH]; intros H.
  - simpl. unfold qnat. simpl. split; apply Qle_refl.
  - cbn [fold_left List.length]. rewrite Qsum_shift, qnat_S.
    destruct (H q (or_introl eq_refl)) as [H0 H1].
    destruct IH as [IH0 IH1]; [intros; apply H; now right |].
    split; lra.
Qed.

(** X3. After a build, [calculateNetworkMetrics] throws the error that
    asks for a build when the graph has no node, and returns otherwise;
    the five tables it returns (in-degree, out-degree, betweenness,
    authority, local clustering) then have exactly the nodes of the
    graph as keys, in the order of the nodes, and the node and edge
    counts are those of the graph. *)
Theorem metrics_tables_are_keyed_by_the_nodes
    (options : BuildOptions) (s : Store) :
  let e := snd (buildCitationNetwork options s) in
  match Graph.nodes (graph e) with
  | [] => calculateNetworkMetrics e = Throw not_built
  | _ :: _ =>
      exists metrics,
        calculateNetworkMetrics e = Ok metrics /\
        nodeCount (basic metrics) = List.length (Graph.nodes (graph e)) /\
        edgeCount (basic metrics) = List.length (Graph.edges (graph e)) /\
        obj_keys (c_inDegree (centrality metrics)) = Graph.nodes (graph e) /\
        obj_keys (c_outDegree (centrality metrics)) = Graph.nodes (graph e) /\
        obj_keys (c_betweenness (centrality metrics))
        = Graph.nodes (graph e) /\
        obj_keys (c_authority (centrality metrics)) = Graph.nodes (graph e) /\
        obj_keys (cl_local (clustering metrics)) = Graph.nodes (graph e)
  end.
Proof.
  intros e. pose proof (buildCitationNetwork_ok options s) as He. fold e in He.
  destruct (Graph.nodes (graph e)) as [| n0 rest] eqn:Hnodes.
  - unfold calculateNetworkMetrics. now rewrite Hnodes.
  - assert (Hne : Graph.nodes (graph e) <> [])
      by (rewrite Hnodes; discriminate).
    assert (Hnd : NoDup (Graph.nodes (graph e))) by apply He.
    rewrite <- Hnodes.
    unfold calculateNetworkMetrics.
    destruct (Nat.eqb_spec (List.length (Graph.nodes (graph e))) 0)
      as [H0 | _].
    { destruct (Graph.nodes (graph e)); [congruence | discriminate]. }
    unfold calculateCentralityMetrics.
    destruct (calculateBetweennessCentrality_ok (graph e) (proj1 He))
      as [b [Hb [Hbk _]]].
    rewrite Hb. cbn [obind].
    destruct (findConnectedComponents_ok (graph e) (proj1 He)) as [cr Hcr].
    rewrite Hcr. cbn [obind].
    destruct (detectCommunities_ok e He) as [report [Hrep _]].
    rewrite Hrep. cbn [obind].
    destruct (authority_finite (graph e) 10 (85 # 100) (proj1 He) Hne)
      as [Hak _].
    eexists. split; [reflexivity |].
    cbn [basic centrality clustering c_inDegree c_outDegree c_betweenness
         c_authority].
    split; [reflexivity |]. split; [reflexivity |].
    unfold inDegree_table, outDegree_table, calculateClusteringMetrics.
    cbn [cl_local].
    rewrite !obj_keys_fill. simpl obj_keys.
    rewrite !fold_set_add_NoDup by assumption. simpl.
    repeat split; assumption.
Qed.

(** X20. After a build that leaves a node in the graph, the global
    clustering value is a number between 0 and 1. *)
Theorem global_clustering_range (options : BuildOptions) (s : Store) :
  let e := snd (buildCitationNetwork options s) in
  let cm := calculateClusteringMetrics e in
  match Graph.nodes (graph e) with
  | [] => cl_global cm = JNaN
  | _ :: _ => exists q, jeq (cl_global cm) (JFin q) /\ (0 <= q)%Q /\ (q <= 1)%Q
  end.
Proof.
  intros e cm.
  destruct (buildCitationNetwork_ok options s) as [[Hnd _] _].
  fold e in Hnd.
  assert (Hqs : exists qs,
             map (local_clustering (graph e)) (Graph.nodes (graph e))
             = map JFin qs /\
             List.length qs = List.length (Graph.nodes (graph e)) /\
             forall q, In q qs -> (0 <= q /\ q <= 1)%Q).
  { clear. induction (Graph.nodes (graph e)) as [| n r IH]; simpl.
    - exists []. split; [reflexivity |]. split; [reflexivity |].
      intros q' [].
    - destruct IH as [qs [Hm [Hl Hr]]].
      destruct (local_clustering_range (graph e) n) as [q [Hq [H0 [H1 _]]]].
      exists (q :: qs). simpl. rewrite Hq, Hm, Hl.
      split; [reflexivity |]. split; [reflexivity |].
      intros q' [<- | Hq']; [now split | now apply Hr]. }
  destruct Hqs as [qs [Hm [Hl Hr]]].
  unfold cm, calculateClusteringMetrics. cbn [cl_global].
  rewrite fill_nodes_values by assumption. rewrite Hm.
  destruct (jsum_finite qs) as [t [Ht Ht']]. rewrite Ht.
  destruct (Graph.nodes (graph e)) as [| n0 rest] eqn:Hnodes.
  - destruct qs; [| discriminate]. simpl in Ht. injection Ht as <-.
    reflexivity.
  - rewrite <- Hl.
    assert (Hpos : 0 < List.length qs) by (rewrite Hl; simpl; lia).
    rewrite (jdiv_by_count _ _ Hpos).
    exists (t / qnat (List.length qs))%Q. split; [simpl; reflexivity |].
    destruct (clustering_range_sum qs Hr) as [H0 H1].
    pose proof (qnat_pos _ Hpos) as Hq. rewrite <- Ht' in H0, H1.
    split.
    + apply Qle_shift_div_l; [assumption | lra].
    + apply Qle_shift_div_r; [assumption | lra].
Qed.

(** ** The paths of a search *)

Lemma chain_snoc (g : Graph.t) (path : list string) (n : string) :
  chain g path -> In n (Graph.adjacent g (last path EmptyString)) ->
  chain g (path ++ [n]).
Proof.
  induction path as [| a r IH]; intros Hc Hn; [exact I |].
  destruct r as [| b r'].
  - simpl. split; [assumption | exact I].
  - destruct Hc as [Hab Hc]. split; [assumption |].
    apply IH; assumption.
Qed.

Lemma NoDup_snoc (path : list string) (n : string) :
  NoDup path -> ~ In n path -> NoDup (path ++ [n]).
Proof.
  intros Hnd Hn. induction Hnd as [| a r Ha Hnd IH]; simpl.
  - constructor; [intros [] | constructor].
  - constructor.
    + intros H. apply in_app_or in H. destruct H as [H | [<- | []]].
      * contradiction.
      * apply Hn. now left.
    + apply IH. intros H. apply Hn. now right.
Qed.

Lemma trail_extend (g : Graph.t) (source : string) (path : list string)
    (n : string) :
  trail g source path -> List.length path <= 5 ->
  In n (Graph.adjacent g (last path EmptyString)) -> ~ In n path ->
  trail g source (path ++ [n]).
Proof.
  intros [Hhd [Hnd [Hc _]]] Hlen Hadj Hn. repeat split.
  - destruct path; [discriminate | exact Hhd].
  - now apply NoDup_snoc.
  - now apply chain_snoc.
  - rewrite length_app. simpl. lia.
Qed.

Lemma findShortestPaths_loop_trails (g : Graph.t) (source target : string)
    (maxPaths : nat) (fuel : nat) :
  forall paths queue visited,
    queue_weight (S (List.length (Graph.links g))) queue < fuel ->
    List.length paths <= maxPaths ->
    (forall p, In p paths ->
       trail g source p /\ last p EmptyString = target) ->
    (forall p, In p queue -> trail g source p) ->
    exists found,
      findShortestPaths_loop fuel g target maxPaths paths queue visited
      = Ok found /\
      List.length found <= maxPaths /\
      forall p, In p found ->
        trail g source p /\ last p EmptyString = target.
Proof.
  induction fuel as [| fuel IH];
    intros paths queue visited Hfuel Hmax Hpaths Hqueue; [lia |].
  cbn [findShortestPaths_loop].
  destruct queue as [| path rest]; [now exists paths |].
  destruct (Nat.ltb_spec (List.length paths) maxPaths) as [Hlt | _];
    [| now exists paths].
  assert (Hrest : forall p, In p rest -> trail g source p)
    by (intros p Hp; apply Hqueue; now right).
  assert (Hpath : trail g source path) by (apply Hqueue; now left).
  cbn [queue_weight fold_right] in Hfuel.
  fold (queue_weight (S (List.length (Graph.links g))) rest) in Hfuel.
  pose proof (path_weight_pos (S (List.length (Graph.links g))) path
                ltac:(lia)) as Hpos.
  destruct (String.eqb_spec (last path EmptyString) target) as [Heq | _].
  - apply IH; [lia | | | assumption].
    + rewrite length_app. simpl. lia.
    + intros p Hp. apply in_app_or in Hp.
      destruct Hp as [Hp | [<- | []]]; [now apply Hpaths | now split].
  - destruct (Nat.ltb_spec 5 (List.length path)) as [Hlong | Hshort].
    + apply IH; [lia | assumption | assumption | assumption].
    + destruct (str_in (join "-" path) visited).
      * apply IH; [lia | assumption | assumption | assumption].
      * apply IH; [| assumption | assumption |].
        -- rewrite queue_weight_app.
           pose proof (extension_weight g path (last path EmptyString)
                         Hshort) as Hext.
           cbv zeta in Hext. lia.
        -- intros p Hp. apply in_app_or in Hp.
           destruct Hp as [Hp | Hp]; [now apply Hrest |].
           apply in_map_iff in Hp. destruct Hp as [nb [<- Hnb]].
           apply filter_In in Hnb. destruct Hnb as [Hnb Hfresh].
           apply negb_true_iff, str_in_false in Hfresh.
           now apply trail_extend.
Qed.

(** X4. For every graph, source, target and bound, the search for paths
    returns; it returns at most [maxPaths] paths, and each of them starts
    at the source, ends at the target, repeats no node, follows an edge
    of the graph at every step and has at most six nodes. *)
Theorem findShortestPaths_returns_simple_paths (g : Graph.t)
    (source target : string) (maxPaths : nat) :
  exists found,
    findShortestPaths g source target maxPaths = Ok found /\
    List.length found <= maxPaths /\
    forall path, In path found ->
      hd_error path = Some source /\
      last path EmptyString = target /\
      NoDup path /\
      chain g path /\
      List.length path <= 6.
Proof.
  unfold findShortestPaths, paths_fuel.
  destruct (findShortestPaths_loop_trails g source target maxPaths
              (S (S (List.length (Graph.links g)) ^ 5)) [] [[source]] [])
    as [found [Hf [Hlen Hall]]].
  - simpl. unfold path_weight. simpl List.length.
    change (6 - 1) with 5. lia.
  - simpl. lia.
  - intros p [].
  - intros p [<- | []]. repeat split; simpl; try lia.
    constructor; [intros [] | constructor].
  - exists found. split; [assumption |]. split; [assumption |].
    intros path Hin. destruct (Hall path Hin) as [[H1 [H2 [H3 H4]]] H5].
    repeat split; assumption.
Qed.

(** ** The range of the betweenness *)

Lemma interior_chain (g : Graph.t) (path : list string) (k : string) :
  chain g path -> In k (interior path) -> passable g k.
Proof.
  unfold interior. destruct path as [| a r]; [intros _ [] |].
  cbn [tl]. revert a. induction r as [| b r' IH]; intros a Hc Hk;
    [destruct Hk |].
  destruct r' as [| c r'']; [destruct Hk |].
  destruct Hc as [Hab Hc].
  cbn [removelast] in Hk. destruct Hk as [<- | Hk].
  - destruct Hc as [Hbc _]. unfold passable, Graph.indegree, Graph.outdegree.
    apply adjacent_In, adjacentReverse_In in Hab.
    split.
    + destruct (Graph.adjacentReverse g b); [destruct Hab | simpl; lia].
    + destruct (Graph.adjacent g b); [destruct Hbc | simpl; lia].
  - apply (IH b); assumption.
Qed.

Lemma incr_at_between (g : Graph.t) (b : obj jsnum) (k : string) :
  between_inv g b -> In k (Graph.nodes g) -> passable g k ->
  between_inv g (incr_at b k).
Proof.
  intros [Hft Hq] Hin Hp. split; [now apply incr_at_finite |].
  intros n Hn. unfold incr_at.
  rewrite (num_at_finite b _ k (proj2 Hft) Hin). cbn [jadd].
  destruct (string_dec k n) as [-> | Hne].
  - rewrite qat_set_same. destruct (Hq n Hn) as [H0 _]. split.
    + lra.
    + intros Hnp. contradiction.
  - rewrite qat_set_other by assumption. now apply Hq.
Qed.

Lemma count_paths_between (g : Graph.t) (paths : list (list string))
    (b : obj jsnum) :
  paths_in g paths -> (forall p, In p paths -> chain g p) ->
  between_inv g b ->
  between_inv g
    (fold_left (fun b path => fold_left incr_at (interior path) b) paths b).
Proof.
  revert b. induction paths as [| path r IH]; intros b Hp Hc Hb; simpl;
    [assumption |].
  apply IH; [intros p Hin; apply Hp; now right
            | intros p Hin; apply Hc; now right |].
  assert (Hi : forall n, In n (interior path) ->
                 In n (Graph.nodes g) /\ passable g n).
  { intros n Hn. split.
    - apply (Hp path (or_introl eq_refl)). now apply interior_In.
    - apply (interior_chain g path); [apply Hc; now left | assumption]. }
  clear IH Hp Hc. revert b Hb.
  induction (interior path) as [| k ks IHk]; intros b Hb; simpl;
    [assumption |].
  apply IHk; [intros; apply Hi; now right |].
  destruct (Hi k (or_introl eq_refl)). now apply incr_at_between.
Qed.

Lemma findShortestPaths_chains (g : Graph.t) (source target : string)
    (maxPaths : nat) (found : list (list string)) :
  findShortestPaths g source target maxPaths = Ok found ->
  forall p, In p found -> chain g p.
Proof.
  unfold findShortestPaths, paths_fuel. intros Hfound.
  destruct (findShortestPaths_loop_trails g source target maxPaths
              (S (S (List.length (Graph.links g)) ^ 5)) [] [[source]] [])
    as [found' [Hf [_ Hall]]].
  - simpl. unfold path_weight. simpl List.length.
    change (6 - 1) with 5. lia.
  - simpl. lia.
  - intros p [].
  - intros p [<- | []]. repeat split; simpl; try lia.
    constructor; [intros [] | constructor].
  - rewrite Hf in Hfound. injection Hfound as <-.
    intros p Hp. apply (Hall p Hp).
Qed.

(** The largest of a list of finite numbers bounds each of them. *)
Lemma fold_jmax_bounds (l : list Q) (a : Q) :
  exists m, fold_left jmax (map JFin l) (JFin a) = JFin m /\
            (a <= m)%Q /\ forall q, In q l -> (q <= m)%Q.
Proof.
  revert a. induction l as [| q r IH]; intros a; simpl.
  - exists a. split; [reflexivity |]. split; [apply Qle_refl | intros q []].
  - destruct (Qle_bool q a) eqn:E; simpl.
    + apply Qle_bool_iff in E.
      destruct (IH a) as [m [Hm [Ha Hr]]]. exists m.
      split; [assumption |]. split; [assumption |].
      intros q' [<- | Hq']; [lra | now apply Hr].
    + assert (Hlt : (a < q)%Q).
      { apply Qnot_le_lt. intros Hle. apply Qle_bool_iff in Hle.
        congruence. }
      destruct (IH q) as [m [Hm [Ha Hr]]]. exists m.
      split; [assumption |]. split; [lra |].
      intros q' [<- | Hq']; [assumption | now apply Hr].
Qed.

Lemma Math_max_bounds (qs : list Q) :
  (qs = [] /\ Math_max (map JFin qs) = JNegInf) \/
  exists m, Math_max (map JFin qs) = JFin m /\
            forall q, In q qs -> (q <= m)%Q.
Proof.
  destruct qs as [| q r]; [left; now split | right].
  destruct (fold_jmax_bounds r q) as [m [Hm [Ha Hr]]].
  exists m. split; [exact Hm |].
  intros q' [<- | Hq']; [assumption | now apply Hr].
Qed.

(** Updating the entries of distinct keys, each from its own value. *)
Lemma update_each_other (f : jsnum -> jsnum) (l : list string)
    (b : obj jsnum) (k : string) :
  ~ In k l ->
  obj_get (fold_left (fun b n => obj_set b n (f (num_at b n))) l b) k
  = obj_get b k.
Proof.
  revert b. induction l as [| x r IH]; intros b Hk; simpl; [reflexivity |].
  rewrite IH by (intros H; apply Hk; now right).
  apply obj_get_set_other. intros ->. apply Hk. now left.
Qed.

Lemma update_each (f : jsnum -> jsnum) (l : list string) (b : obj jsnum)
    (k : string) :
  NoDup l -> In k l ->
  obj_get (fold_left (fun b n => obj_set b n (f (num_at b n))) l b) k
  = Some (f (num_at b k)).
Proof.
  intros Hnd. revert b. induction Hnd as [| x r Hx Hnd IH]; intros b Hk;
    [destruct Hk |].
  simpl. destruct (string_dec x k) as [-> | Hne].
  - rewrite update_each_other by assumption. apply obj_get_set_same.
  - destruct Hk as [-> | Hk]; [congruence |].
    rewrite IH by assumption. unfold num_at.
    now rewrite obj_get_set_other.
Qed.

Lemma update_each_keys (f : jsnum -> jsnum) (l : list string)
    (b : obj jsnum) :
  (forall n, In n l -> In n (obj_keys b)) ->
  obj_keys (fold_left (fun b n => obj_set b n (f (num_at b n))) l b)
  = obj_keys b.
Proof.
  revert b. induction l as [| x r IH]; intros b H; simpl; [reflexivity |].
  rewrite IH.
  - apply obj_keys_set_present. apply H. now left.
  - intros n Hn. rewrite obj_keys_set_present by (apply H; now left).
    apply H. now right.
Qed.

Lemma counted_between (g : Graph.t) :
  Graph.wf g ->
  exists counted,
    ofold (fun b source => ofold (count_paths g source) (Graph.nodes g) b)
      (Graph.nodes g)
      (fold_left (fun b node => obj_set b node (JFin 0)) (Graph.nodes g) [])
    = Ok counted /\
    between_inv g counted.
Proof.
  intros Hwf. assert (Hnd : NoDup (Graph.nodes g)) by apply Hwf.
  set (zero := fold_left (fun b node => obj_set b node (JFin 0))
                 (Graph.nodes g) []).
  assert (Hzero : between_inv g zero).
  { destruct (init_const 0 (Graph.nodes g) []) as [Hf [Hq Hk]].
    fold zero in Hf, Hq, Hk. split; [split |].
    - rewrite Hk. now apply fold_set_add_NoDup.
    - exact Hf.
    - intros n Hn. rewrite (Hq n Hn). split; [apply Qle_refl | reflexivity]. }
  assert (Hinner : forall source l b,
             In source (Graph.nodes g) -> between_inv g b ->
             exists b', ofold (count_paths g source) l b = Ok b' /\
                        between_inv g b').
  { intros source l. induction l as [| target r IH]; intros b Hs Hb; simpl.
    - now exists b.
    - unfold count_paths at 1.
      destruct (negb (String.eqb source target)).
      + destruct (findShortestPaths_ok g source target 3 Hwf Hs)
          as [found [Hfound Hin]].
        pose proof (findShortestPaths_chains g source target 3 found Hfound)
          as Hch.
        rewrite Hfound. simpl. apply IH; [assumption |].
        now apply count_paths_between.
      + simpl. now apply IH. }
  assert (Houter : forall l b,
             (forall n, In n l -> In n (Graph.nodes g)) ->
             between_inv g b ->
             exists b',
               ofold (fun b source =>
                        ofold (count_paths g source) (Graph.nodes g) b)
                 l b = Ok b' /\
               between_inv g b').
  { induction l as [| source r IH]; intros b Hsub Hb; simpl.
    - now exists b.
    - destruct (Hinner source (Graph.nodes g) b) as [b1 [H1 Hb1]];
        [apply Hsub; now left | assumption |].
      rewrite H1. simpl.
      apply IH; [intros; apply Hsub; now right | assumption]. }
  apply Houter; [auto | assumption].
Qed.

Lemma betweenness_of_wf (g : Graph.t) :
  Graph.wf g ->
  exists b,
    calculateBetweennessCentrality g = Ok b /\
    obj_keys b = Graph.nodes g /\
    forall n, In n (Graph.nodes g) ->
      exists q, obj_get b n = Some (JFin q) /\ (0 <= q)%Q /\ (q <= 1)%Q /\
                (~ passable g n -> (q == 0)%Q).
Proof.
  intros Hwf. assert (Hnd : NoDup (Graph.nodes g)) by apply Hwf.
  unfold calculateBetweennessCentrality.
  destruct (counted_between g Hwf) as [counted [Hc [[Hk Hf] Hq]]].
  rewrite Hc. cbn [obind].
  rewrite (finite_table_values counted _ Hnd (conj Hk Hf)).
  assert (Hget : forall n, In n (Graph.nodes g) ->
                   obj_get counted n = Some (JFin (qat counted n))).
  { intros n Hn. destruct (Hf n Hn) as [q Hq']. unfold qat.
    now rewrite Hq'. }
  destruct (Math_max_bounds (map (qat counted) (Graph.nodes g)))
    as [[Hnil ->] | [m [-> Hm]]].
  - simpl. exists counted. split; [reflexivity |]. split; [assumption |].
    intros n Hn. apply map_eq_nil in Hnil. rewrite Hnil in Hn. destruct Hn.
  - assert (Hle : forall n, In n (Graph.nodes g) -> (qat counted n <= m)%Q).
    { intros n Hn. apply Hm. now apply in_map. }
    destruct (jgt (JFin m) (JFin 0)) eqn:Hgt.
    + assert (Hpos : (0 < m)%Q).
      { simpl in Hgt. apply negb_true_iff in Hgt. apply Qnot_le_lt.
        intros Hle'. apply Qle_bool_iff in Hle'. congruence. }
      assert (Hz : Qzero m = false).
      { apply Qzero_false. intros E. rewrite E in Hpos.
        now apply Qlt_irrefl in Hpos. }
      eexists. split; [reflexivity |]. rewrite Hk. split.
      * rewrite (update_each_keys (fun v => jdiv v (JFin m)));
          [assumption | now rewrite Hk].
      * intros n Hn.
        rewrite (update_each (fun v => jdiv v (JFin m))) by assumption.
        rewrite (num_at_finite counted _ n Hf Hn). cbn [jdiv]. rewrite Hz.
        exists (qat counted n / m)%Q. split; [reflexivity |].
        destruct (Hq n Hn) as [H0 Hnp]. pose proof (Hle n Hn) as H1.
        split; [| split].
        -- apply Qle_shift_div_l; [assumption | lra].
        -- apply Qle_shift_div_r; [assumption | lra].
        -- intros Hn'. rewrite (Hnp Hn'). unfold Qdiv. ring.
    + assert (Hnonpos : (m <= 0)%Q).
      { simpl in Hgt. apply negb_false_iff in Hgt.
        now apply Qle_bool_iff. }
      exists counted. split; [reflexivity |]. split; [assumption |].
      intros n Hn. exists (qat counted n). split; [now apply Hget |].
      destruct (Hq n Hn) as [H0 Hnp]. pose proof (Hle n Hn) as H1.
      split; [assumption |]. split; [lra |].
      intros _. lra.
Qed.

(** X5. After a build, the betweenness of the graph is computed; its
    table has the nodes of the graph as keys, every value is a number
    between 0 and 1, and a node that no edge enters or no edge leaves
    has the value 0. *)
Theorem betweenness_range (options : BuildOptions) (s : Store) :
  let g := graph (snd (buildCitationNetwork options s)) in
  exists b,
    calculateBetweennessCentrality g = Ok b /\
    obj_keys b = Graph.nodes g /\
    forall n, In n (Graph.nodes g) ->
      exists q, obj_get b n = Some (JFin q) /\ (0 <= q)%Q /\ (q <= 1)%Q /\
                (Graph.indegree g n = 0 \/ Graph.outdegree g n = 0 ->
                 (q == 0)%Q).
Proof.
  intros g.
  destruct (buildCitationNetwork_ok options s) as [Hwf _]. fold g in Hwf.
  destruct (betweenness_of_wf g Hwf) as [b [Hb [Hk Hall]]].
  exists b. split; [assumption |]. split; [assumption |].
  intros n Hn. destruct (Hall n Hn) as [q [Hq [H0 [H1 Hz]]]].
  exists q. repeat split; try assumption.
  intros Hdeg. apply Hz. unfold passable. lia.
Qed.

(** ** Bounds of the authority scores *)

Lemma add_to_neighbors_mono (l : list string) (c : Q)
    (neighbors : list string) (ns : obj jsnum) :
  (forall n, In n neighbors -> In n l) -> finite_on ns l -> (0 <= c)%Q ->
  forall n,
    (qat ns n
     <= qat (fold_left
               (fun ns neighbor =>
                  obj_set ns neighbor (jadd (num_at ns neighbor) (JFin c)))
               neighbors ns) n)%Q.
Proof.
  intros Hsub Hfin Hc. revert ns Hfin.
  induction neighbors as [| nb r IH]; intros ns Hfin n; simpl.
  - apply Qle_refl.
  - assert (Hnb : In nb l) by (apply Hsub; now left).
    rewrite (num_at_finite ns l nb Hfin Hnb). cbn [jadd].
    eapply Qle_trans;
      [| apply IH; [intros; apply Hsub; now right | now apply finite_on_set]].
    destruct (string_dec nb n) as [-> | Hne].
    + rewrite qat_set_same. lra.
    + rewrite qat_set_other by assumption. apply Qle_refl.
Qed.

Lemma total_nonneg (t : obj jsnum) (l : list string) :
  nonneg_on t l -> (0 <= total t l)%Q.
Proof.
  induction l as [| x r IH]; intros H; simpl; [apply Qle_refl |].
  assert (0 <= qat t x)%Q by (apply H; now left).
  assert (0 <= total t r)%Q by (apply IH; intros n Hn; apply H; now right).
  unfold total in *. lra.
Qed.

Lemma qat_le_total (t : obj jsnum) (l : list string) (n : string) :
  nonneg_on t l -> In n l -> (qat t n <= total t l)%Q.
Proof.
  induction l as [| x r IH]; intros H Hn; [destruct Hn |].
  cbn [total fold_right]. fold (total t r).
  assert (H0 : (0 <= qat t x)%Q) by (apply H; now left).
  assert (Hr : nonneg_on t r) by (intros k Hk; apply H; now right).
  pose proof (total_nonneg t r Hr) as Ht.
  destruct Hn as [-> | Hn]; [lra |].
  specialize (IH Hr Hn). lra.
Qed.

Lemma passed_on_range (g : Graph.t) (scores : obj jsnum) (l : list string) :
  nonneg_on scores l ->
  (0 <= passed_on g scores l /\ passed_on g scores l <= total scores l)%Q.
Proof.
  induction l as [| x r IH]; intros H; simpl.
  - split; apply Qle_refl.
  - assert (H0 : (0 <= qat scores x)%Q) by (apply H; now left).
    destruct IH as [I0 I1]; [intros k Hk; apply H; now right |].
    unfold passed_on, total in *.
    destruct (0 <? Graph.outdegree g x); split; lra.
Qed.

Section AuthorityBounds.

Variable g : Graph.t.
Variable dampingFactor : Q.
Hypothesis Hwf : Graph.wf g.
Hypothesis Hne : Graph.nodes g <> [].
Hypothesis Hd0 : (0 <= dampingFactor)%Q.
Hypothesis Hd1 : (dampingFactor <= 1)%Q.

Lemma contributions_mono (scores : obj jsnum) (l : list string)
    (ns : obj jsnum) :
  (forall n, In n l -> In n (Graph.nodes g)) ->
  finite_on scores (Graph.nodes g) -> nonneg_on scores (Graph.nodes g) ->
  finite_on ns (Graph.nodes g) ->
  forall n,
    (qat ns n <= qat (fold_left (pass_on g dampingFactor scores) l ns) n)%Q.
Proof.
  intros Hsub Hs Hpos. revert ns Hsub.
  induction l as [| x r IH]; intros ns Hsub Hns n; cbn [fold_left].
  - apply Qle_refl.
  - assert (Hx : In x (Graph.nodes g)) by (apply Hsub; now left).
    assert (Hr : forall n, In n r -> In n (Graph.nodes g))
      by (intros; apply Hsub; now right).
    rewrite (pass_on_finite g dampingFactor scores ns x Hx Hs).
    destruct (Nat.ltb_spec 0 (Graph.outdegree g x)) as [Hout | _];
      [| now apply IH].
    set (c := (dampingFactor * qat scores x
               / qnat (Graph.outdegree g x))%Q).
    assert (Hc : (0 <= c)%Q).
    { unfold c. apply Qle_shift_div_l; [now apply qnat_pos |].
      rewrite Qmult_0_l. apply Qmult_le_0_compat; [assumption |].
      now apply Hpos. }
    assert (Hadj : forall n, In n (Graph.adjacent g x) ->
                     In n (Graph.nodes g))
      by (intros k Hk; now apply (adjacent_nodes g x)).
    eapply Qle_trans.
    + apply (add_to_neighbors_mono (Graph.nodes g) c (Graph.adjacent g x) ns
               Hadj Hns Hc n).
    + apply IH; [assumption |].
      apply (add_to_neighbors (Graph.nodes g) c (Graph.adjacent g x) ns);
        [apply Hwf | assumption | assumption].
Qed.

(** After an iteration every node has at least the share [(1 - d) / N]. *)
Lemma authority_step_floor (st : obj jsnum * obj jsnum) :
  authority_inv g st -> nonneg_on (fst st) (Graph.nodes g) ->
  forall n, In n (Graph.nodes g) ->
    ((1 - dampingFactor) / qnat (List.length (Graph.nodes g))
     <= qat (fst (authority_step g dampingFactor st)) n)%Q.
Proof.
  intros [Hk [Hf Hnk]] Hpos. destruct st as [scores newScores].
  simpl in Hk, Hf, Hnk, Hpos.
  assert (Hnd : NoDup (Graph.nodes g)) by apply Hwf.
  assert (HN : 0 < List.length (Graph.nodes g)).
  { destruct (Graph.nodes g); [congruence | simpl; lia]. }
  unfold authority_step. cbv beta iota zeta.
  rewrite (jdiv_by_count _ _ HN).
  set (c := ((1 - dampingFactor) / qnat (List.length (Graph.nodes g)))%Q).
  destruct (init_const c (Graph.nodes g) newScores) as [Hf0 [Hq0 Hk0]].
  set (ns0 := fold_left (fun ns node => obj_set ns node (JFin c))
                (Graph.nodes g) newScores) in *.
  rewrite (keys_of_nodes _ _ Hnd Hnk) in Hk0.
  destruct (contributions g dampingFactor Hwf scores (Graph.nodes g) ns0)
    as [Hf1 [Hk1 Ht1]]; try assumption; [auto |].
  pose proof (contributions_mono scores (Graph.nodes g) ns0
                ltac:(auto) Hf Hpos Hf0) as Hmono.
  set (ns1 := fold_left (pass_on g dampingFactor scores) (Graph.nodes g)
                ns0) in *.
  rewrite Hk0 in Hk1.
  intros n Hn. cbn [fst].
  assert (Hget : obj_get
                   (fold_left (fun s kv => obj_set s (fst kv) (snd kv))
                      ns1 scores) n
                 = obj_get ns1 n).
  { destruct (Hf1 n Hn) as [q Hq]. rewrite Hq.
    apply assign_get; [now rewrite Hk1 | now apply obj_get_In]. }
  unfold qat at 1. rewrite Hget. fold (qat ns1 n).
  rewrite <- (Hq0 n Hn). apply Hmono.
Qed.

Lemma share_nonneg :
  (0 <= (1 - dampingFactor) / qnat (List.length (Graph.nodes g)))%Q.
Proof.
  assert (HN : 0 < List.length (Graph.nodes g)).
  { destruct (Graph.nodes g); [congruence | simpl; lia]. }
  apply Qle_shift_div_l; [now apply qnat_pos | lra].
Qed.

(** What the iterations keep: no score is negative and the scores add
    up to at most 1. *)
Lemma authority_iter_bounds (iterations : nat) :
  let s0 :=
    fold_left
      (fun s node =>
         obj_set s node (jdiv (JFin 1) (jnat (List.length (Graph.nodes g)))))
      (Graph.nodes g) [] in
  let st := Nat.iter iterations (authority_step g dampingFactor) (s0, []) in
  authority_inv g st /\ nonneg_on (fst st) (Graph.nodes g) /\
  (total (fst st) (Graph.nodes g) <= 1)%Q /\
  (0 < iterations ->
   (1 - dampingFactor <= total (fst st) (Graph.nodes g))%Q /\
   forall n, In n (Graph.nodes g) ->
     ((1 - dampingFactor) / qnat (List.length (Graph.nodes g))
      <= qat (fst st) n)%Q).
Proof.
  intros s0.
  assert (HN : 0 < List.length (Graph.nodes g)).
  { destruct (Graph.nodes g); [congruence | simpl; lia]. }
  destruct (authority_initial g Hwf Hne) as [Hi Ht]. fold s0 in Hi, Ht.
  assert (H0 : nonneg_on s0 (Graph.nodes g)).
  { intros n Hn. unfold s0. rewrite (jdiv_by_count _ _ HN).
    destruct (init_const (1 / qnat (List.length (Graph.nodes g)))
                (Graph.nodes g) []) as [_ [Hq _]].
    rewrite (Hq n Hn).
    apply Qle_shift_div_l; [now apply qnat_pos | lra]. }
  induction iterations as [| k IH]; [| rewrite Nat.iter_succ].
  - split; [assumption |]. split; [assumption |].
    split; [cbn [Nat.iter nat_rect fst]; rewrite Ht; apply Qle_refl
           | intros Hc; lia].
  - destruct IH as [IHi [IHn [IHt _]]].
    set (st := Nat.iter k (authority_step g dampingFactor) (s0, [])) in *.
    destruct (authority_step_inv g dampingFactor Hwf st Hne IHi)
      as [Hi' Ht'].
    pose proof (authority_step_floor st IHi IHn) as Hfloor.
    pose proof (passed_on_range g (fst st) (Graph.nodes g) IHn) as [Hp0 Hp1].
    pose proof share_nonneg as Hshare.
    assert (Hlow : (1 - dampingFactor
                    <= total (fst (authority_step g dampingFactor st))
                         (Graph.nodes g))%Q).
    { rewrite Ht'.
      assert (0 <= dampingFactor * passed_on g (fst st) (Graph.nodes g))%Q
        by (apply Qmult_le_0_compat; assumption).
      lra. }
    assert (Hhigh : (total (fst (authority_step g dampingFactor st))
                       (Graph.nodes g) <= 1)%Q).
    { rewrite Ht'.
      assert (dampingFactor * passed_on g (fst st) (Graph.nodes g)
              <= dampingFactor * 1)%Q.
      { rewrite (Qmult_comm dampingFactor), (Qmult_comm dampingFactor 1).
        apply Qmult_le_compat_r; [lra | assumption]. }
      lra. }
    split; [assumption |]. split; [| split; [assumption |]].
    + intros n Hn. eapply Qle_trans; [exact Hshare | now apply Hfloor].
    + intros _. split; assumption.
Qed.

End AuthorityBounds.

Lemma authority_without_nodes (g : Graph.t) (iterations : nat)
    (dampingFactor : Q) :
  Graph.nodes g = [] ->
  calculateAuthorityScore_with g iterations dampingFactor = [].
Proof.
  intros H. unfold calculateAuthorityScore_with.
  assert (Hi : forall st : obj jsnum * obj jsnum,
             st = ([], []) ->
             Nat.iter iterations (authority_step g dampingFactor) st
             = ([], [])).
  { intros st ->. induction iterations as [| k IH]; [reflexivity |].
    rewrite Nat.iter_succ, IH. unfold authority_step. rewrite H. reflexivity. }
  cbv zeta. rewrite H. cbn [fold_left].
  exact (f_equal fst (Hi ([], []) eq_refl)).
Qed.


(** ** The components of the graph *)

Lemma linked_sym (g : Graph.t) (x y : string) :
  linked g x y -> linked g y x.
Proof.
  unfold linked. intros H. apply in_or_app. apply in_app_or in H.
  destruct H as [H | H].
  - right. apply adjacentReverse_In. now apply adjacent_In.
  - left. apply adjacent_In. now apply adjacentReverse_In.
Qed.

Lemma linked_nodes (g : Graph.t) (x y : string) :
  Graph.wf g -> linked g x y -> In y (Graph.nodes g).
Proof.
  intros Hwf H. apply in_app_or in H. destruct H as [H | H].
  - now apply (adjacent_nodes g x).
  - apply adjacentReverse_In in H. now apply Hwf in H.
Qed.

Lemma linked_edge (g : Graph.t) (u v : string) :
  In (u, v) (Graph.edges g) -> linked g u v.
Proof.
  intros H. apply in_or_app. left. now apply adjacent_In.
Qed.

Lemma set_add_fresh (s : list string) (x : string) :
  ~ In x s -> set_add s x = s ++ [x].
Proof.
  intros H. unfold set_add. apply str_in_false in H. now rewrite H.
Qed.

Lemma grown_nil (g : Graph.t) (st : list string * list string) :
  grown g st st [].
Proof.
  unfold grown. rewrite !app_nil_r.
  split; [reflexivity |]. split; [reflexivity |].
  split; [constructor |]. split; [intros x [] | intros x y []].
Qed.

(** Two growths in a row make one. *)
Lemma grown_trans (g : Graph.t) (st0 st1 st2 : list string * list string)
    (a1 a2 : list string) :
  grown g st0 st1 a1 -> grown g st1 st2 a2 -> grown g st0 st2 (a1 ++ a2).
Proof.
  intros [Hv1 [Hc1 [Hnd1 [Hf1 Hcl1]]]] [Hv2 [Hc2 [Hnd2 [Hf2 Hcl2]]]].
  unfold grown. rewrite Hv2, Hc2, Hv1, Hc1, <- !app_assoc.
  split; [reflexivity |]. split; [reflexivity |]. split; [| split].
  - apply NoDup_app; try assumption.
    intros x H1 H2. apply Hf2 in H2. destruct H2 as [H2 _]. apply H2.
    rewrite Hv1. apply in_or_app. now right.
  - intros x Hx. apply in_app_or in Hx. destruct Hx as [Hx | Hx].
    + now apply Hf1.
    + destruct (Hf2 x Hx) as [Hn Hin]. split; [| assumption].
      intros Hc. apply Hn. rewrite Hv1. apply in_or_app. now left.
  - intros x y Hx Hl. apply in_app_or in Hx. destruct Hx as [Hx | Hx].
    + specialize (Hcl1 x y Hx Hl). rewrite Hv1 in Hcl1.
      apply in_app_or in Hcl1. apply in_or_app.
      destruct Hcl1 as [H | H]; [now left | right].
      apply in_or_app. now left.
    + specialize (Hcl2 x y Hx Hl). rewrite Hv2, Hv1, <- app_assoc in Hcl2.
      exact Hcl2.
Qed.

(** A traversal that returns has grown the visited set by the nodes it
    put into the component, starting with its own node. *)
Lemma dfs_grown (g : Graph.t) (fuel : nat) :
  Graph.wf g ->
  forall node st st',
    In node (Graph.nodes g) -> ~ In node (fst st) ->
    dfs fuel g node st = Ok st' ->
    exists added, grown g st st' (node :: added).
Proof.
  intros Hwf. induction fuel as [| fuel IH];
    intros node st st' Hn Hv Hr; [discriminate |].
  cbn [dfs] in Hr.
  rewrite (set_add_fresh _ _ Hv) in Hr.
  set (neighbors := Graph.adjacent g node ++ Graph.adjacentReverse g node)
    in Hr.
  assert (Hnb : forall n, In n neighbors -> linked g node n) by (intros; assumption).
  assert (Hloop : forall l st1 st2,
             (forall n, In n l -> In n (Graph.nodes g)) ->
             ofold (fun st neighbor =>
                      if negb (str_in neighbor (fst st))
                      then dfs fuel g neighbor st else Ok st)
               l st1 = Ok st2 ->
             exists added,
               grown g st1 st2 added /\
               forall n, In n l -> In n (fst st2)).
  { induction l as [| nb r IHl]; intros st1 st2 Hsub Hl; cbn [ofold] in Hl.
    - injection Hl as <-. exists []. split; [apply grown_nil | intros n []].
    - destruct (str_in_reflect nb (fst st1)) as [Hin | Hout];
        cbn [negb obind] in Hl.
      + destruct (IHl st1 st2) as [added [Hg Hall]];
          [intros; apply Hsub; now right | assumption |].
        exists added. split; [assumption |].
        intros n [<- | Hn']; [| now apply Hall].
        destruct Hg as [Hv2 _]. rewrite Hv2. apply in_or_app. now left.
      + destruct (dfs fuel g nb st1) as [stm | |] eqn:Hd;
          cbn [obind] in Hl; try discriminate.
        destruct (IH nb st1 stm) as [a1 Hg1];
          [apply Hsub; now left | assumption | assumption |].
        destruct (IHl stm st2) as [a2 [Hg2 Hall]];
          [intros; apply Hsub; now right | assumption |].
        exists ((nb :: a1) ++ a2). split; [now apply (grown_trans g st1 stm) |].
        intros n [<- | Hn']; [| now apply Hall].
        destruct Hg2 as [Hv2 _]. destruct Hg1 as [Hv1 _].
        rewrite Hv2, Hv1. apply in_or_app. left. apply in_or_app. right.
        now left. }
  destruct (Hloop neighbors (fst st ++ [node], snd st ++ [node]) st')
    as [added [[Hv2 [Hc2 [Hnd [Hf Hcl]]]] Hall]].
  { intros n H. now apply (linked_nodes g node). }
  { exact Hr. }
  cbn [fst snd] in Hv2, Hc2, Hf.
  exists added. unfold grown.
  rewrite Hv2, Hc2, <- !app_assoc. cbn [app].
  split; [reflexivity |]. split; [reflexivity |]. split; [| split].
  - constructor; [| assumption].
    intros Hc. apply Hf in Hc. destruct Hc as [Hc _]. apply Hc.
    apply in_or_app. right. now left.
  - intros x [<- | Hx]; [now split |].
    destruct (Hf x Hx) as [Hnx Hin]. split; [| assumption].
    intros Hc. apply Hnx. apply in_or_app. now left.
  - intros x y [<- | Hx] Hl.
    + rewrite <- (app_assoc (fst st) [node] added) in Hv2.
      cbn [app] in Hv2. rewrite <- Hv2. apply Hall. exact Hl.
    + specialize (Hcl x y Hx Hl). rewrite Hv2, <- app_assoc in Hcl.
      exact Hcl.
Qed.

Lemma component_step_inv (g : Graph.t)
    (st st' : list string * list (list string)) (node : string) :
  Graph.wf g -> In node (Graph.nodes g) ->
  components_inv g st -> component_step g st node = Ok st' ->
  components_inv g st' /\ In node (fst st') /\
  (forall x, In x (fst st) -> In x (fst st')).
Proof.
  intros Hwf Hn [Hcat [Hnd [Hsub [Hne Hcl]]]] Hstep.
  destruct st as [visited components]. cbn [fst snd] in *.
  unfold component_step in Hstep.
  destruct (str_in_reflect node visited) as [Hin | Hout];
    cbn [negb obind] in Hstep.
  - injection Hstep as <-. cbn [fst]. split; [| split; auto].
    repeat split; assumption.
  - destruct (dfs (S (List.length (Graph.nodes g))) g node (visited, []))
      as [r | |] eqn:Hd; cbn [obind] in Hstep; try discriminate.
    injection Hstep as <-. cbn [fst snd].
    destruct (dfs_grown g _ Hwf node (visited, []) r Hn Hout Hd)
      as [added [Hv [Hc [Hnda [Hfresh Hclosed]]]]].
    cbn [fst snd app] in Hv, Hc, Hfresh.
    assert (Hall : NoDup (visited ++ node :: added)).
    { apply NoDup_app; try assumption.
      intros x Hx Hx'. now apply Hfresh in Hx'. }
    split; [| split].
    + unfold components_inv. cbn [fst snd]. rewrite Hv, Hc.
      split; [| split; [assumption | split; [| split]]].
      * rewrite concat_app. simpl. now rewrite app_nil_r, Hcat.
      * intros x Hx. apply in_app_or in Hx.
        destruct Hx as [Hx | Hx]; [now apply Hsub | now apply Hfresh].
      * intros c Hc'. apply in_app_or in Hc'.
        destruct Hc' as [Hc' | [<- | []]]; [now apply Hne | discriminate].
      * intros c x y Hc' Hx Hl. apply in_app_or in Hc'.
        destruct Hc' as [Hc' | [<- | []]]; [now apply (Hcl c x y) |].
        specialize (Hclosed x y Hx Hl). rewrite Hv in Hclosed.
        apply in_app_or in Hclosed.
        destruct Hclosed as [Hy | Hy]; [exfalso | assumption].
        rewrite Hcat in Hy. apply in_concat in Hy.
        destruct Hy as [c' [Hc' Hy]].
        assert (Hx' : In x c')
          by (apply (Hcl c' y x Hc' Hy); now apply linked_sym).
        apply (proj1 (Hfresh x Hx)). rewrite Hcat. apply in_concat.
        now exists c'.
    + rewrite Hv. apply in_or_app. right. now left.
    + intros x Hx. rewrite Hv. apply in_or_app. now left.
Qed.

Lemma component_loop_inv (g : Graph.t) (l : list string) :
  Graph.wf g -> (forall n, In n l -> In n (Graph.nodes g)) ->
  forall st st',
    components_inv g st -> ofold (component_step g) l st = Ok st' ->
    components_inv g st' /\
    (forall n, In n l -> In n (fst st')) /\
    (forall x, In x (fst st) -> In x (fst st')).
Proof.
  intros Hwf. induction l as [| node r IH]; intros Hsub st st' Hinv Hl;
    cbn [ofold] in Hl.
  - injection Hl as <-. split; [assumption |]. split; [intros n [] | auto].
  - destruct (component_step g st node) as [st1 | |] eqn:Hs;
      cbn [obind] in Hl; try discriminate.
    destruct (component_step_inv g st st1 node Hwf
                (Hsub node (or_introl eq_refl)) Hinv Hs)
      as [Hinv1 [Hn1 Hmono1]].
    destruct (IH (fun n Hn => Hsub n (or_intror Hn)) st1 st' Hinv1 Hl)
      as [Hinv' [Hall Hmono]].
    split; [assumption |]. split.
    + intros n [<- | Hn]; [now apply Hmono | now apply Hall].
    + intros x Hx. now apply Hmono, Hmono1.
Qed.

Lemma findConnectedComponents_unfold (g : Graph.t) :
  findConnectedComponents g
  = (found <- ofold (component_step g) (Graph.nodes g) ([], []) ;;
     let components := snd found in
     Ok {| cr_count := List.length components;
           cr_sizes := map (@List.length string) components;
           cr_largest :=
             Math_max (map (fun c => jnat (List.length c)) components);
           cr_components :=
             js_sort (fun a b => List.length b <=? List.length a)
               components |}).
Proof. reflexivity. Qed.

(** The components found in a well-formed graph. *)
Lemma components_of_wf (g : Graph.t) :
  Graph.wf g ->
  exists components,
    findConnectedComponents g
    = Ok {| cr_count := List.length components;
            cr_sizes := map (@List.length string) components;
            cr_largest :=
              Math_max (map (fun c => jnat (List.length c)) components);
            cr_components :=
              js_sort (fun a b => List.length b <=? List.length a)
                components |} /\
    Permutation (List.concat components) (Graph.nodes g) /\
    (forall c, In c components -> c <> []) /\
    (forall c x y, In c components -> In x c -> linked g x y -> In y c).
Proof.
  intros Hwf. destruct (findConnectedComponents_ok g Hwf) as [report Hr].
  rewrite findConnectedComponents_unfold in Hr |- *.
  destruct (ofold (component_step g) (Graph.nodes g) ([], []))
    as [[visited components] | |] eqn:Hl; cbn [obind] in Hr |- *;
    try discriminate.
  destruct (component_loop_inv g (Graph.nodes g) Hwf (fun n Hn => Hn)
              ([], []) (visited, components))
    as [[Hcat [Hnd [Hsub [Hne Hcl]]]] [Hall _]].
  { unfold components_inv. cbn [fst snd List.concat].
    split; [reflexivity |]. split; [constructor |].
    split; [intros x [] |]. split; [intros c [] | intros c x y []]. }
  { assumption. }
  cbn [fst snd] in *.
  exists components. split; [reflexivity |]. split; [| split; assumption].
  rewrite <- Hcat. apply NoDup_Permutation; [assumption | apply Hwf |].
  intros x. split; [apply Hsub | apply Hall].
Qed.

Lemma Permutation_concat_string (l l' : list (list string)) :
  Permutation l l' -> Permutation (List.concat l) (List.concat l').
Proof.
  induction 1 as [| x l l' _ IH | x y l | l l' l'' _ IH1 _ IH2]; simpl.
  - constructor.
  - now apply Permutation_app_head.
  - rewrite !app_assoc. apply Permutation_app_tail, Permutation_app_comm.
  - now transitivity (List.concat l').
Qed.

(** X7. After a build, the connected components are found; together
    they hold every node of the graph exactly once, none of them is
    empty, they are listed from the largest to the smallest, the count
    is their number, and the sizes reported (in the order of discovery)
    are their sizes in some order and add up to the number of nodes. *)
Theorem components_partition_the_nodes (options : BuildOptions) (s : Store) :
  let g := graph (snd (buildCitationNetwork options s)) in
  exists report,
    findConnectedComponents g = Ok report /\
    Permutation (List.concat (cr_components report)) (Graph.nodes g) /\
    (forall c, In c (cr_components report) -> c <> []) /\
    Sorted (fun a b => List.length b <= List.length a)
      (cr_components report) /\
    cr_count report = List.length (cr_components report) /\
    Permutation (cr_sizes report)
      (map (@List.length string) (cr_components report)) /\
    list_sum (cr_sizes report) = List.length (Graph.nodes g).
Proof.
  intros g.
  destruct (buildCitationNetwork_ok options s) as [Hwf _]. fold g in Hwf.
  destruct (components_of_wf g Hwf) as [components [Hr [Hperm [Hne _]]]].
  eexists. split; [exact Hr |]. cbn [cr_components cr_count cr_sizes].
  pose proof (js_sort_perm (fun a b : list string =>
                              List.length b <=? List.length a) components)
    as Hsort.
  split; [| split; [| split; [| split; [| split]]]].
  - rewrite <- Hperm. apply Permutation_concat_string. now symmetry.
  - intros c Hc. apply js_sort_In in Hc. now apply Hne.
  - apply js_sort_sorted. intros a b _ _.
    destruct (Nat.leb_spec (List.length b) (List.length a)); lia.
  - apply Permutation_length. assumption.
  - now apply Permutation_map.
  - rewrite <- (Permutation_length Hperm).
    clear. induction components as [| c r IH]; simpl; [reflexivity |].
    rewrite length_app, IH. reflexivity.
Qed.

(** X8. After a build, the two ends of every edge of the graph lie in
    the same connected component. *)
Theorem components_hold_both_ends_of_an_edge
    (options : BuildOptions) (s : Store) :
  let g := graph (snd (buildCitationNetwork options s)) in
  exists report,
    findConnectedComponents g = Ok report /\
    forall u v, In (u, v) (Graph.edges g) ->
      exists c, In c (cr_components report) /\ In u c /\ In v c.
Proof.
  intros g.
  destruct (buildCitationNetwork_ok options s) as [Hwf _]. fold g in Hwf.
  destruct (components_of_wf g Hwf) as [components [Hr [Hperm [_ Hcl]]]].
  eexists. split; [exact Hr |]. cbn [cr_components].
  intros u v He.
  assert (Hu : In u (Graph.nodes g)) by (now apply (proj2 Hwf) in He).
  apply (Permutation_in _ (Permutation_sym Hperm)) in Hu.
  apply in_concat in Hu. destruct Hu as [c [Hc Hu]].
  exists c. split; [now apply js_sort_In |]. split; [assumption |].
  apply (Hcl c u v Hc Hu). now apply linked_edge.
Qed.

(** ** Communities share no member *)

Lemma visit_neighbor_fresh (e : Engine) (cp : option PaperNode)
    (before : list string) (st st' : list string * list string * list string)
    (nb : string) :
  visit_neighbor e cp st nb = Ok st' ->
  group_fresh before st -> group_fresh before st'.
Proof.
  destruct st as [[visited community] queue]. unfold visit_neighbor.
  destruct (str_in_reflect nb visited) as [Hin | Hout];
    [intros [= <-]; auto |].
  destruct cp as [p1 |]; cbn [defined obind]; [| discriminate].
  destruct (obj_get (paperNodes e) nb) as [p2 |]; cbn [defined obind];
    [| discriminate].
  destruct (jgt (calculatePaperSimilarity p1 p2) (JFin (3 # 10)));
    intros [= <-]; [| auto].
  intros [Hb [Hc Hnd]]. split; [| split].
  - intros n Hn. apply set_add_In. left. now apply Hb.
  - intros n Hn. apply set_add_In in Hn. destruct Hn as [Hn | ->].
    + destruct (Hc n Hn). split; [apply set_add_In; now left | assumption].
    + split; [apply set_add_In; now right |].
      intros Hn. apply Hout. now apply Hb.
  - now apply set_add_NoDup.
Qed.

Lemma visit_neighbors_fresh (e : Engine) (cp : option PaperNode)
    (before : list string) (l : list string) :
  forall st st',
    ofold (visit_neighbor e cp) l st = Ok st' ->
    group_fresh before st -> group_fresh before st'.
Proof.
  induction l as [| nb r IH]; intros st st' Hl Hf; cbn [ofold] in Hl.
  - now injection Hl as <-.
  - destruct (visit_neighbor e cp st nb) as [st1 | |] eqn:H1;
      cbn [obind] in Hl; try discriminate.
    apply (IH st1 st' Hl). now apply (visit_neighbor_fresh e cp before st st1 nb).
Qed.

Lemma grow_community_fresh (e : Engine) (before : list string) (fuel : nat) :
  forall st visited community,
    grow_community fuel e st = Ok (visited, community) ->
    group_fresh before st ->
    (forall n, In n before -> In n visited) /\
    (forall n, In n community -> In n visited /\ ~ In n before) /\
    NoDup community.
Proof.
  induction fuel as [| fuel IH]; intros st visited community Hg Hf;
    [discriminate |].
  destruct st as [[v c] queue]. cbn [grow_community] in Hg.
  destruct queue as [| current rest]; [now injection Hg as <- <- |].
  destruct (ofold (visit_neighbor e (obj_get (paperNodes e) current))
              (Graph.adjacent (graph e) current) (v, c, rest))
    as [st1 | |] eqn:Hv; cbn [obind] in Hg; try discriminate.
  apply (IH st1 visited community Hg).
  apply (visit_neighbors_fresh e _ before _ _ _ Hv).
  exact Hf.
Qed.

Lemma community_step_fresh (e : Engine)
    (st st' : list string * list (nat * list string)) (node : string) :
  community_step e st node = Ok st' ->
  entries_fresh st -> entries_fresh st'.
Proof.
  destruct st as [visited communities]. unfold community_step.
  destruct (str_in_reflect node visited) as [Hin | Hout];
    [intros [= <-]; auto |].
  destruct (grow_community _ e (set_add visited node, [node], [node]))
    as [[visited' community] | |] eqn:Hg; cbn [obind]; try discriminate.
  intros Hst' [Hvis [Hnd Hids]]. cbn [fst snd] in *.
  destruct (grow_community_fresh e visited _ _ _ _ Hg)
    as [Hb [Hc Hndc]].
  { split; [| split].
    - intros n Hn. apply set_add_In. now left.
    - intros n [<- | []]. split; [apply set_add_In; now right | assumption].
    - constructor; [intros [] | constructor]. }
  destruct (3 <=? List.length community); injection Hst' as <-;
    unfold entries_fresh; cbn [fst snd].
  - rewrite !map_app, concat_app, length_app, seq_app. cbn [map List.concat].
    rewrite app_nil_r. split; [| split].
    + intros n Hn. apply in_app_or in Hn.
      destruct Hn as [Hn | Hn]; [now apply Hb, Hvis | now apply Hc].
    + apply NoDup_app; try assumption.
      intros n Hn Hn'. apply (proj2 (Hc n Hn')). now apply Hvis.
    + rewrite Hids. reflexivity.
  - split; [| split; assumption].
    intros n Hn. now apply Hb, Hvis.
Qed.

Lemma collect_communities_unfold (e : Engine) :
  collect_communities e
  = (r <- ofold (community_step e) (Graph.nodes (graph e)) ([], []) ;;
     Ok (snd r)).
Proof. reflexivity. Qed.

Lemma collect_communities_fresh (e : Engine)
    (communities : list (nat * list string)) :
  collect_communities e = Ok communities ->
  NoDup (List.concat (map snd communities)) /\
  map fst communities = seq 0 (List.length communities).
Proof.
  rewrite collect_communities_unfold.
  assert (H : forall l st st',
             ofold (community_step e) l st = Ok st' ->
             entries_fresh st -> entries_fresh st').
  { induction l as [| node r IH]; intros st st' Hl Hf; cbn [ofold] in Hl.
    - now injection Hl as <-.
    - destruct (community_step e st node) as [st1 | |] eqn:H1;
        cbn [obind] in Hl; try discriminate.
      apply (IH st1 st' Hl). now apply (community_step_fresh e st st1 node). }
  destruct (ofold (community_step e) (Graph.nodes (graph e)) ([], []))
    as [r | |] eqn:Hr; cbn [obind]; try discriminate.
  intros [= <-].
  destruct (H _ _ _ Hr) as [_ [Hnd Hids]]; [| now split].
  unfold entries_fresh. cbn [fst snd map List.concat List.length seq].
  split; [intros n [] |]. split; [constructor | reflexivity].
Qed.

(** The analysis keeps the entries in order, with their keys and
    members. *)
Lemma analysis_of_entries (e : Engine) (communities : list (nat * list string))
    (cs : list Community) :
  omap (analyse_community e) communities = Ok cs ->
  map com_members cs = map snd communities /\
  map com_id cs = map fst communities.
Proof.
  revert cs. induction communities as [| [cid members] r IH]; intros cs H;
    cbn [omap] in H.
  - injection H as <-. split; reflexivity.
  - destruct (analyse_community e (cid, members)) as [c | |] eqn:Hc;
      cbn [obind] in H; try discriminate.
    destruct (omap (analyse_community e) r) as [cs' | |] eqn:Hr;
      cbn [obind] in H; try discriminate.
    injection H as <-. destruct (IH cs' eq_refl) as [Hm Hi].
    unfold analyse_community in Hc.
    destruct (omap _ members) as [ps | |]; cbn [obind] in Hc;
      try discriminate.
    injection Hc as <-. cbn [map com_members com_id fst snd].
    now rewrite Hm, Hi.
Qed.

Lemma Permutation_concat_map {A : Type} (f : A -> list string)
    (l l' : list A) :
  Permutation l l' ->
  Permutation (List.concat (map f l)) (List.concat (map f l')).
Proof.
  intros H. apply Permutation_concat_string. now apply Permutation_map.
Qed.

(** X9. After a build, no node is a member of two of the communities
    returned (and of none twice); the communities are listed from the
    largest to the smallest, their count is reported, and their ids are
    the numbers from 0 up to the count. *)
Theorem communities_are_disjoint (options : BuildOptions) (s : Store) :
  let e := snd (buildCitationNetwork options s) in
  exists report,
    detectCommunities e = Ok report /\
    NoDup (List.concat (map com_members (cm_communities report))) /\
    Sorted (fun a b => com_size b <= com_size a) (cm_communities report) /\
    cm_count report = List.length (cm_communities report) /\
    Permutation (map com_id (cm_communities report))
      (seq 0 (cm_count report)).
Proof.
  intros e.
  destruct (detectCommunities_ok e (buildCitationNetwork_ok options s))
    as [report [Hr _]].
  exists report. split; [assumption |].
  unfold detectCommunities in Hr.
  destruct (collect_communities e) as [communities | |] eqn:Hc;
    cbn [obind] in Hr; try discriminate.
  destruct (omap (analyse_community e) communities) as [cs | |] eqn:Hcs;
    cbn [obind] in Hr; try discriminate.
  injection Hr as <-. cbn [cm_communities cm_count].
  destruct (collect_communities_fresh e communities Hc) as [Hnd Hids].
  destruct (analysis_of_entries e communities cs Hcs) as [Hm Hi].
  pose proof (js_sort_perm (fun a b => com_size b <=? com_size a) cs)
    as Hsort.
  assert (Hlen : List.length cs = List.length communities).
  { rewrite <- (length_map com_members cs), Hm. apply length_map. }
  split; [| split; [| split]].
  - apply (Permutation_NoDup (Permutation_concat_map com_members _ _ Hsort)).
    now rewrite Hm.
  - apply js_sort_sorted. intros a b _ _.
    destruct (Nat.leb_spec (com_size b) (com_size a)); lia.
  - rewrite <- (Permutation_length Hsort). now symmetry.
  - rewrite <- (Permutation_map com_id Hsort), Hi, Hids. reflexivity.
Qed.

(** ** The annotations of a community *)

Lemma fold_jmin_bounds (l : list Q) (a : Q) :
  exists m, fold_left jmin (map JFin l) (JFin a) = JFin m /\
            (m <= a)%Q /\ forall q, In q l -> (m <= q)%Q.
Proof.
  revert a. induction l as [| q r IH]; intros a; simpl.
  - exists a. split; [reflexivity |]. split; [apply Qle_refl | intros q []].
  - destruct (Qle_bool a q) eqn:E; simpl.
    + apply Qle_bool_iff in E.
      destruct (IH a) as [m [Hm [Ha Hr]]]. exists m.
      split; [assumption |]. split; [assumption |].
      intros q' [<- | Hq']; [lra | now apply Hr].
    + assert (Hlt : (q < a)%Q).
      { apply Qnot_le_lt. intros Hle. apply Qle_bool_iff in Hle.
        congruence. }
      destruct (IH q) as [m [Hm [Ha Hr]]]. exists m.
      split; [assumption |]. split; [lra |].
      intros q' [<- | Hq']; [assumption | now apply Hr].
Qed.

(** The span of the years of one paper or more. *)
Lemma getTimeSpan_range (papers : list PaperNode) :
  papers <> [] ->
  exists a z,
    ts_start (getTimeSpan papers) = JFin a /\
    ts_end (getTimeSpan papers) = JFin z /\
    ts_span (getTimeSpan papers) = JFin (z + - a) /\
    (a <= z)%Q /\
    forall p, In p papers ->
      (a <= inject_Z (getFullYear (publishedDate p)) /\
       inject_Z (getFullYear (publishedDate p)) <= z)%Q.
Proof.
  intros Hne. unfold getTimeSpan. cbn [ts_start ts_end ts_span].
  rewrite <- (map_map (fun p => inject_Z (getFullYear (publishedDate p)))
                JFin).
  set (ys := map (fun p => inject_Z (getFullYear (publishedDate p))) papers).
  assert (Hys : forall p, In p papers ->
                  In (inject_Z (getFullYear (publishedDate p))) ys).
  { intros p Hp. unfold ys.
    now apply (in_map (fun p => inject_Z (getFullYear (publishedDate p)))). }
  destruct papers as [| p0 r]; [congruence |].
  unfold ys in *. cbn [map] in *. unfold Math_min, Math_max.
  cbn [map fold_left jmin jmax jgt].
  set (y0 := inject_Z (getFullYear (publishedDate p0))) in *.
  set (rest := map (fun p => inject_Z (getFullYear (publishedDate p))) r)
    in *.
  destruct (fold_jmin_bounds rest y0) as [a [Ha [Ha0 Har]]].
  destruct (fold_jmax_bounds rest y0) as [z [Hz [Hz0 Hzr]]].
  rewrite Ha, Hz. exists a, z.
  split; [reflexivity |]. split; [reflexivity |].
  split; [reflexivity |]. split; [lra |].
  intros p Hp. specialize (Hys p Hp). destruct Hys as [<- | Hin].
  - split; assumption.
  - split; [now apply Har | now apply Hzr].
Qed.

(** The records read for the members, in the order of the members. *)
Lemma member_papers (e : Engine) (members : list string)
    (ps : list PaperNode) :
  omap (fun nodeId => defined (obj_get (paperNodes e) nodeId)) members
  = Ok ps ->
  List.length ps = List.length members /\
  (forall p, In p ps ->
     exists m, In m members /\ obj_get (paperNodes e) m = Some p) /\
  (forall m p, In m members -> obj_get (paperNodes e) m = Some p ->
     In p ps).
Proof.
  revert ps. induction members as [| m r IH]; intros ps H; cbn [omap] in H.
  - injection H as <-. split; [reflexivity |].
    split; [intros p [] | intros m p []].
  - destruct (obj_get (paperNodes e) m) as [p0 |] eqn:Hm;
      cbn [defined obind] in H; try discriminate.
    destruct (omap _ r) as [ps' | |] eqn:Hr; cbn [obind] in H;
      try discriminate.
    injection H as <-. destruct (IH ps' eq_refl) as [Hl [Hall Hback]].
    split; [simpl; now rewrite Hl |]. split.
    + intros p [<- | Hp].
      * exists m. split; [now left | assumption].
      * destruct (Hall p Hp) as [m' [Hm' Hg]]. exists m'.
        split; [now right | assumption].
    + intros m' p [<- | Hm'] Hg.
      * left. congruence.
      * right. now apply (Hback m').
Qed.

Lemma Sorted_firstn {A : Type} (R : A -> A -> Prop) (n : nat) (l : list A) :
  (forall x y z, R x y -> R y z -> R x z) ->
  Sorted R l -> Sorted R (firstn n l).
Proof.
  intros Htrans Hs. apply StronglySorted_Sorted, StronglySorted_firstn.
  apply Sorted_StronglySorted; [| assumption].
  intros x y z. apply Htrans.
Qed.

Lemma top_entries_bound (n : nat) (t : obj nat) :
  List.length (top_entries (Z.of_nat n) t) <= n /\
  Sorted (fun a b => snd b <= snd a) (top_entries (Z.of_nat n) t) /\
  forall kc, In kc (top_entries (Z.of_nat n) t) -> In kc t.
Proof.
  unfold top_entries, slice0.
  destruct (Z.ltb_spec (Z.of_nat n) 0) as [Hneg | _]; [lia |].
  rewrite Nat2Z.id. split; [apply firstn_le_length |]. split.
  - apply Sorted_firstn; [intros x y z; lia |].
    apply js_sort_sorted. intros a b _ _.
    destruct (Nat.leb_spec (snd b) (snd a)); lia.
  - intros kc H. apply firstn_In in H. now apply js_sort_In in H.
Qed.


(** ** Objects keyed by numbers *)

Lemma nobj_get_replace_same {V : Type} (o : nobj V) (k : Z) (v : V) :
  nobj_get o k <> None -> nobj_get (nobj_replace o k v) k = Some v.
Proof.
  induction o as [| [k' v'] r IH]; simpl; [congruence |].
  destruct (Z.eqb_spec k' k) as [-> | Hne]; simpl.
  - now rewrite Z.eqb_refl.
  - destruct (Z.eqb_spec k' k); [contradiction | exact IH].
Qed.

Lemma nobj_get_replace_other {V : Type} (o : nobj V) (k k' : Z) (v : V) :
  k <> k' -> nobj_get (nobj_replace o k v) k' = nobj_get o k'.
Proof.
  intros Hne. induction o as [| [k0 v0] r IH]; simpl; [reflexivity |].
  destruct (Z.eqb_spec k0 k) as [-> | H0]; simpl.
  - destruct (Z.eqb_spec k k'); [contradiction | reflexivity].
  - now rewrite IH.
Qed.

Lemma nobj_get_insert_same {V : Type} (o : nobj V) (k : Z) (v : V) :
  nobj_get o k = None -> nobj_get (nobj_insert o k v) k = Some v.
Proof.
  induction o as [| [k' v'] r IH]; simpl.
  - now rewrite Z.eqb_refl.
  - destruct (Z.eqb_spec k' k) as [-> | Hne]; [discriminate |].
    intros Hr.
    destruct (is_index k && (negb (is_index k') || (k <? k')%Z)); simpl.
    + now rewrite Z.eqb_refl.
    + destruct (Z.eqb_spec k' k); [contradiction | now apply IH].
Qed.

Lemma nobj_get_insert_other {V : Type} (o : nobj V) (k k' : Z) (v : V) :
  k <> k' -> nobj_get (nobj_insert o k v) k' = nobj_get o k'.
Proof.
  intros Hne. induction o as [| [k0 v0] r IH]; simpl.
  - destruct (Z.eqb_spec k k'); [contradiction | reflexivity].
  - destruct (is_index k && (negb (is_index k0) || (k <? k0)%Z)); simpl.
    + destruct (Z.eqb_spec k k'); [contradiction | reflexivity].
    + now rewrite IH.
Qed.

(** Reading back what was assigned, and reading another key. *)
Lemma nobj_get_set_same {V : Type} (o : nobj V) (k : Z) (v : V) :
  nobj_get (nobj_set o k v) k = Some v.
Proof.
  unfold nobj_set. destruct (nobj_get o k) eqn:E.
  - apply nobj_get_replace_same. congruence.
  - now apply nobj_get_insert_same.
Qed.

Lemma nobj_get_set_other {V : Type} (o : nobj V) (k k' : Z) (v : V) :
  k <> k' -> nobj_get (nobj_set o k v) k' = nobj_get o k'.
Proof.
  intros Hne. unfold nobj_set. destruct (nobj_get o k).
  - now apply nobj_get_replace_other.
  - now apply nobj_get_insert_other.
Qed.

Lemma nsum_replace {V : Type} (f : V -> nat) (o : nobj V) (k : Z) (c v : V) :
  nobj_get o k = Some c ->
  nsum f (nobj_replace o k v) + f c = nsum f o + f v.
Proof.
  unfold nsum. induction o as [| [k' v'] r IH]; simpl; [discriminate |].
  destruct (Z.eqb_spec k' k) as [-> | Hne]; simpl.
  - intros [= ->]. lia.
  - intros H. specialize (IH H). lia.
Qed.

Lemma nsum_insert {V : Type} (f : V -> nat) (o : nobj V) (k : Z) (v : V) :
  nsum f (nobj_insert o k v) = nsum f o + f v.
Proof.
  unfold nsum. induction o as [| [k' v'] r IH]; simpl; [lia |].
  destruct (is_index k && (negb (is_index k') || (k <? k')%Z)); simpl; lia.
Qed.

Lemma nsum_set {V : Type} (f : V -> nat) (o : nobj V) (k : Z) (v : V) :
  nsum f (nobj_set o k v)
  + match nobj_get o k with Some c => f c | None => 0 end
  = nsum f o + f v.
Proof.
  unfold nobj_set. destruct (nobj_get o k) as [c |] eqn:E.
  - now apply nsum_replace.
  - rewrite nsum_insert. lia.
Qed.

(** ** The distribution of a list of values *)

Lemma calculateDistribution_snoc (values : list Z) (value : Z) :
  calculateDistribution (values ++ [value])
  = nobj_set (calculateDistribution values) value
      (match nobj_get (calculateDistribution values) value with
       | Some c => c + 1
       | None => 1
       end).
Proof. unfold calculateDistribution. now rewrite fold_left_app. Qed.

(** X11. The distribution of a list of integers gives every value that
    occurs in the list the number of its occurrences, and has no entry
    for a value that does not occur. *)
Theorem distribution_counts_occurrences (values : list Z) (v : Z) :
  nobj_get (calculateDistribution values) v
  = if count_occ Z.eq_dec values v =? 0 then None
    else Some (count_occ Z.eq_dec values v).
Proof.
  induction values as [| x r IH] using rev_ind; [reflexivity |].
  rewrite calculateDistribution_snoc, count_occ_app. cbn [count_occ].
  destruct (Z.eq_dec x v) as [-> | Hne].
  - rewrite nobj_get_set_same, IH.
    destruct (Nat.eqb_spec (count_occ Z.eq_dec r v) 0) as [H0 | Hpos].
    + rewrite H0. reflexivity.
    + destruct (Nat.eqb_spec (count_occ Z.eq_dec r v + 1) 0); [lia |].
      reflexivity.
  - rewrite nobj_get_set_other by assumption. rewrite IH.
    now rewrite Nat.add_0_r.
Qed.

Lemma distribution_keys (values : list Z) (v : Z) :
  nobj_get (calculateDistribution values) v <> None -> In v values.
Proof.
  induction values as [| x r IH] using rev_ind; [simpl; congruence |].
  rewrite calculateDistribution_snoc. intros H. apply in_or_app.
  destruct (Z.eq_dec x v) as [-> | Hne]; [right; now left | left].
  rewrite nobj_get_set_other in H by assumption. now apply IH.
Qed.

Lemma distribution_size_of (values : list Z) :
  nsum (fun c => c) (calculateDistribution values) = List.length values.
Proof.
  induction values as [| x r IH] using rev_ind; [reflexivity |].
  rewrite calculateDistribution_snoc, length_app. cbn [List.length].
  pose proof (nsum_set (fun c => c) (calculateDistribution r) x
                (match nobj_get (calculateDistribution r) x with
                 | Some c => c + 1
                 | None => 1
                 end)) as H.
  destruct (nobj_get (calculateDistribution r) x); lia.
Qed.

(** ** Temporal patterns *)

Lemma ensure_year_get (yd : nobj YearCount) (y : Z) :
  nobj_get (ensure_year yd y) y <> None.
Proof.
  unfold ensure_year. destruct (nobj_get yd y) eqn:E; [congruence |].
  rewrite nobj_get_set_same. discriminate.
Qed.

Lemma ensure_year_keeps (yd : nobj YearCount) (y y' : Z) :
  nobj_get yd y' <> None -> nobj_get (ensure_year yd y) y' <> None.
Proof.
  unfold ensure_year. destruct (nobj_get yd y) eqn:E; [auto |].
  intros H. destruct (Z.eq_dec y y') as [-> | Hne].
  - rewrite nobj_get_set_same. discriminate.
  - now rewrite nobj_get_set_other.
Qed.

Lemma ensure_year_sum (f : YearCount -> nat) (yd : nobj YearCount) (y : Z) :
  f {| yc_citing := 0; yc_cited := 0 |} = 0 ->
  nsum f (ensure_year yd y) = nsum f yd.
Proof.
  intros H0. unfold ensure_year. destruct (nobj_get yd y) eqn:E;
    [reflexivity |].
  pose proof (nsum_set f yd y {| yc_citing := 0; yc_cited := 0 |}) as H.
  rewrite E, H0 in H. lia.
Qed.

(** One edge whose two papers are known adds one citing and one cited
    count, and at most one lag, which is not negative. *)
Lemma temporal_step_counts (e : Engine) (st : nobj YearCount * list Z)
    (edge : CitationEdge) (p q : PaperNode) :
  obj_get (paperNodes e) (source edge) = Some p ->
  obj_get (paperNodes e) (target edge) = Some q ->
  exists st',
    temporal_step e st edge = Ok st' /\
    nsum yc_citing (fst st') = S (nsum yc_citing (fst st)) /\
    nsum yc_cited (fst st') = S (nsum yc_cited (fst st)) /\
    (snd st' = snd st \/
     exists lag, (0 <= lag)%Z /\ snd st' = snd st ++ [lag]).
Proof.
  intros Hp Hq. destruct st as [yd lags]. unfold temporal_step.
  rewrite Hp, Hq. cbn [defined obind fst snd].
  set (sy := getFullYear (publishedDate p)).
  set (ty := getFullYear (publishedDate q)).
  set (yd1 := ensure_year (ensure_year yd sy) ty).
  assert (Hs : nobj_get yd1 sy <> None)
    by (apply ensure_year_keeps, ensure_year_get).
  assert (Hsum1 : forall f, f {| yc_citing := 0; yc_cited := 0 |} = 0 ->
                    nsum f yd1 = nsum f yd).
  { intros f H0. unfold yd1. now rewrite !ensure_year_sum. }
  unfold bump_citing. destruct (nobj_get yd1 sy) as [c |] eqn:Ec;
    [| congruence].
  cbn [defined obind].
  set (yd2 := nobj_set yd1 sy
                {| yc_citing := yc_citing c + 1; yc_cited := yc_cited c |}).
  assert (Ht : nobj_get yd2 ty <> None).
  { unfold yd2. destruct (Z.eq_dec sy ty) as [Heq | Hne].
    - rewrite <- Heq, nobj_get_set_same. discriminate.
    - rewrite nobj_get_set_other by assumption. apply ensure_year_get. }
  unfold bump_cited. destruct (nobj_get yd2 ty) as [d |] eqn:Ed;
    [| congruence].
  cbn [defined obind].
  set (yd3 := nobj_set yd2 ty
                {| yc_citing := yc_citing d; yc_cited := yc_cited d + 1 |}).
  assert (Hciting : nsum yc_citing yd3 = S (nsum yc_citing yd)).
  { pose proof (nsum_set yc_citing yd2 ty
                  {| yc_citing := yc_citing d; yc_cited := yc_cited d + 1 |})
      as H3.
    pose proof (nsum_set yc_citing yd1 sy
                  {| yc_citing := yc_citing c + 1; yc_cited := yc_cited c |})
      as H2.
    fold yd3 in H3. fold yd2 in H2, H3. rewrite Ed in H3. rewrite Ec in H2.
    cbn [yc_citing] in H2, H3. rewrite (Hsum1 yc_citing eq_refl) in H2. lia. }
  assert (Hcited : nsum yc_cited yd3 = S (nsum yc_cited yd)).
  { pose proof (nsum_set yc_cited yd2 ty
                  {| yc_citing := yc_citing d; yc_cited := yc_cited d + 1 |})
      as H3.
    pose proof (nsum_set yc_cited yd1 sy
                  {| yc_citing := yc_citing c + 1; yc_cited := yc_cited c |})
      as H2.
    fold yd3 in H3. fold yd2 in H2, H3. rewrite Ed in H3. rewrite Ec in H2.
    cbn [yc_cited] in H2, H3. rewrite (Hsum1 yc_cited eq_refl) in H2. lia. }
  destruct (Z.leb_spec 0 (sy - ty)) as [Hlag | Hlag]; eexists;
    (split; [reflexivity |]); cbn [fst snd];
    (split; [assumption |]); (split; [assumption |]).
  - right. exists (sy - ty)%Z. now split.
  - now left.
Qed.

Lemma temporal_loop_counts (e : Engine) (edges : list CitationEdge) :
  (forall edge, In edge edges ->
     exists p q, obj_get (paperNodes e) (source edge) = Some p /\
                 obj_get (paperNodes e) (target edge) = Some q) ->
  forall st,
    Forall (fun lag => 0 <= lag)%Z (snd st) ->
    exists st',
      ofold (temporal_step e) edges st = Ok st' /\
      nsum yc_citing (fst st')
      = List.length edges + nsum yc_citing (fst st) /\
      nsum yc_cited (fst st') = List.length edges + nsum yc_cited (fst st) /\
      Forall (fun lag => 0 <= lag)%Z (snd st') /\
      List.length (snd st') <= List.length edges + List.length (snd st).
Proof.
  induction edges as [| edge r IH]; intros Hknown st Hlags; cbn [ofold].
  - exists st. repeat split; auto.
  - destruct (Hknown edge (or_introl eq_refl)) as [p [q [Hp Hq]]].
    destruct (temporal_step_counts e st edge p q Hp Hq)
      as [st1 [H1 [Hc1 [Hd1 Hl1]]]].
    rewrite H1. cbn [obind].
    destruct (IH (fun x Hx => Hknown x (or_intror Hx)) st1)
      as [st' [H' [Hc [Hd [Hf Hlen]]]]].
    { destruct Hl1 as [-> | [lag [Hlag ->]]]; [assumption |].
      apply Forall_app. split; [assumption | now constructor]. }
    exists st'. split; [assumption |]. cbn [List.length].
    split; [lia |]. split; [lia |]. split; [assumption |].
    destruct Hl1 as [Heq | [lag [_ Heq]]]; rewrite Heq in Hlen;
      [| rewrite length_app in Hlen; simpl in Hlen]; lia.
Qed.

Lemma Zsum_nonneg (l : list Z) :
  Forall (fun x => 0 <= x)%Z l -> (0 <= Zsum l)%Z.
Proof.
  unfold Zsum.
  assert (H : forall a, (0 <= a)%Z -> Forall (fun x => 0 <= x)%Z l ->
                (0 <= fold_left Z.add l a)%Z).
  { induction l as [| x r IH]; intros a Ha Hl; simpl; [assumption |].
    inversion Hl; subst. apply IH; [lia | assumption]. }
  apply H. lia.
Qed.

Lemma known_papers (e : Engine) :
  engine_ok e -> edges_ok e ->
  forall edge, In edge (obj_values (citationEdges e)) ->
    exists p q, obj_get (paperNodes e) (source edge) = Some p /\
                obj_get (paperNodes e) (target edge) = Some q.
Proof.
  intros [_ Hp] Hedges edge Hin. destruct (Hedges edge Hin) as [Hs Ht].
  destruct (Hp _ Hs) as [p [Hgp _]]. destruct (Hp _ Ht) as [q [Hgq _]].
  now exists p, q.
Qed.

(** X12. After a build, the temporal analysis returns.  Over the years,
    the citing counts and the cited counts each add up to the number of
    citation edges; the lag distribution has only lags that are not
    negative and counts at most one lag per edge; and the average lag is
    NaN when no lag is recorded and a number that is not negative
    otherwise. *)
Theorem temporal_patterns_count_every_edge
    (options : BuildOptions) (s : Store) :
  let e := snd (buildCitationNetwork options s) in
  let n := List.length (obj_values (citationEdges e)) in
  exists t,
    analyzeTemporalPatterns e = Ok t /\
    nsum yc_citing (yearlyData t) = n /\
    nsum yc_cited (yearlyData t) = n /\
    nsum (fun c => c) (citationLagDistribution t) <= n /\
    (forall lag, nobj_get (citationLagDistribution t) lag <> None ->
       (0 <= lag)%Z) /\
    match nsum (fun c => c) (citationLagDistribution t) with
    | 0 => avgCitationLag t = JNaN
    | S _ => exists q, avgCitationLag t = JFin q /\ (0 <= q)%Q
    end.
Proof.
  intros e n.
  pose proof (known_papers e (buildCitationNetwork_ok options s)
                (buildCitationNetwork_edges_ok options s)) as Hknown.
  destruct (temporal_loop_counts e (obj_values (citationEdges e)) Hknown
              ([], [])) as [[yd lags] [Hl [Hc [Hd [Hf Hlen]]]]];
    [constructor |].
  cbn [fst snd List.length] in Hc, Hd, Hf, Hlen.
  unfold analyzeTemporalPatterns. rewrite Hl. cbn [obind].
  eexists. split; [reflexivity |].
  cbn [yearlyData citationLagDistribution avgCitationLag].
  rewrite distribution_size_of.
  split; [unfold n; unfold nsum in *; simpl in *; lia |].
  split; [unfold n; unfold nsum in *; simpl in *; lia |].
  split; [unfold n; lia |]. split.
  - intros lag Hget. apply distribution_keys in Hget.
    rewrite Forall_forall in Hf. now apply Hf.
  - destruct lags as [| l0 r]; [reflexivity |].
    cbn [List.length].
    rewrite (jdiv_by_count _ (S (List.length r))) by lia.
    eexists. split; [reflexivity |].
    apply Qle_shift_div_l; [apply qnat_pos; lia |].
    rewrite Qmult_0_l. change 0%Q with (inject_Z 0). rewrite <- Zle_Qle.
    now apply Zsum_nonneg.
Qed.

(** ** Categorical patterns *)

Lemma osum_set {V : Type} (f : V -> nat) (o : obj V) (k : string) (v : V) :
  osum f (obj_set o k v)
  + match obj_get o k with Some c => f c | None => 0 end
  = osum f o + f v.
Proof.
  unfold osum. induction o as [| [k' v'] r IH]; simpl; [lia |].
  destruct (String.eqb k' k); simpl; lia.
Qed.

Lemma tally_total (row : obj nat) (k : string) :
  osum (fun c => c) (tally row k) = S (osum (fun c => c) row).
Proof.
  unfold tally.
  pose proof (osum_set (fun c => c) row k
                (match obj_get row k with Some c => c + 1 | None => 1 end))
    as H.
  destruct (obj_get row k); lia.
Qed.

Section Categorical.

Variable e : Engine.
Variables sourcePaper targetPaper : PaperNode.
Variable P : CrossCitation -> Prop.

Lemma categorical_target_counts (sourceCategory : string)
    (st : obj (obj nat) * list CrossCitation) (targetCategory : string) :
  obj_get (fst st) sourceCategory <> None ->
  (sourceCategory <> targetCategory ->
   P {| cc_from := sourceCategory; cc_to := targetCategory;
        cc_sourcePaper := id sourcePaper;
        cc_targetPaper := id targetPaper |}) ->
  Forall P (snd st) ->
  exists st',
    categorical_target sourcePaper targetPaper sourceCategory st
      targetCategory = Ok st' /\
    matrix_total (fst st') = S (matrix_total (fst st)) /\
    obj_get (fst st') sourceCategory <> None /\
    Forall P (snd st').
Proof.
  destruct st as [m cross]. cbn [fst snd]. intros Hrow HP Hall.
  unfold categorical_target.
  destruct (obj_get m sourceCategory) as [row |] eqn:Er; [| congruence].
  cbn [defined obind].
  assert (Ht : matrix_total
                 (obj_set m sourceCategory (tally row targetCategory))
               = S (matrix_total m)).
  { unfold matrix_total.
    pose proof (osum_set (osum (fun c => c)) m sourceCategory
                  (tally row targetCategory)) as H.
    rewrite Er, tally_total in H. lia. }
  destruct (String.eqb_spec sourceCategory targetCategory) as [Heq | Hne];
    cbn [negb]; eexists; (split; [reflexivity |]); cbn [fst snd];
    (split; [assumption |]);
    (split; [rewrite obj_get_set_same; discriminate |]).
  - assumption.
  - apply Forall_app. split; [assumption |]. constructor; [| constructor].
    now apply HP.
Qed.

Lemma categorical_targets_counts (sourceCategory : string)
    (targets : list string) :
  (forall t, In t targets -> sourceCategory <> t ->
     P {| cc_from := sourceCategory; cc_to := t;
          cc_sourcePaper := id sourcePaper;
          cc_targetPaper := id targetPaper |}) ->
  forall st,
    obj_get (fst st) sourceCategory <> None -> Forall P (snd st) ->
    exists st',
      ofold (categorical_target sourcePaper targetPaper sourceCategory)
        targets st = Ok st' /\
      matrix_total (fst st') = List.length targets + matrix_total (fst st) /\
      Forall P (snd st').
Proof.
  induction targets as [| t r IH]; intros HP st Hrow Hall; cbn [ofold].
  - exists st. auto.
  - destruct (categorical_target_counts sourceCategory st t Hrow
                (HP t (or_introl eq_refl)) Hall)
      as [st1 [H1 [Ht1 [Hrow1 Hall1]]]].
    rewrite H1. cbn [obind].
    destruct (IH (fun x Hx => HP x (or_intror Hx)) st1 Hrow1 Hall1)
      as [st' [H' [Ht' Hall']]].
    exists st'. split; [assumption |]. split; [| assumption].
    cbn [List.length]. lia.
Qed.

Lemma categorical_source_counts
    (st : obj (obj nat) * list CrossCitation) (sourceCategory : string) :
  (forall t, In t (categories targetPaper) -> sourceCategory <> t ->
     P {| cc_from := sourceCategory; cc_to := t;
          cc_sourcePaper := id sourcePaper;
          cc_targetPaper := id targetPaper |}) ->
  Forall P (snd st) ->
  exists st',
    categorical_source sourcePaper targetPaper st sourceCategory = Ok st' /\
    matrix_total (fst st')
    = List.length (categories targetPaper) + matrix_total (fst st) /\
    Forall P (snd st').
Proof.
  destruct st as [m cross]. cbn [fst snd]. intros HP Hall.
  unfold categorical_source.
  set (m1 := match obj_get m sourceCategory with
             | Some _ => m
             | None => obj_set m sourceCategory []
             end).
  assert (Hrow : obj_get m1 sourceCategory <> None).
  { unfold m1. destruct (obj_get m sourceCategory) eqn:E; [congruence |].
    rewrite obj_get_set_same. discriminate. }
  assert (Hsame : matrix_total m1 = matrix_total m).
  { unfold m1. destruct (obj_get m sourceCategory) eqn:E; [reflexivity |].
    unfold matrix_total.
    pose proof (osum_set (osum (fun c => c)) m sourceCategory []) as H.
    rewrite E in H. cbn in H. lia. }
  destruct (categorical_targets_counts sourceCategory
              (categories targetPaper) HP (m1, cross) Hrow Hall)
    as [st' [H' [Ht' Hall']]].
  exists st'. split; [assumption |]. split; [| assumption].
  cbn [fst] in Ht'. lia.
Qed.

Lemma categorical_sources_counts (sources : list string) :
  (forall c t, In c sources -> In t (categories targetPaper) -> c <> t ->
     P {| cc_from := c; cc_to := t;
          cc_sourcePaper := id sourcePaper;
          cc_targetPaper := id targetPaper |}) ->
  forall st,
    Forall P (snd st) ->
    exists st',
      ofold (categorical_source sourcePaper targetPaper) sources st
      = Ok st' /\
      matrix_total (fst st')
      = List.length sources * List.length (categories targetPaper)
        + matrix_total (fst st) /\
      Forall P (snd st').
Proof.
  induction sources as [| c r IH]; intros HP st Hall; cbn [ofold].
  - exists st. auto.
  - destruct (categorical_source_counts st c
                (fun t Ht => HP c t (or_introl eq_refl) Ht) Hall)
      as [st1 [H1 [Ht1 Hall1]]].
    rewrite H1. cbn [obind].
    destruct (IH (fun x t Hx => HP x t (or_intror Hx)) st1 Hall1)
      as [st' [H' [Ht' Hall']]].
    exists st'. split; [assumption |]. split; [| assumption].
    cbn [List.length]. lia.
Qed.

End Categorical.

Lemma categorical_loop_counts (e : Engine) (edges : list CitationEdge) :
  (forall edge, In edge edges ->
     In edge (obj_values (citationEdges e)) /\
     exists p q, obj_get (paperNodes e) (source edge) = Some p /\
                 obj_get (paperNodes e) (target edge) = Some q) ->
  forall st,
    Forall (cross_of e) (snd st) ->
    exists st',
      ofold (categorical_step e) edges st = Ok st' /\
      matrix_total (fst st')
      = list_sum
          (map (fun edge =>
                  category_count e (source edge)
                  * category_count e (target edge)) edges)
        + matrix_total (fst st) /\
      Forall (cross_of e) (snd st').
Proof.
  induction edges as [| edge r IH]; intros Hknown st Hall; cbn [ofold].
  - exists st. auto.
  - destruct (Hknown edge (or_introl eq_refl)) as [Hin [p [q [Hp Hq]]]].
    unfold categorical_step at 1. rewrite Hp, Hq. cbn [defined obind].
    destruct (categorical_sources_counts p q (cross_of e) (categories p))
      with (st := st) as [st1 [H1 [Ht1 Hall1]]].
    { intros c t Hc Ht Hne. split; [exact Hne |].
      exists edge, p, q. cbn. repeat split; assumption. }
    { assumption. }
    rewrite H1. cbn [obind].
    destruct (IH (fun x Hx => Hknown x (or_intror Hx)) st1 Hall1)
      as [st' [H' [Ht' Hall']]].
    exists st'. split; [assumption |]. split; [| assumption].
    assert (Hcount : category_count e (source edge)
                     * category_count e (target edge)
                     = List.length (categories p)
                       * List.length (categories q))
      by (unfold category_count; now rewrite Hp, Hq).
    cbn [map list_sum fold_right]. rewrite Hcount, Ht', Ht1.
    unfold list_sum. lia.
Qed.


(** ** Sentiment patterns *)

Lemma bump_sentiment_total (c : SentimentCount) (s : Sentiment) :
  sentiment_total (bump_sentiment c s) = S (sentiment_total c).
Proof. unfold sentiment_total. destruct s; simpl; lia. Qed.

Lemma sentiment_category_counts (s : Sentiment)
    (byCategory : obj SentimentCount) (category : string) :
  exists byCategory',
    sentiment_category s byCategory category = Ok byCategory' /\
    osum sentiment_total byCategory' = S (osum sentiment_total byCategory).
Proof.
  unfold sentiment_category.
  set (b1 := match obj_get byCategory category with
             | Some _ => byCategory
             | None => obj_set byCategory category no_sentiment
             end).
  assert (Hsame : osum sentiment_total b1 = osum sentiment_total byCategory).
  { unfold b1. destruct (obj_get byCategory category) eqn:E; [reflexivity |].
    pose proof (osum_set sentiment_total byCategory category no_sentiment)
      as H.
    rewrite E in H. cbn in H. lia. }
  assert (Hrow : obj_get b1 category <> None).
  { unfold b1. destruct (obj_get byCategory category) eqn:E; [congruence |].
    rewrite obj_get_set_same. discriminate. }
  destruct (obj_get b1 category) as [c |] eqn:Ec; [| congruence].
  cbn [defined obind]. eexists. split; [reflexivity |].
  pose proof (osum_set sentiment_total b1 category (bump_sentiment c s))
    as H.
  rewrite Ec, bump_sentiment_total in H. lia.
Qed.

Lemma sentiment_categories_counts (s : Sentiment) (l : list string) :
  forall byCategory,
    exists byCategory',
      ofold (sentiment_category s) l byCategory = Ok byCategory' /\
      osum sentiment_total byCategory'
      = List.length l + osum sentiment_total byCategory.
Proof.
  induction l as [| c r IH]; intros b; cbn [ofold].
  - now exists b.
  - destruct (sentiment_category_counts s b c) as [b1 [H1 Ht1]].
    rewrite H1. cbn [obind].
    destruct (IH b1) as [b' [H' Ht']]. exists b'.
    split; [assumption |]. cbn [List.length]. lia.
Qed.

Lemma sentiment_loop_counts (e : Engine) (edges : list CitationEdge) :
  (forall edge, In edge edges ->
     exists p q, obj_get (paperNodes e) (source edge) = Some p /\
                 obj_get (paperNodes e) (target edge) = Some q) ->
  forall st,
    exists st',
      ofold (sentiment_step e) edges st = Ok st' /\
      n_positive (fst st')
      = with_sentiment positive edges + n_positive (fst st) /\
      n_negative (fst st')
      = with_sentiment negative edges + n_negative (fst st) /\
      n_neutral (fst st')
      = with_sentiment neutral edges + n_neutral (fst st) /\
      osum sentiment_total (snd st')
      = list_sum (map (fun edge => category_count e (source edge)) edges)
        + osum sentiment_total (snd st).
Proof.
  induction edges as [| edge r IH]; intros Hknown st; cbn [ofold].
  - exists st. repeat split; reflexivity.
  - destruct (Hknown edge (or_introl eq_refl)) as [p [q [Hp _]]].
    destruct st as [count byCategory].
    unfold sentiment_step at 1. rewrite Hp. cbn [defined obind].
    destruct (sentiment_categories_counts (sentiment edge) (categories p)
                byCategory) as [b1 [H1 Ht1]].
    rewrite H1. cbn [obind].
    destruct (IH (fun x Hx => Hknown x (or_intror Hx))
                (bump_sentiment count (sentiment edge), b1))
      as [st' [H' [Hpos [Hneg [Hneu Ht']]]]].
    exists st'. split; [assumption |]. cbn [fst snd] in *.
    assert (Hcount : category_count e (source edge)
                     = List.length (categories p))
      by (unfold category_count; now rewrite Hp).
    unfold with_sentiment in *. cbn [filter map list_sum fold_right].
    rewrite Hcount, Hpos, Hneg, Hneu, Ht', Ht1.
    unfold list_sum.
    destruct (sentiment edge); cbn [bump_sentiment n_positive n_negative
                                    n_neutral List.length];
      repeat split; lia.
Qed.


(** ** All the patterns *)

(** X15. After a build that leaves a node in the graph, the analysis of
    the citation patterns returns its four parts and leaves the engine
    as it is; on an engine without nodes it first builds the network
    with the default options, and returns as well. *)
Theorem analyzeCitationPatterns_returns (options : BuildOptions) (s s' : Store) :
  let e := snd (buildCitationNetwork options s) in
  exists patterns,
    fst (analyzeCitationPatterns e s') = Ok patterns /\
    geographical patterns = analyzeGeographicalPatterns /\
    analyzeTemporalPatterns (snd (analyzeCitationPatterns e s'))
    = Ok (temporal patterns) /\
    analyzeCategoricalPatterns (snd (analyzeCitationPatterns e s'))
    = Ok (categorical patterns) /\
    analyzeSentimentPatterns (snd (analyzeCitationPatterns e s'))
    = Ok (sentimentPatterns patterns) /\
    snd (analyzeCitationPatterns e s')
    = match Graph.nodes (graph e) with
      | [] => snd (buildCitationNetwork no_options s')
      | _ :: _ => e
      end.
Proof.
  intros e. unfold analyzeCitationPatterns. cbn [fst snd].
  set (e' := if List.length (Graph.nodes (graph e)) =? 0
             then snd (buildCitationNetwork no_options s') else e).
  assert (He' : exists o t, e' = snd (buildCitationNetwork o t)).
  { unfold e'. destruct (List.length (Graph.nodes (graph e)) =? 0).
    - now exists no_options, s'.
    - now exists options, s. }
  destruct He' as [o [t He']].
  destruct (temporal_loop_counts e' (obj_values (citationEdges e'))) with
    (st := (@nil (Z * YearCount), @nil Z)) as [[yd lags] [Htl _]].
  { rewrite He'. apply known_papers;
      [apply buildCitationNetwork_ok | apply buildCitationNetwork_edges_ok]. }
  { constructor. }
  destruct (categorical_loop_counts e' (obj_values (citationEdges e')))
    with (st := (@nil (string * obj nat), @nil CrossCitation))
    as [cst [Hcl _]].
  { intros edge Hin. split; [assumption |]. revert edge Hin. rewrite He'.
    apply known_papers;
      [apply buildCitationNetwork_ok | apply buildCitationNetwork_edges_ok]. }
  { constructor. }
  destruct (sentiment_loop_counts e' (obj_values (citationEdges e')))
    with (st := (no_sentiment, @nil (string * SentimentCount)))
    as [sst [Hsl _]].
  { rewrite He'. apply known_papers;
      [apply buildCitationNetwork_ok | apply buildCitationNetwork_edges_ok]. }
  unfold analyzeTemporalPatterns, analyzeCategoricalPatterns,
    analyzeSentimentPatterns.
  rewrite Htl, Hcl, Hsl. cbn [obind].
  eexists. split; [reflexivity |].
  cbn [geographical temporal categorical sentimentPatterns].
  repeat (split; [reflexivity |]).
  unfold e'. destruct (Graph.nodes (graph e)); reflexivity.
Qed.

(** ** The handlers *)

(** X16. For every store, the density that [GET /stats] reports is a
    number between 0 and 1, and it is 0 when the store has fewer than
    two papers; the two totals are the document counts, and the
    clustering value is 0.65 unless the store has no paper. *)
Theorem stats_density_is_guarded (s : Store) :
  totalNodes (get_stats s) = List.length (paper_docs s) /\
  totalEdges (get_stats s) = List.length (citation_docs s) /\
  avgClustering (get_stats s)
  = (if List.length (paper_docs s) =? 0 then JFin 0 else JFin (65 # 100)) /\
  exists q,
    networkDensity (get_stats s) = JFin q /\ (0 <= q)%Q /\ (q <= 1)%Q /\
    match List.length (paper_docs s) with
    | 0 | 1 => q = 0%Q
    | S (S _) => True
    end.
Proof.
  unfold get_stats. cbn [totalNodes totalEdges avgClustering networkDensity].
  set (n := List.length (paper_docs s)).
  set (m := List.length (citation_docs s)).
  split; [reflexivity |]. split; [reflexivity |]. split.
  - destruct n; reflexivity.
  - destruct (Nat.ltb_spec 1 n) as [Hn | Hn].
    + assert (Hprod : jmul (jnat n) (jadd (jnat n) (JFin (-1)))
                      = JFin (qnat n * (qnat n + -1))) by reflexivity.
      rewrite Hprod.
      assert (Hq : (1 < qnat n)%Q).
      { change 1%Q with (qnat 1). unfold qnat. rewrite <- Zlt_Qlt. lia. }
      assert (Hpos : (0 < qnat n * (qnat n + -1))%Q).
      { apply Qmult_lt_0_compat; lra. }
      assert (Hz : Qzero (qnat n * (qnat n + -1)) = false).
      { apply Qzero_false. intros E. rewrite E in Hpos.
        now apply Qlt_irrefl in Hpos. }
      unfold jdiv, jnat. fold (qnat m). fold (qnat n). rewrite Hz.
      set (d := (qnat m / (qnat n * (qnat n + -1)))%Q).
      assert (Hd : (0 <= d)%Q).
      { unfold d. apply Qle_shift_div_l; [assumption |].
        rewrite Qmult_0_l. apply jnat_nonneg. }
      cbn [jmin jgt].
      destruct (Qle_bool d 1) eqn:E; cbn [negb].
      * apply Qle_bool_iff in E. exists d.
        split; [reflexivity |]. split; [assumption |]. split; [assumption |].
        destruct n as [| [| n']]; [lia | lia | exact I].
      * exists 1%Q. split; [reflexivity |]. split; [lra |].
        split; [lra |]. destruct n as [| [| n']]; [lia | lia | exact I].
    + exists 0%Q. split; [reflexivity |]. split; [lra |]. split; [lra |].
      destruct n as [| [| n']]; [reflexivity | reflexivity | lia].
Qed.

(** The parts of the metrics of an engine as a build leaves it. *)
Lemma metrics_parts (e : Engine) :
  engine_ok e -> Graph.nodes (graph e) <> [] ->
  exists metrics b,
    calculateNetworkMetrics e = Ok metrics /\
    calculateBetweennessCentrality (graph e) = Ok b /\
    centrality metrics
    = {| c_inDegree := inDegree_table (graph e);
         c_outDegree := outDegree_table (graph e);
         c_betweenness := b;
         c_authority := calculateAuthorityScore (graph e) |} /\
    clustering metrics = calculateClusteringMetrics e /\
    basic metrics = calculateBasicMetrics e /\
    findConnectedComponents (graph e) = Ok (components metrics) /\
    detectCommunities e = Ok (communities metrics).
Proof.
  intros He Hne. unfold calculateNetworkMetrics.
  destruct (Nat.eqb_spec (List.length (Graph.nodes (graph e))) 0) as [H0 | _].
  { destruct (Graph.nodes (graph e)); [congruence | discriminate]. }
  unfold calculateCentralityMetrics.
  destruct (calculateBetweennessCentrality_ok (graph e) (proj1 He))
    as [b [Hb _]].
  rewrite Hb. cbn [obind].
  destruct (findConnectedComponents_ok (graph e) (proj1 He)) as [cr Hcr].
  rewrite Hcr. cbn [obind].
  destruct (detectCommunities_ok e He) as [report [Hrep _]].
  rewrite Hrep. cbn [obind].
  eexists. exists b. split; [reflexivity |].
  cbn [centrality clustering basic components communities].
  repeat split.
Qed.

Lemma obj_get_absent {V : Type} (o : obj V) (k : string) :
  ~ In k (obj_keys o) -> obj_get o k = None.
Proof.
  intros H. destruct (obj_get o k) as [v |] eqn:E; [| reflexivity].
  exfalso. apply H. apply obj_get_keys. now exists v.
Qed.

Lemma fill_absent {V : Type} (f : string -> V) (l : list string)
    (k : string) :
  ~ In k l -> obj_get (fold_left (fun t k => obj_set t k (f k)) l []) k = None.
Proof. intros H. now rewrite obj_get_fill_other. Qed.


Lemma slice0_length {A : Type} (n : Z) (l : list A) :
  (0 <= n)%Z -> List.length (slice0 n l) = Nat.min (Z.to_nat n) (List.length l).
Proof.
  intros H. unfold slice0. destruct (Z.ltb_spec n 0); [lia |].
  apply length_firstn.
Qed.

Lemma slice0_In {A : Type} (n : Z) (l : list A) (x : A) :
  In x (slice0 n l) -> In x l.
Proof. unfold slice0. destruct (n <? 0)%Z; apply firstn_In. Qed.

Section RouteFacts.

Variable toString : Q -> string.


(** X19. For every engine, [GET /export] answers with the network
    object and no header of its own when the format is [json], missing
    or empty; with any other format it sets the XML content type and a
    file name ending in the format, and when that format is neither
    [gexf] nor [graphml] the body is still the network object. *)
Theorem export_of_unknown_format_is_json_with_xml_headers
    (format : option string) (generatedAt : string) (e : Engine) :
  let f := match format with
           | None | Some EmptyString => "json"%string
           | Some f => f
           end in
  if String.eqb f "json" then
    get_export toString format generatedAt e
    = Ok {| er_contentType := None;
            er_contentDisposition := None;
            er_body := AsObject (network_data generatedAt e) |}
  else if String.eqb f "gexf" || String.eqb f "graphml" then
    forall reply,
      get_export toString format generatedAt e = Ok reply ->
      er_contentType reply = Some "application/xml"%string /\
      exists xml, er_body reply = AsText xml
  else
    get_export toString format generatedAt e
    = Ok {| er_contentType := Some "application/xml"%string;
            er_contentDisposition :=
              Some ("attachment; filename=" +++
                    quoted ("citation_network." +++ f));
            er_body := AsObject (network_data generatedAt e) |}.
Proof.
  intros f. unfold get_export. fold f. unfold exportNetworkData.
  destruct (String.eqb f "json") eqn:Ej; [reflexivity |].
  destruct (String.eqb f "gexf") eqn:Eg; cbn [orb].
  - intros reply.
    destruct (convertToGEXF toString (network_data generatedAt e))
      as [xml | |]; cbn [obind]; try discriminate.
    intros [= <-]. cbn. split; [reflexivity | now exists xml].
  - destruct (String.eqb f "graphml") eqn:Em; cbn [obind].
    + intros reply [= <-]. cbn. split; [reflexivity | eexists; reflexivity].
    + reflexivity.
Qed.

End RouteFacts.

(** ** The flags in the store *)

Lemma updateMany_keeps_flags (s : Store) (ids : list string) :
  Forall2 flag_kept (paper_docs s)
    (paper_docs (Paper_updateMany_isSeminal s ids)) /\
  (forall p', In p' (paper_docs (Paper_updateMany_isSeminal s ids)) ->
     str_in (doc_id p') ids = true -> doc_isSeminal p' = true).
Proof.
  unfold Paper_updateMany_isSeminal. cbn [paper_docs]. split.
  - induction (paper_docs s) as [| p r IH]; cbn [map]; constructor;
      [| assumption].
    destruct (str_in (doc_id p) ids); unfold flag_kept; cbn; tauto.
  - intros p' Hin Hid. apply in_map_iff in Hin.
    destruct Hin as [p [<- _]].
    destruct (str_in (doc_id p) ids) eqn:E; [reflexivity |].
    congruence.
Qed.

(** X21. For every engine and store, a call of [identifySeminalPapers]
    leaves the store with the same papers in the same order and the
    same citations; it changes nothing of a paper but its seminal flag,
    which it only ever sets: a paper flagged before the call is flagged
    after it, whether or not it is among the papers returned, and every
    stored paper whose id is returned is flagged. *)
Theorem seminal_flags_are_never_cleared (options : SeminalOptions)
    (currentYear : Z) (e : Engine) (s : Store) :
  let r := identifySeminalPapers options currentYear e s in
  let s' := snd r in
  Forall2 flag_kept (paper_docs s) (paper_docs s') /\
  citation_docs s' = citation_docs s /\
  forall seminalPapers, fst (fst r) = Ok seminalPapers ->
    forall p', In p' (paper_docs s') ->
      In (doc_id p') (map (fun sp => id (paper sp)) seminalPapers) ->
      doc_isSeminal p' = true.
Proof.
  assert (Hrefl : forall l, Forall2 flag_kept l l).
  { induction l as [| p r IH]; constructor; [| assumption].
    unfold flag_kept. tauto. }
  unfold identifySeminalPapers. cbv zeta.
  destruct (calculateNetworkMetrics _) as [metrics | err |];
    cbn [fst snd]; [| split; [apply Hrefl | split; [reflexivity |]];
                      intros sp; discriminate ..].
  destruct (ofold _ _ _) as [candidates | err |];
    cbn [fst snd]; [| split; [apply Hrefl | split; [reflexivity |]];
                      intros sp; discriminate ..].
  split; [apply updateMany_keeps_flags |]. split; [reflexivity |].
  intros sp [= <-] p' Hin Hid.
  apply (proj2 (updateMany_keeps_flags s _) p' Hin).
  now apply str_in_In.
Qed.

(** ** The similarity of two papers *)

Lemma common_length (s1 s2 : list string) :
  NoDup s1 -> NoDup s2 ->
  List.length (filter (fun x => str_in x s2) s1)
  = List.length (filter (fun x => str_in x s1) s2).
Proof.
  intros H1 H2. apply Permutation_length. apply NoDup_Permutation.
  - now apply NoDup_filter.
  - now apply NoDup_filter.
  - intros x. rewrite !filter_In, !str_in_In. tauto.
Qed.

Lemma overlap_ratio_sym (l1 l2 : list string) :
  overlap_ratio l1 l2 = overlap_ratio l2 l1.
Proof.
  unfold overlap_ratio.
  rewrite (Set_of_NoDup_id
             (filter (fun x => str_in x (Set_of l2)) (Set_of l1)))
    by (apply NoDup_filter, Set_of_NoDup).
  rewrite (Set_of_NoDup_id
             (filter (fun x => str_in x (Set_of l1)) (Set_of l2)))
    by (apply NoDup_filter, Set_of_NoDup).
  rewrite (common_length (Set_of l1) (Set_of l2) (Set_of_NoDup l1)
             (Set_of_NoDup l2)).
  now rewrite Nat.max_comm.
Qed.

Lemma Set_of_nil (l : list string) : Set_of l = [] -> l = [].
Proof.
  destruct l as [| x r]; [reflexivity |]. intros H.
  pose proof (Set_of_nonempty (x :: r) ltac:(discriminate)) as Hp.
  rewrite H in Hp. simpl in Hp. lia.
Qed.

(** The share of two lists is NaN when both are empty, and otherwise a
    number between 0 and 1, which is 1 for a list and itself. *)
Lemma overlap_ratio_range (l1 l2 : list string) :
  (l1 = [] /\ l2 = [] /\ overlap_ratio l1 l2 = JNaN) \/
  ((l1 <> [] \/ l2 <> []) /\
   exists q, overlap_ratio l1 l2 = JFin q /\ (0 <= q)%Q /\ (q <= 1)%Q /\
             (l1 = l2 -> (q == 1)%Q)).
Proof.
  destruct l1 as [| x1 r1]; [destruct l2 as [| x2 r2] |].
  - left. repeat split.
  - right. split; [right; discriminate |].
    rewrite overlap_ratio_share by (right; discriminate).
    eexists. split; [reflexivity |]. unfold overlap_share.
    cbn [Set_of fold_left filter List.length]. unfold Set_of. cbn [fold_left filter List.length].
    split; [| split; [| discriminate]].
    + unfold Qdiv. rewrite Qmult_0_l. apply Qle_refl.
    + unfold Qdiv. rewrite Qmult_0_l. discriminate.
  - right. split; [left; discriminate |].
    rewrite overlap_ratio_share by (left; discriminate).
    eexists. split; [reflexivity |]. unfold overlap_share.
    set (s1 := Set_of (x1 :: r1)). set (s2 := Set_of l2).
    assert (Hpos : 0 < Nat.max (List.length s1) (List.length s2)).
    { pose proof (Set_of_nonempty (x1 :: r1) ltac:(discriminate)).
      fold s1 in H. lia. }
    pose proof (qnat_pos _ Hpos) as Hq.
    assert (Hle : List.length (filter (fun x => str_in x s2) s1)
                  <= Nat.max (List.length s1) (List.length s2)).
    { pose proof (filter_length_le (fun x => str_in x s2) s1). lia. }
    split; [| split].
    + apply Qle_shift_div_l; [assumption |]. rewrite Qmult_0_l.
      apply jnat_nonneg.
    + apply Qle_shift_div_r; [assumption |]. rewrite Qmult_1_l.
      now apply qnat_le.
    + intros <-. fold s1 in s2. subst s2.
      assert (Hall : filter (fun x => str_in x s1) s1 = s1).
      { apply forallb_filter_id. apply forallb_forall.
        intros x Hx. now apply str_in_In. }
      rewrite Hall, Nat.max_id. field. apply qnat_nonzero.
      rewrite Nat.max_id in Hpos. exact Hpos.
Qed.

(** X22. The similarity of two papers does not depend on their order.
    It is NaN exactly when the two papers both have no category, or
    both no keyword, or both no author, and otherwise a number between
    0 and 1; the similarity of a paper with a category, a keyword and
    an author to itself is 1. *)
Theorem similarity_is_symmetric_and_bounded (p1 p2 : PaperNode) :
  calculatePaperSimilarity p1 p2 = calculatePaperSimilarity p2 p1 /\
  (if (match categories p1, categories p2 with [], [] => true | _, _ => false end
       || match keywords p1, keywords p2 with [], [] => true | _, _ => false end
       || match authors p1, authors p2 with [], [] => true | _, _ => false end)%bool
   then calculatePaperSimilarity p1 p2 = JNaN
   else exists q,
          calculatePaperSimilarity p1 p2 = JFin q /\
          (0 <= q)%Q /\ (q <= 1)%Q /\
          (categories p1 = categories p2 -> keywords p1 = keywords p2 ->
           map name (authors p1) = map name (authors p2) -> (q == 1)%Q)).
Proof.
  split.
  - unfold calculatePaperSimilarity.
    now rewrite (overlap_ratio_sym (categories p1)),
      (overlap_ratio_sym (keywords p1)),
      (overlap_ratio_sym (map name (authors p1))).
  - unfold calculatePaperSimilarity.
    destruct (overlap_ratio_range (categories p1) (categories p2))
      as [[Hc1 [Hc2 Hc]] | [Hc [qc [Hqc [Hc0 [Hc1 Hcs]]]]]].
    { rewrite Hc, Hc1, Hc2. reflexivity. }
    destruct (overlap_ratio_range (keywords p1) (keywords p2))
      as [[Hk1 [Hk2 Hk]] | [Hk [qk [Hqk [Hk0 [Hk1 Hks]]]]]].
    { rewrite Hk, Hqc, Hk1, Hk2.
      destruct (categories p1), (categories p2); reflexivity. }
    destruct (overlap_ratio_range (map name (authors p1))
                (map name (authors p2)))
      as [[Ha1 [Ha2 Ha]] | [Ha [qa [Hqa [Ha0 [Ha1 Has]]]]]].
    { rewrite Ha, Hqc, Hqk. apply map_eq_nil in Ha1, Ha2.
      rewrite Ha1, Ha2.
      destruct (categories p1), (categories p2), (keywords p1),
        (keywords p2); reflexivity. }
    assert (Hflag : (match categories p1, categories p2 with
                     | [], [] => true | _, _ => false end
                     || match keywords p1, keywords p2 with
                        | [], [] => true | _, _ => false end
                     || match authors p1, authors p2 with
                        | [], [] => true | _, _ => false end)%bool
                    = false).
    { destruct (categories p1), (categories p2); try tauto;
        destruct (keywords p1), (keywords p2); try tauto;
        destruct (authors p1), (authors p2); try reflexivity;
        cbn [map] in Ha; tauto. }
    rewrite Hflag, Hqc, Hqk, Hqa. cbn [jadd jmul].
    eexists. split; [reflexivity |].
    split; [| split].
    + nra.
    + nra.
    + intros Ec Ek Ea. rewrite (Hcs Ec), (Hks Ek), (Has Ea). reflexivity.
Qed.

(** ** The most frequent names *)

Lemma tally_snoc (l : list string) (x : string) :
  fold_left tally (l ++ [x]) [] = tally (fold_left tally l []) x.
Proof. now rewrite fold_left_app. Qed.

Lemma tally_get_same (t : obj nat) (k : string) :
  obj_get (tally t k) k
  = Some (match obj_get t k with Some c => c + 1 | None => 1 end).
Proof. unfold tally. apply obj_get_set_same. Qed.

Lemma tally_get_other (t : obj nat) (x k : string) :
  x <> k -> obj_get (tally t x) k = obj_get t k.
Proof. intros H. unfold tally. now apply obj_get_set_other. Qed.

Lemma tally_keys (t : obj nat) (k : string) :
  obj_keys (tally t k) = set_add (obj_keys t) k.
Proof. unfold tally. apply obj_keys_set. Qed.

(** The table of a list of names holds, for each name of the list, the
    number of its occurrences. *)
Lemma tally_counts (l : list string) (k : string) :
  obj_get (fold_left tally l []) k
  = if count_occ string_dec l k =? 0 then None
    else Some (count_occ string_dec l k).
Proof.
  induction l as [| x r IH] using rev_ind; [reflexivity |].
  rewrite tally_snoc, count_occ_app. cbn [count_occ].
  destruct (string_dec x k) as [-> | Hne].
  - rewrite tally_get_same, IH.
    destruct (Nat.eqb_spec (count_occ string_dec r k) 0) as [H0 | Hpos].
    + rewrite H0. reflexivity.
    + destruct (Nat.eqb_spec (count_occ string_dec r k + 1) 0); [lia |].
      reflexivity.
  - rewrite tally_get_other by assumption. rewrite IH.
    now rewrite Nat.add_0_r.
Qed.

Lemma tally_keys_NoDup (l : list string) :
  NoDup (obj_keys (fold_left tally l [])).
Proof.
  induction l as [| x r IH] using rev_ind; [constructor |].
  rewrite tally_snoc, tally_keys. now apply set_add_NoDup.
Qed.

Lemma obj_In_get {V : Type} (o : obj V) (k : string) (v : V) :
  NoDup (obj_keys o) -> In (k, v) o -> obj_get o k = Some v.
Proof.
  induction o as [| [k' v'] r IH]; intros Hnd Hin; [destruct Hin |].
  cbn [obj_keys map fst] in Hnd. apply NoDup_cons_iff in Hnd.
  destruct Hnd as [Hk' Hnd]. cbn [obj_get].
  destruct Hin as [[= -> ->] | Hin].
  - now rewrite String.eqb_refl.
  - destruct (String.eqb_spec k' k) as [-> | Hne]; [| now apply IH].
    exfalso. apply Hk'. unfold obj_keys.
    now apply (in_map fst r (k, v)).
Qed.

Lemma fold_tally_flat_map {A : Type} (f : A -> list string) (l : list A)
    (t : obj nat) :
  fold_left (fun t a => fold_left tally (f a) t) l t
  = fold_left tally (flat_map f l) t.
Proof.
  revert t. induction l as [| a r IH]; intros t; simpl; [reflexivity |].
  now rewrite IH, fold_left_app.
Qed.

Lemma StronglySorted_split {A : Type} (R : A -> A -> Prop) (n : nat)
    (l : list A) :
  StronglySorted R l ->
  forall x y, In x (firstn n l) -> In y (skipn n l) -> R x y.
Proof.
  revert l. induction n as [| n IH]; intros l Hs x y Hx Hy;
    [destruct Hx |].
  destruct l as [| a r]; [destruct Hx |].
  apply StronglySorted_inv in Hs. destruct Hs as [Hs Hall].
  cbn [firstn skipn] in Hx, Hy. destruct Hx as [<- | Hx].
  - rewrite Forall_forall in Hall. apply Hall.
    rewrite <- (firstn_skipn n r). apply in_or_app. now right.
  - now apply (IH r).
Qed.

Lemma NoDup_firstn {A : Type} (n : nat) (l : list A) :
  NoDup l -> NoDup (firstn n l).
Proof.
  intros H. rewrite <- (firstn_skipn n l) in H.
  now apply NoDup_app_remove_r in H.
Qed.

(** The first [n] entries of the table of a list of names, by falling
    count: distinct names, each with the number of its occurrences, and
    no name left out occurs more often than one that is listed. *)
Lemma top_entries_most_frequent (n : nat) (l : list string) :
  let top := top_entries (Z.of_nat n) (fold_left tally l []) in
  NoDup (map fst top) /\
  (forall k c, In (k, c) top -> c = count_occ string_dec l k /\ 0 < c) /\
  (forall k c k', In (k, c) top -> In k' l -> ~ In k' (map fst top) ->
     count_occ string_dec l k' <= c).
Proof.
  intros top. unfold top, top_entries, slice0.
  destruct (Z.ltb_spec (Z.of_nat n) 0) as [Hneg | _]; [lia |].
  rewrite Nat2Z.id.
  set (t := fold_left tally l []).
  set (sorted := js_sort (fun a b : string * nat => snd b <=? snd a) t).
  assert (Hperm : Permutation t sorted) by apply js_sort_perm.
  assert (Hnd : NoDup (obj_keys t)) by apply tally_keys_NoDup.
  assert (Hentry : forall k c, In (k, c) t ->
                     c = count_occ string_dec l k /\ 0 < c).
  { intros k c Hin. apply (obj_In_get t k c Hnd) in Hin.
    unfold t in Hin. rewrite tally_counts in Hin.
    destruct (Nat.eqb_spec (count_occ string_dec l k) 0); [discriminate |].
    injection Hin as <-. split; [reflexivity | lia]. }
  assert (Hss : StronglySorted (fun a b : string * nat => snd b <= snd a)
                  sorted).
  { apply Sorted_StronglySorted; [intros x y z; lia |].
    apply js_sort_sorted. intros a b _ _.
    destruct (Nat.leb_spec (snd b) (snd a)); lia. }
  split; [| split].
  - rewrite <- firstn_map. apply NoDup_firstn.
    apply (Permutation_NoDup (Permutation_map fst Hperm)). exact Hnd.
  - intros k c Hin. apply Hentry. apply (Permutation_in _ (Permutation_sym Hperm)).
    now apply (firstn_In n).
  - intros k c k' Hin Hk' Hout.
    assert (Hc' : In (k', count_occ string_dec l k') sorted).
    { apply (Permutation_in _ Hperm). apply obj_get_In.
      unfold t. rewrite tally_counts.
      destruct (Nat.eqb_spec (count_occ string_dec l k') 0) as [H0 | _];
        [| reflexivity].
      apply (count_occ_In string_dec) in Hk'. lia. }
    rewrite <- (firstn_skipn n sorted) in Hc'. apply in_app_or in Hc'.
    destruct Hc' as [Hc' | Hc'].
    + exfalso. apply Hout.
      now apply (in_map fst _ (k', count_occ string_dec l k')).
    + apply (StronglySorted_split _ n sorted Hss (k, c)
               (k', count_occ string_dec l k') Hin Hc').
Qed.


(** ** Scenarios *)

(** Three papers with the citations 1 to 2, 2 to 3 and 1 to 3: the third
    has in-degree 2, the first has out-degree 2, the density is 3/6, and
    the two neighbors of the first are connected, so its coefficient
    is 1. *)
Example triangle_metrics :
  let e := snd (buildCitationNetwork no_options store_triangle) in
  let m := calculateBasicMetrics e in
  Graph.nodes (graph e) = ["p1"; "p2"; "p3"]%string /\
  Graph.indegree (graph e) "p3" = 2 /\
  Graph.outdegree (graph e) "p1" = 2 /\
  jeq (density m) (JFin (1 # 2)) /\
  jeq (local_clustering (graph e) "p1") (JFin 1).
Proof. vm_compute. repeat split. Qed.

(** Of the three papers only the first has 50 citations: it is the one
    paper returned, with a positive score, and the store has received
    one [updateMany] call, for its id, which sets its flag. *)
Example seminal_single_candidate :
  let '(r, e, s) :=
    identifySeminalPapers default_seminal_options 2024 new_engine
      store_triangle in
  (exists sp q,
     r = Ok [sp] /\ id (paper sp) = "p1"%string /\
     seminalScore sp = JFin q /\ (0 < q)%Q) /\
  updateMany_calls s = [["p1"%string]] /\
  map doc_isSeminal (paper_docs s) = [true; false; false].
Proof.
  vm_compute. split; [| split; reflexivity].
  eexists. eexists. split; [reflexivity |]. split; [reflexivity |].
  split; reflexivity.
Qed.
